(** * InMAP: the timestep controller, topology builder, convergence monitor,
      science scheduler and output accessor of [lib.inmap]

    A shallow embedding of [run.go] and of the cell/domain file of the
    package ([Cell], [InMAPdata], [neighborInfo], [setTstepCFL],
    [harmonicMean], [toArray], [getValue], [getUnits], [GetGeometry]).

    Go's [float64] is IEEE 754 binary64.  Every numeric function below is
    written once, over the interface [Float64], and read at two instances:

    - [binary64]: the kernel's primitive floats, which are binary64 with
      round-to-nearest-even, signed zeros, infinities and NaN.  This is what
      the compiled program computes (each operation rounded on its own, as
      the gc compiler does on amd64).
    - [exact]: the real numbers.  This is the arithmetic the formulas are
      designed in; it has no rounding, no overflow and no special values.

    Statements about what the program returns are made at [binary64];
    algebraic laws that rounding breaks are stated at [exact]. *)

From Stdlib Require Import ZArith List String Ascii Bool Lia Arith.
From Stdlib Require Import Floats Reals Lra Permutation Sorted.
Import ListNotations.

Set Implicit Arguments.

(* ================================================================== *)
(** ** Arithmetic interface *)

Class Float64 (F : Type) : Type := {
  fofZ   : Z -> F;            (* an integer literal *)
  fadd   : F -> F -> F;
  fsub   : F -> F -> F;
  fmul   : F -> F -> F;
  fdiv   : F -> F -> F;
  fabs   : F -> F;            (* math.Abs *)
  fsqrt  : F -> F;            (* math.Sqrt *)
  fltb   : F -> F -> bool;    (* Go's [<]; [x > y] is [y < x] *)
  fisinf : F -> bool          (* math.IsInf(x, 0) *)
}.

Declare Scope go_scope.
Delimit Scope go_scope with go.
Infix "+" := fadd : go_scope.
Infix "-" := fsub : go_scope.
Infix "*" := fmul : go_scope.
Infix "/" := fdiv : go_scope.
Infix "<?" := fltb (at level 70, no associativity) : go_scope.
Notation "x >? y" := (fltb y x) (at level 70, no associativity) : go_scope.

(** Integer literals below 2^53 convert to binary64 without rounding. *)
Definition float_ofZ (z : Z) : float :=
  match z with
  | Z0 => PrimFloat.zero
  | Zpos _ => PrimFloat.of_uint63 (Uint63.of_Z z)
  | Zneg p => PrimFloat.opp (PrimFloat.of_uint63 (Uint63.of_Z (Zpos p)))
  end.

#[export] Instance binary64 : Float64 float := {|
  fofZ := float_ofZ;
  fadd := PrimFloat.add;
  fsub := PrimFloat.sub;
  fmul := PrimFloat.mul;
  fdiv := PrimFloat.div;
  fabs := PrimFloat.abs;
  fsqrt := PrimFloat.sqrt;
  fltb := PrimFloat.ltb;
  fisinf := PrimFloat.is_infinity
|}.

Definition Rltb (x y : R) : bool := if Rlt_dec x y then true else false.

#[export] Instance exact : Float64 R := {|
  fofZ := IZR;
  fadd := Rplus;
  fsub := Rminus;
  fmul := Rmult;
  fdiv := Rdiv;
  fabs := Rabs;
  fsqrt := R_sqrt.sqrt;
  fltb := Rltb;
  fisinf := fun _ => false
|}.

(* ================================================================== *)
(** ** Panics *)

(** A Go function either returns or panics; a panic unwinds [Run], which
    then returns nothing. *)
Inductive panic : Type :=
| UnknownEmissionsPollutant (pol : string)   (* run.go, the switch's default *)
| UnknownVariable (varName : string)         (* getUnits *)
| ReflectZeroValue (varName : string)        (* Value.Float on the zero Value *)
| ReflectNotFloat (varName : string)         (* Value.Float on another kind *)
| IndexOutOfRange
| NilDereference.

Inductive outcome (A : Type) : Type :=
| Done (a : A)
| Panic (p : panic).
Arguments Done {A} a.
Arguments Panic {A} p.

Definition bind {A B} (m : outcome A) (k : A -> outcome B) : outcome B :=
  match m with
  | Done a => k a
  | Panic p => Panic p
  end.

Notation "x <- m ;; k" := (bind m (fun x => k))
  (at level 61, m at next level, right associativity).

(** [l[i]], which panics out of range. *)
Definition elem {A} (l : list A) (i : nat) : outcome A :=
  match nth_error l i with
  | Some a => Done a
  | None => Panic IndexOutOfRange
  end.

(** [l[i] = a], which panics out of range. *)
Fixpoint setElem {A} (l : list A) (i : nat) (a : A) : outcome (list A) :=
  match l, i with
  | [], _ => Panic IndexOutOfRange
  | _ :: l', O => Done (a :: l')
  | x :: l', S i' => l'' <- setElem l' i' a;; Done (x :: l'')
  end.

Definition panics {A} (m : outcome A) : Prop :=
  match m with Done _ => False | Panic _ => True end.

(** A Go map with string keys, read only: a list of distinct keys with
    their values. *)
Fixpoint lookup {A} (m : list (string * A)) (k : string) : option A :=
  match m with
  | [] => None
  | (k', v) :: m' => if String.eqb k k' then Some v else lookup m' k
  end.

(** [strings.Replace(s, old, "", 1)] for a non-empty [old]: the leftmost
    occurrence of [old] is deleted. *)
Fixpoint dropPrefix (n : nat) (s : string) : string :=
  match n, s with
  | S n', String _ s' => dropPrefix n' s'
  | _, _ => s
  end.

Fixpoint removeFirst (old s : string) : string :=
  if String.prefix old s then dropPrefix (String.length old) s
  else match s with
       | EmptyString => EmptyString
       | String a s' => String a (removeFirst old s')
       end.

(* ================================================================== *)
(** ** Constants of [run.go] *)

(** Indices of individual pollutants in arrays. *)
Definition igOrg  : nat := 0.
Definition ipOrg  : nat := 1.
Definition iPM2_5 : nat := 2.
Definition igNH   : nat := 3.
Definition ipNH   : nat := 4.
Definition igS    : nat := 5.
Definition ipS    : nat := 6.
Definition igNO   : nat := 7.
Definition ipNO   : nat := 8.

(** These are the names of pollutants accepted as emissions. *)
Definition EmisNames : list string :=
  ["VOC"; "NOx"; "NH3"; "SOx"; "PM2_5"]%string.

(** These are the names of pollutants within the model. *)
Definition polNames : list string :=
  ["gOrg"; "pOrg"; "PM2_5"; "gNH"; "pNH"; "gS"; "pS"; "gNO"; "pNO"]%string.

Definition topLayerToCalc : Z := 28.

Section Model.
Context {F : Type} `{Float64 F}.
Local Open Scope go_scope.

(** A Go constant expression is evaluated exactly and converted to
    [float64] once, by rounding to nearest.  Each constant below is a
    ratio of two integers under 2^53, so the single division of the two
    (exactly converted) integers is that rounding. *)
Definition ratio (n d : Z) : F := fofZ n / fofZ d.

(* mwNOx = 46.0055, mwN = 14.0067, mwNO3 = 62.00501, mwNH3 = 17.03056,
   mwNH4 = 18.03851, mwS = 32.0655, mwSO2 = 64.0644, mwSO4 = 96.0632 *)
Definition NOxToN : F := ratio 140067 460055.        (* mwN / mwNOx *)
Definition NtoNO3 : F := ratio 6200501 1400670.      (* mwNO3 / mwN *)
Definition SOxToS : F := ratio 640644 320655.        (* mwSO2 / mwS *)
Definition StoSO4 : F := ratio 320655 960632.        (* mwS / mwSO4 *)
Definition NH3ToN : F := ratio 1400670 1703056.      (* mwN / mwNH3 *)
Definition NtoNH4 : F := ratio 1803851 1400670.      (* mwNH4 / mwN *)
(* 1. / NH3ToN and the like are constant expressions too *)
Definition invNH3ToN : F := ratio 1703056 1400670.
Definition invSOxToS : F := ratio 320655 640644.
Definition invNOxToN : F := ratio 460055 140067.

Definition tolerance : F := ratio 5 1000.            (* 0.005 *)
Definition checkPeriod : F := fofZ 3600.
Definition daysPerSecond : F := ratio 1 86400.       (* 1. / 3600. / 24. *)

(* ---------------------------------------------------------------- *)
(** ** Helpers declared outside the two source files *)

(** Modelled from the spec: the two-argument [min] called by
    [neighborInfo] is declared in a file of the package that is not among
    the sources; the spec reads it as the smaller of its two arguments. *)
Definition min (v1 v2 : F) : F := if v1 <? v2 then v1 else v2.

(** Modelled from the spec: the variadic [max] called by [setTstepCFL] is
    declared in a file of the package that is not among the sources; the
    spec reads it as the largest argument, found by one pass of [>]
    starting from the first argument. *)
Definition max (v0 : F) (vals : list F) : F :=
  fold_left (fun m v => if v >? m then v else m) vals v0.

(** Modelled from the spec: the variadic [amin] called by [setTstepCFL]
    is declared in a file of the package that is not among the sources;
    the spec reads it as the smallest argument, found by one pass of [<]
    starting from the first argument. *)
Definition amin (v0 : F) (vals : list F) : F :=
  fold_left (fun m v => if v <? m then v else m) vals v0.

(* ---------------------------------------------------------------- *)
(** ** Convergence monitor ([run.go]) *)

(** The relative change that [checkConvergence] computes. *)
Definition bias (newSum oldSum : F) : F := (newSum - oldSum) / oldSum.

(** [checkConvergence]; its [fmt.Printf] of the bias is output only. *)
Definition checkConvergence (newSum oldSum : F) : bool :=
  let bias := bias newSum oldSum in
  if (fabs bias >? tolerance) || fisinf bias then false else true.

(** The periodic check inside [Run]: one pass over [polNames], comparing
    the new per-species sums with [oldSum] and storing them.  Returns
    [timeToQuit] and the updated [oldSum].  (The source calls
    [checkConvergence] a second time for each species and drops the
    result.) *)
Fixpoint checkSpecies (sums oldSum : list F) : bool * list F :=
  match sums, oldSum with
  | s :: sums', o :: oldSum' =>
      let (q, rest) := checkSpecies sums' oldSum' in
      (checkConvergence s o && q, s :: rest)
  | _, _ => (true, [])
  end.

(* ---------------------------------------------------------------- *)
(** ** Interface diffusivity *)

Definition harmonicMean (a b : F) : F :=
  fofZ 2 * a * b / (a + b).

(* ---------------------------------------------------------------- *)
(** ** Data model: [Cell] and [InMAPdata] *)

(** Collaborators outside the package.  [popNames] is the package's table
    of population fields, declared in a file that is not among the sources
    (only its keys are read here); [RRpm25Linear] and [Deaths] are the
    concentration-response functions of package [aqhealth]. *)
Variable popNames : list string.
Variable RRpm25Linear : F -> F.
Variable Deaths : F -> F -> F -> F.

(** Cell geometry is opaque to the solver: a handle. *)
Definition Polygonal : Type := nat.

(** A [*Cell]: the domain owns every cell, in [Cells] or in one of its five
    boundary slices, and a pointer names the slice and the position. *)
Inductive CellRef : Type :=
| Active (i : nat)
| WestB (i : nat)
| EastB (i : nat)
| NorthB (i : nat)
| SouthB (i : nat)
| TopB (i : nat).

(** The embedded [sync.RWMutex]: how many read locks are held, and whether
    the write lock is. *)
Record RWMutexState : Type := mkRW {
  readers : nat;
  writer : bool
}.

(** Cell holds the state of a single grid cell.  The fields are those of
    the struct, in its order, but for the embedded [geom.Polygonal] and the
    unexported [index] and [aboveDensityThreshold], which no function below
    reads; [RWMutex] is the state of the embedded lock. *)
Record Cell : Type := mkCell {
  WebMapGeom : Polygonal;
  UAvg : F;
  VAvg : F;
  WAvg : F;
  UDeviation : F;
  VDeviation : F;
  AOrgPartitioning : F;
  BOrgPartitioning : F;
  SPartitioning : F;
  NOPartitioning : F;
  NHPartitioning : F;
  SO2oxidation : F;
  ParticleWetDep : F;
  SO2WetDep : F;
  OtherGasWetDep : F;
  ParticleDryDep : F;
  NH3DryDep : F;
  SO2DryDep : F;
  VOCDryDep : F;
  NOxDryDep : F;
  Kzz : F;
  KzzAbove : list F;
  KzzBelow : list F;
  Kxxyy : F;
  KyySouth : list F;
  KyyNorth : list F;
  KxxWest : list F;
  KxxEast : list F;
  M2u : F;
  M2d : F;
  PopData : list (string * F);
  MortalityRate : F;
  Dx : F;
  Dy : F;
  Dz : F;
  Volume : F;
  Row : Z;
  Ci : list F;
  Cf : list F;
  emisFlux : list F;
  West : list CellRef;
  East : list CellRef;
  South : list CellRef;
  North : list CellRef;
  Below : list CellRef;
  Above : list CellRef;
  GroundLevel : list CellRef;
  Boundary : bool;
  WestFrac : list F;
  EastFrac : list F;
  NorthFrac : list F;
  SouthFrac : list F;
  AboveFrac : list F;
  BelowFrac : list F;
  GroundLevelFrac : list F;
  DxPlusHalf : list F;
  DxMinusHalf : list F;
  DyPlusHalf : list F;
  DyMinusHalf : list F;
  DzPlusHalf : list F;
  DzMinusHalf : list F;
  Layer : Z;
  LayerHeight : F;
  Temperature : F;
  WindSpeed : F;
  WindSpeedInverse : F;
  WindSpeedMinusThird : F;
  WindSpeedMinusOnePointFour : F;
  S1 : F;
  SClass : F;
  TotalPM25 : F;
  RWMutex : RWMutexState
}.

(** [c] with its three concentration vectors replaced. *)
Definition withConc (c : Cell)
    (Ci' : list F) (Cf' : list F) (emisFlux' : list F) : Cell :=
  {|
    WebMapGeom := WebMapGeom c; UAvg := UAvg c; VAvg := VAvg c;
    WAvg := WAvg c; UDeviation := UDeviation c; VDeviation := VDeviation c;
    AOrgPartitioning := AOrgPartitioning c;
    BOrgPartitioning := BOrgPartitioning c;
    SPartitioning := SPartitioning c; NOPartitioning := NOPartitioning c;
    NHPartitioning := NHPartitioning c; SO2oxidation := SO2oxidation c;
    ParticleWetDep := ParticleWetDep c; SO2WetDep := SO2WetDep c;
    OtherGasWetDep := OtherGasWetDep c; ParticleDryDep := ParticleDryDep c;
    NH3DryDep := NH3DryDep c; SO2DryDep := SO2DryDep c;
    VOCDryDep := VOCDryDep c; NOxDryDep := NOxDryDep c; Kzz := Kzz c;
    KzzAbove := KzzAbove c; KzzBelow := KzzBelow c; Kxxyy := Kxxyy c;
    KyySouth := KyySouth c; KyyNorth := KyyNorth c; KxxWest := KxxWest c;
    KxxEast := KxxEast c; M2u := M2u c; M2d := M2d c; PopData := PopData c;
    MortalityRate := MortalityRate c; Dx := Dx c; Dy := Dy c; Dz := Dz c;
    Volume := Volume c; Row := Row c; Ci := Ci'; Cf := Cf';
    emisFlux := emisFlux'; West := West c; East := East c; South := South c;
    North := North c; Below := Below c; Above := Above c;
    GroundLevel := GroundLevel c; Boundary := Boundary c;
    WestFrac := WestFrac c; EastFrac := EastFrac c;
    NorthFrac := NorthFrac c; SouthFrac := SouthFrac c;
    AboveFrac := AboveFrac c; BelowFrac := BelowFrac c;
    GroundLevelFrac := GroundLevelFrac c; DxPlusHalf := DxPlusHalf c;
    DxMinusHalf := DxMinusHalf c; DyPlusHalf := DyPlusHalf c;
    DyMinusHalf := DyMinusHalf c; DzPlusHalf := DzPlusHalf c;
    DzMinusHalf := DzMinusHalf c; Layer := Layer c;
    LayerHeight := LayerHeight c; Temperature := Temperature c;
    WindSpeed := WindSpeed c; WindSpeedInverse := WindSpeedInverse c;
    WindSpeedMinusThird := WindSpeedMinusThird c;
    WindSpeedMinusOnePointFour := WindSpeedMinusOnePointFour c; S1 := S1 c;
    SClass := SClass c; TotalPM25 := TotalPM25 c; RWMutex := RWMutex c
  |}.

(** [c] with the state of its embedded lock replaced. *)
Definition withLock (c : Cell)
    (RWMutex' : RWMutexState) : Cell :=
  {|
    WebMapGeom := WebMapGeom c; UAvg := UAvg c; VAvg := VAvg c;
    WAvg := WAvg c; UDeviation := UDeviation c; VDeviation := VDeviation c;
    AOrgPartitioning := AOrgPartitioning c;
    BOrgPartitioning := BOrgPartitioning c;
    SPartitioning := SPartitioning c; NOPartitioning := NOPartitioning c;
    NHPartitioning := NHPartitioning c; SO2oxidation := SO2oxidation c;
    ParticleWetDep := ParticleWetDep c; SO2WetDep := SO2WetDep c;
    OtherGasWetDep := OtherGasWetDep c; ParticleDryDep := ParticleDryDep c;
    NH3DryDep := NH3DryDep c; SO2DryDep := SO2DryDep c;
    VOCDryDep := VOCDryDep c; NOxDryDep := NOxDryDep c; Kzz := Kzz c;
    KzzAbove := KzzAbove c; KzzBelow := KzzBelow c; Kxxyy := Kxxyy c;
    KyySouth := KyySouth c; KyyNorth := KyyNorth c; KxxWest := KxxWest c;
    KxxEast := KxxEast c; M2u := M2u c; M2d := M2d c; PopData := PopData c;
    MortalityRate := MortalityRate c; Dx := Dx c; Dy := Dy c; Dz := Dz c;
    Volume := Volume c; Row := Row c; Ci := Ci c; Cf := Cf c;
    emisFlux := emisFlux c; West := West c; East := East c;
    South := South c; North := North c; Below := Below c; Above := Above c;
    GroundLevel := GroundLevel c; Boundary := Boundary c;
    WestFrac := WestFrac c; EastFrac := EastFrac c;
    NorthFrac := NorthFrac c; SouthFrac := SouthFrac c;
    AboveFrac := AboveFrac c; BelowFrac := BelowFrac c;
    GroundLevelFrac := GroundLevelFrac c; DxPlusHalf := DxPlusHalf c;
    DxMinusHalf := DxMinusHalf c; DyPlusHalf := DyPlusHalf c;
    DyMinusHalf := DyMinusHalf c; DzPlusHalf := DzPlusHalf c;
    DzMinusHalf := DzMinusHalf c; Layer := Layer c;
    LayerHeight := LayerHeight c; Temperature := Temperature c;
    WindSpeed := WindSpeed c; WindSpeedInverse := WindSpeedInverse c;
    WindSpeedMinusThird := WindSpeedMinusThird c;
    WindSpeedMinusOnePointFour := WindSpeedMinusOnePointFour c; S1 := S1 c;
    SClass := SClass c; TotalPM25 := TotalPM25 c; RWMutex := RWMutex'
  |}.

(** [c] with the nineteen per-neighbor arrays that [neighborInfo] writes
    replaced (arguments in the order of the struct's fields). *)
Definition withTopology (c : Cell)
    (KzzAbove' : list F) (KzzBelow' : list F) (KyySouth' : list F)
    (KyyNorth' : list F) (KxxWest' : list F) (KxxEast' : list F)
    (WestFrac' : list F) (EastFrac' : list F) (NorthFrac' : list F)
    (SouthFrac' : list F) (AboveFrac' : list F) (BelowFrac' : list F)
    (GroundLevelFrac' : list F) (DxPlusHalf' : list F)
    (DxMinusHalf' : list F) (DyPlusHalf' : list F)
    (DyMinusHalf' : list F) (DzPlusHalf' : list F) (DzMinusHalf' : list F) : Cell :=
  {|
    WebMapGeom := WebMapGeom c; UAvg := UAvg c; VAvg := VAvg c;
    WAvg := WAvg c; UDeviation := UDeviation c; VDeviation := VDeviation c;
    AOrgPartitioning := AOrgPartitioning c;
    BOrgPartitioning := BOrgPartitioning c;
    SPartitioning := SPartitioning c; NOPartitioning := NOPartitioning c;
    NHPartitioning := NHPartitioning c; SO2oxidation := SO2oxidation c;
    ParticleWetDep := ParticleWetDep c; SO2WetDep := SO2WetDep c;
    OtherGasWetDep := OtherGasWetDep c; ParticleDryDep := ParticleDryDep c;
    NH3DryDep := NH3DryDep c; SO2DryDep := SO2DryDep c;
    VOCDryDep := VOCDryDep c; NOxDryDep := NOxDryDep c; Kzz := Kzz c;
    KzzAbove := KzzAbove'; KzzBelow := KzzBelow'; Kxxyy := Kxxyy c;
    KyySouth := KyySouth'; KyyNorth := KyyNorth'; KxxWest := KxxWest';
    KxxEast := KxxEast'; M2u := M2u c; M2d := M2d c; PopData := PopData c;
    MortalityRate := MortalityRate c; Dx := Dx c; Dy := Dy c; Dz := Dz c;
    Volume := Volume c; Row := Row c; Ci := Ci c; Cf := Cf c;
    emisFlux := emisFlux c; West := West c; East := East c;
    South := South c; North := North c; Below := Below c; Above := Above c;
    GroundLevel := GroundLevel c; Boundary := Boundary c;
    WestFrac := WestFrac'; EastFrac := EastFrac'; NorthFrac := NorthFrac';
    SouthFrac := SouthFrac'; AboveFrac := AboveFrac';
    BelowFrac := BelowFrac'; GroundLevelFrac := GroundLevelFrac';
    DxPlusHalf := DxPlusHalf'; DxMinusHalf := DxMinusHalf';
    DyPlusHalf := DyPlusHalf'; DyMinusHalf := DyMinusHalf';
    DzPlusHalf := DzPlusHalf'; DzMinusHalf := DzMinusHalf';
    Layer := Layer c; LayerHeight := LayerHeight c;
    Temperature := Temperature c; WindSpeed := WindSpeed c;
    WindSpeedInverse := WindSpeedInverse c;
    WindSpeedMinusThird := WindSpeedMinusThird c;
    WindSpeedMinusOnePointFour := WindSpeedMinusOnePointFour c; S1 := S1 c;
    SClass := SClass c; TotalPM25 := TotalPM25 c; RWMutex := RWMutex c
  |}.

(** [new(Cell)]: every field holds the zero value of its type. *)
Definition newCell : Cell :=
  {|
    WebMapGeom := 0%nat; UAvg := fofZ 0; VAvg := fofZ 0; WAvg := fofZ 0;
    UDeviation := fofZ 0; VDeviation := fofZ 0; AOrgPartitioning := fofZ 0;
    BOrgPartitioning := fofZ 0; SPartitioning := fofZ 0;
    NOPartitioning := fofZ 0; NHPartitioning := fofZ 0;
    SO2oxidation := fofZ 0; ParticleWetDep := fofZ 0; SO2WetDep := fofZ 0;
    OtherGasWetDep := fofZ 0; ParticleDryDep := fofZ 0; NH3DryDep := fofZ 0;
    SO2DryDep := fofZ 0; VOCDryDep := fofZ 0; NOxDryDep := fofZ 0;
    Kzz := fofZ 0; KzzAbove := []; KzzBelow := []; Kxxyy := fofZ 0;
    KyySouth := []; KyyNorth := []; KxxWest := []; KxxEast := [];
    M2u := fofZ 0; M2d := fofZ 0; PopData := []; MortalityRate := fofZ 0;
    Dx := fofZ 0; Dy := fofZ 0; Dz := fofZ 0; Volume := fofZ 0; Row := 0%Z;
    Ci := []; Cf := []; emisFlux := []; West := []; East := []; South := [];
    North := []; Below := []; Above := []; GroundLevel := [];
    Boundary := false; WestFrac := []; EastFrac := []; NorthFrac := [];
    SouthFrac := []; AboveFrac := []; BelowFrac := [];
    GroundLevelFrac := []; DxPlusHalf := []; DxMinusHalf := [];
    DyPlusHalf := []; DyMinusHalf := []; DzPlusHalf := [];
    DzMinusHalf := []; Layer := 0%Z; LayerHeight := fofZ 0;
    Temperature := fofZ 0; WindSpeed := fofZ 0; WindSpeedInverse := fofZ 0;
    WindSpeedMinusThird := fofZ 0; WindSpeedMinusOnePointFour := fofZ 0;
    S1 := fofZ 0; SClass := fofZ 0; TotalPM25 := fofZ 0;
    RWMutex := mkRW 0 false
  |}.

(** [c] with the scalars that [boundaryCopy] copies replaced (arguments in
    the order of the struct's fields). *)
Definition withPhysics (c : Cell)
    (UAvg' : F) (VAvg' : F) (WAvg' : F) (UDeviation' : F)
    (VDeviation' : F) (Kzz' : F) (Kxxyy' : F) (M2u' : F) (M2d' : F)
    (Dx' : F) (Dy' : F) (Dz' : F) (Boundary' : bool) (Layer' : Z)
    (LayerHeight' : F) : Cell :=
  {|
    WebMapGeom := WebMapGeom c; UAvg := UAvg'; VAvg := VAvg'; WAvg := WAvg';
    UDeviation := UDeviation'; VDeviation := VDeviation';
    AOrgPartitioning := AOrgPartitioning c;
    BOrgPartitioning := BOrgPartitioning c;
    SPartitioning := SPartitioning c; NOPartitioning := NOPartitioning c;
    NHPartitioning := NHPartitioning c; SO2oxidation := SO2oxidation c;
    ParticleWetDep := ParticleWetDep c; SO2WetDep := SO2WetDep c;
    OtherGasWetDep := OtherGasWetDep c; ParticleDryDep := ParticleDryDep c;
    NH3DryDep := NH3DryDep c; SO2DryDep := SO2DryDep c;
    VOCDryDep := VOCDryDep c; NOxDryDep := NOxDryDep c; Kzz := Kzz';
    KzzAbove := KzzAbove c; KzzBelow := KzzBelow c; Kxxyy := Kxxyy';
    KyySouth := KyySouth c; KyyNorth := KyyNorth c; KxxWest := KxxWest c;
    KxxEast := KxxEast c; M2u := M2u'; M2d := M2d'; PopData := PopData c;
    MortalityRate := MortalityRate c; Dx := Dx'; Dy := Dy'; Dz := Dz';
    Volume := Volume c; Row := Row c; Ci := Ci c; Cf := Cf c;
    emisFlux := emisFlux c; West := West c; East := East c;
    South := South c; North := North c; Below := Below c; Above := Above c;
    GroundLevel := GroundLevel c; Boundary := Boundary';
    WestFrac := WestFrac c; EastFrac := EastFrac c;
    NorthFrac := NorthFrac c; SouthFrac := SouthFrac c;
    AboveFrac := AboveFrac c; BelowFrac := BelowFrac c;
    GroundLevelFrac := GroundLevelFrac c; DxPlusHalf := DxPlusHalf c;
    DxMinusHalf := DxMinusHalf c; DyPlusHalf := DyPlusHalf c;
    DyMinusHalf := DyMinusHalf c; DzPlusHalf := DzPlusHalf c;
    DzMinusHalf := DzMinusHalf c; Layer := Layer';
    LayerHeight := LayerHeight'; Temperature := Temperature c;
    WindSpeed := WindSpeed c; WindSpeedInverse := WindSpeedInverse c;
    WindSpeedMinusThird := WindSpeedMinusThird c;
    WindSpeedMinusOnePointFour := WindSpeedMinusOnePointFour c; S1 := S1 c;
    SClass := SClass c; TotalPM25 := TotalPM25 c; RWMutex := RWMutex c
  |}.

(** [c] with its volume replaced. *)
Definition withVolume (c : Cell)
    (Volume' : F) : Cell :=
  {|
    WebMapGeom := WebMapGeom c; UAvg := UAvg c; VAvg := VAvg c;
    WAvg := WAvg c; UDeviation := UDeviation c; VDeviation := VDeviation c;
    AOrgPartitioning := AOrgPartitioning c;
    BOrgPartitioning := BOrgPartitioning c;
    SPartitioning := SPartitioning c; NOPartitioning := NOPartitioning c;
    NHPartitioning := NHPartitioning c; SO2oxidation := SO2oxidation c;
    ParticleWetDep := ParticleWetDep c; SO2WetDep := SO2WetDep c;
    OtherGasWetDep := OtherGasWetDep c; ParticleDryDep := ParticleDryDep c;
    NH3DryDep := NH3DryDep c; SO2DryDep := SO2DryDep c;
    VOCDryDep := VOCDryDep c; NOxDryDep := NOxDryDep c; Kzz := Kzz c;
    KzzAbove := KzzAbove c; KzzBelow := KzzBelow c; Kxxyy := Kxxyy c;
    KyySouth := KyySouth c; KyyNorth := KyyNorth c; KxxWest := KxxWest c;
    KxxEast := KxxEast c; M2u := M2u c; M2d := M2d c; PopData := PopData c;
    MortalityRate := MortalityRate c; Dx := Dx c; Dy := Dy c; Dz := Dz c;
    Volume := Volume'; Row := Row c; Ci := Ci c; Cf := Cf c;
    emisFlux := emisFlux c; West := West c; East := East c;
    South := South c; North := North c; Below := Below c; Above := Above c;
    GroundLevel := GroundLevel c; Boundary := Boundary c;
    WestFrac := WestFrac c; EastFrac := EastFrac c;
    NorthFrac := NorthFrac c; SouthFrac := SouthFrac c;
    AboveFrac := AboveFrac c; BelowFrac := BelowFrac c;
    GroundLevelFrac := GroundLevelFrac c; DxPlusHalf := DxPlusHalf c;
    DxMinusHalf := DxMinusHalf c; DyPlusHalf := DyPlusHalf c;
    DyMinusHalf := DyMinusHalf c; DzPlusHalf := DzPlusHalf c;
    DzMinusHalf := DzMinusHalf c; Layer := Layer c;
    LayerHeight := LayerHeight c; Temperature := Temperature c;
    WindSpeed := WindSpeed c; WindSpeedInverse := WindSpeedInverse c;
    WindSpeedMinusThird := WindSpeedMinusThird c;
    WindSpeedMinusOnePointFour := WindSpeedMinusOnePointFour c; S1 := S1 c;
    SClass := SClass c; TotalPM25 := TotalPM25 c; RWMutex := RWMutex c
  |}.

(** [c] with its seven neighbor lists replaced. *)
Definition withNeighbors (c : Cell)
    (West' : list CellRef) (East' : list CellRef) (South' : list CellRef)
    (North' : list CellRef) (Below' : list CellRef)
    (Above' : list CellRef) (GroundLevel' : list CellRef) : Cell :=
  {|
    WebMapGeom := WebMapGeom c; UAvg := UAvg c; VAvg := VAvg c;
    WAvg := WAvg c; UDeviation := UDeviation c; VDeviation := VDeviation c;
    AOrgPartitioning := AOrgPartitioning c;
    BOrgPartitioning := BOrgPartitioning c;
    SPartitioning := SPartitioning c; NOPartitioning := NOPartitioning c;
    NHPartitioning := NHPartitioning c; SO2oxidation := SO2oxidation c;
    ParticleWetDep := ParticleWetDep c; SO2WetDep := SO2WetDep c;
    OtherGasWetDep := OtherGasWetDep c; ParticleDryDep := ParticleDryDep c;
    NH3DryDep := NH3DryDep c; SO2DryDep := SO2DryDep c;
    VOCDryDep := VOCDryDep c; NOxDryDep := NOxDryDep c; Kzz := Kzz c;
    KzzAbove := KzzAbove c; KzzBelow := KzzBelow c; Kxxyy := Kxxyy c;
    KyySouth := KyySouth c; KyyNorth := KyyNorth c; KxxWest := KxxWest c;
    KxxEast := KxxEast c; M2u := M2u c; M2d := M2d c; PopData := PopData c;
    MortalityRate := MortalityRate c; Dx := Dx c; Dy := Dy c; Dz := Dz c;
    Volume := Volume c; Row := Row c; Ci := Ci c; Cf := Cf c;
    emisFlux := emisFlux c; West := West'; East := East'; South := South';
    North := North'; Below := Below'; Above := Above';
    GroundLevel := GroundLevel'; Boundary := Boundary c;
    WestFrac := WestFrac c; EastFrac := EastFrac c;
    NorthFrac := NorthFrac c; SouthFrac := SouthFrac c;
    AboveFrac := AboveFrac c; BelowFrac := BelowFrac c;
    GroundLevelFrac := GroundLevelFrac c; DxPlusHalf := DxPlusHalf c;
    DxMinusHalf := DxMinusHalf c; DyPlusHalf := DyPlusHalf c;
    DyMinusHalf := DyMinusHalf c; DzPlusHalf := DzPlusHalf c;
    DzMinusHalf := DzMinusHalf c; Layer := Layer c;
    LayerHeight := LayerHeight c; Temperature := Temperature c;
    WindSpeed := WindSpeed c; WindSpeedInverse := WindSpeedInverse c;
    WindSpeedMinusThird := WindSpeedMinusThird c;
    WindSpeedMinusOnePointFour := WindSpeedMinusOnePointFour c; S1 := S1 c;
    SClass := SClass c; TotalPM25 := TotalPM25 c; RWMutex := RWMutex c
  |}.

(** InMAPdata holds the current state of the model.  The descriptions, the
    spatial indices and the projection are not read by the code below. *)
Record InMAPdata : Type := mkData {
  Cells : list Cell;
  Dt : F;
  Nlayers : nat;
  NumIterations : Z;
  westBoundary : list Cell;
  eastBoundary : list Cell;
  northBoundary : list Cell;
  southBoundary : list Cell;
  topBoundary : list Cell
}.

Definition withCells (d : InMAPdata) (cells : list Cell) : InMAPdata :=
  {| Cells := cells; Dt := Dt d; Nlayers := Nlayers d;
     NumIterations := NumIterations d;
     westBoundary := westBoundary d; eastBoundary := eastBoundary d;
     northBoundary := northBoundary d; southBoundary := southBoundary d;
     topBoundary := topBoundary d |}.

Definition withDt (d : InMAPdata) (dt : F) : InMAPdata :=
  {| Cells := Cells d; Dt := dt; Nlayers := Nlayers d;
     NumIterations := NumIterations d;
     westBoundary := westBoundary d; eastBoundary := eastBoundary d;
     northBoundary := northBoundary d; southBoundary := southBoundary d;
     topBoundary := topBoundary d |}.

(** Following a pointer; one that names no cell is a nil dereference. *)
Definition deref (d : InMAPdata) (r : CellRef) : outcome Cell :=
  let find l i := match nth_error l i with
                  | Some c => Done c
                  | None => Panic NilDereference
                  end in
  match r with
  | Active i => find (Cells d) i
  | WestB i => find (westBoundary d) i
  | EastB i => find (eastBoundary d) i
  | NorthB i => find (northBoundary d) i
  | SouthB i => find (southBoundary d) i
  | TopB i => find (topBoundary d) i
  end.

Fixpoint derefAll (d : InMAPdata) (rs : list CellRef) : outcome (list Cell) :=
  match rs with
  | [] => Done []
  | r :: rs' => c <- deref d r;; cs <- derefAll d rs';; Done (c :: cs)
  end.

(** What [reflect] sees of the struct [Cell]: the kind of each field and
    its [units] tag ([""] when it has none). *)
Inductive Kind : Type :=
| KInt | KBool | KSlice | KMap | KInterface | KStruct | KInt32 | KUint32.

(** A field of kind [float64], with its getter, or a field of another
    kind. *)
Inductive field : Type :=
| FFloat (get : Cell -> F)
| FOther (k : Kind).

(** The fields of [Cell] in declaration order: the two embedded fields
    under the names of their types, the unexported fields, and last the
    fields promoted from the embedded [sync.RWMutex]. *)
Definition cellFields : list (string * (field * string)) :=
  [
   ("Polygonal", (FOther KInterface, ""));
   ("WebMapGeom", (FOther KInterface, ""));
   ("UAvg", (FFloat UAvg, "m/s"));
   ("VAvg", (FFloat VAvg, "m/s"));
   ("WAvg", (FFloat WAvg, "m/s"));
   ("UDeviation", (FFloat UDeviation, "m/s"));
   ("VDeviation", (FFloat VDeviation, "m/s"));
   ("AOrgPartitioning", (FFloat AOrgPartitioning, "fraction particles"));
   ("BOrgPartitioning", (FFloat BOrgPartitioning, ""));
   ("SPartitioning", (FFloat SPartitioning, "fraction particles"));
   ("NOPartitioning", (FFloat NOPartitioning, "fraction particles"));
   ("NHPartitioning", (FFloat NHPartitioning, "fraction particles"));
   ("SO2oxidation", (FFloat SO2oxidation, "1/s"));
   ("ParticleWetDep", (FFloat ParticleWetDep, "1/s"));
   ("SO2WetDep", (FFloat SO2WetDep, "1/s"));
   ("OtherGasWetDep", (FFloat OtherGasWetDep, "1/s"));
   ("ParticleDryDep", (FFloat ParticleDryDep, "m/s"));
   ("NH3DryDep", (FFloat NH3DryDep, "m/s"));
   ("SO2DryDep", (FFloat SO2DryDep, "m/s"));
   ("VOCDryDep", (FFloat VOCDryDep, "m/s"));
   ("NOxDryDep", (FFloat NOxDryDep, "m/s"));
   ("Kzz", (FFloat Kzz, "m²/s"));
   ("KzzAbove", (FOther KSlice, ""));
   ("KzzBelow", (FOther KSlice, ""));
   ("Kxxyy", (FFloat Kxxyy, "m²/s"));
   ("KyySouth", (FOther KSlice, ""));
   ("KyyNorth", (FOther KSlice, ""));
   ("KxxWest", (FOther KSlice, ""));
   ("KxxEast", (FOther KSlice, ""));
   ("M2u", (FFloat M2u, "1/s"));
   ("M2d", (FFloat M2d, "1/s"));
   ("PopData", (FOther KMap, ""));
   ("MortalityRate", (FFloat MortalityRate, "Deaths per 100,000 people per year"));
   ("Dx", (FFloat Dx, ""));
   ("Dy", (FFloat Dy, ""));
   ("Dz", (FFloat Dz, ""));
   ("Volume", (FFloat Volume, "m³"));
   ("Row", (FOther KInt, ""));
   ("Ci", (FOther KSlice, ""));
   ("Cf", (FOther KSlice, ""));
   ("emisFlux", (FOther KSlice, ""));
   ("West", (FOther KSlice, ""));
   ("East", (FOther KSlice, ""));
   ("South", (FOther KSlice, ""));
   ("North", (FOther KSlice, ""));
   ("Below", (FOther KSlice, ""));
   ("Above", (FOther KSlice, ""));
   ("GroundLevel", (FOther KSlice, ""));
   ("Boundary", (FOther KBool, ""));
   ("WestFrac", (FOther KSlice, ""));
   ("EastFrac", (FOther KSlice, ""));
   ("NorthFrac", (FOther KSlice, ""));
   ("SouthFrac", (FOther KSlice, ""));
   ("AboveFrac", (FOther KSlice, ""));
   ("BelowFrac", (FOther KSlice, ""));
   ("GroundLevelFrac", (FOther KSlice, ""));
   ("DxPlusHalf", (FOther KSlice, ""));
   ("DxMinusHalf", (FOther KSlice, ""));
   ("DyPlusHalf", (FOther KSlice, ""));
   ("DyMinusHalf", (FOther KSlice, ""));
   ("DzPlusHalf", (FOther KSlice, ""));
   ("DzMinusHalf", (FOther KSlice, ""));
   ("Layer", (FOther KInt, ""));
   ("LayerHeight", (FFloat LayerHeight, ""));
   ("Temperature", (FFloat Temperature, "K"));
   ("WindSpeed", (FFloat WindSpeed, "m/s"));
   ("WindSpeedInverse", (FFloat WindSpeedInverse, "(m/s)^(-1)"));
   ("WindSpeedMinusThird", (FFloat WindSpeedMinusThird, "(m/s)^(-1/3)"));
   ("WindSpeedMinusOnePointFour", (FFloat WindSpeedMinusOnePointFour, "(m/s)^(-1.4)"));
   ("S1", (FFloat S1, "?"));
   ("SClass", (FFloat SClass, "0=Unstable; 1=Stable"));
   ("TotalPM25", (FFloat TotalPM25, ""));
   ("RWMutex", (FOther KStruct, ""));
   ("index", (FOther KSlice, ""));
   ("aboveDensityThreshold", (FOther KBool, ""));
   ("w", (FOther KStruct, ""));
   ("writerSem", (FOther KUint32, ""));
   ("readerSem", (FOther KUint32, ""));
   ("readerCount", (FOther KInt32, ""));
   ("readerWait", (FOther KInt32, ""))
  ]%string.

Definition FieldByName (varName : string) : option (field * string) :=
  lookup cellFields varName.

Definition zeros (n : nat) : list F := repeat (fofZ 0) n.

(* ---------------------------------------------------------------- *)
(** ** Boundary synthesizer *)

(** [prepare] and [boundaryCopy]: the ghost cell that the five
    [add...Boundary] methods append to a boundary slice of the domain. *)
Definition prepare (c : Cell) : Cell :=
  let n := List.length polNames in
  withConc (withVolume c (Dx c * Dy c * Dz c)) (zeros n) (zeros n) (zeros n).

Definition boundaryCopy (c : Cell) : Cell :=
  prepare (withPhysics newCell
             (UAvg c) (VAvg c) (WAvg c) (UDeviation c) (VDeviation c)
             (Kzz c) (Kxxyy c) (M2u c) (M2d c) (Dx c) (Dy c) (Dz c)
             true (Layer c) (LayerHeight c)).

(* ---------------------------------------------------------------- *)
(** ** Topology builder *)

(** Calculate center-to-center cell distance, fractions of grid cell
    covered by each neighbor and harmonic mean staggered-grid
    diffusivities.  Each loop of the source fills three slices from one
    neighbor list; a neighbor pointer is followed in [d]. *)
Definition neighborInfo (d : InMAPdata) (c : Cell) : outcome Cell :=
  east <- derefAll d (East c);;
  west <- derefAll d (West c);;
  north <- derefAll d (North c);;
  south <- derefAll d (South c);;
  above <- derefAll d (Above c);;
  below <- derefAll d (Below c);;
  ground <- derefAll d (GroundLevel c);;
  let two := fofZ 2 in
  let one := fofZ 1 in
  Done (withTopology c
    (* KzzAbove, KzzBelow *)
    (map (fun a => harmonicMean (Kzz c) (Kzz a)) above)
    (map (fun b => harmonicMean (Kzz c) (Kzz b)) below)
    (* KyySouth, KyyNorth *)
    (map (fun s => harmonicMean (Kxxyy c) (Kxxyy s)) south)
    (map (fun n => harmonicMean (Kxxyy c) (Kxxyy n)) north)
    (* KxxWest, KxxEast *)
    (map (fun w => harmonicMean (Kxxyy c) (Kxxyy w)) west)
    (map (fun e => harmonicMean (Kxxyy c) (Kxxyy e)) east)
    (* WestFrac, EastFrac *)
    (map (fun w => min (Dy w / Dy c) one) west)
    (map (fun e => min (Dy e / Dy c) one) east)
    (* NorthFrac, SouthFrac *)
    (map (fun n => min (Dx n / Dx c) one) north)
    (map (fun s => min (Dx s / Dx c) one) south)
    (* AboveFrac, BelowFrac *)
    (map (fun a => min ((Dx a * Dy a) / (Dx c * Dy c)) one) above)
    (map (fun b => min ((Dx b * Dy b) / (Dx c * Dy c)) one) below)
    (* GroundLevelFrac *)
    (map (fun g => min ((Dx g * Dy g) / (Dx c * Dy c)) one) ground)
    (* DxPlusHalf, DxMinusHalf *)
    (map (fun e => (Dx c + Dx e) / two) east)
    (map (fun w => (Dx c + Dx w) / two) west)
    (* DyPlusHalf, DyMinusHalf *)
    (map (fun n => (Dy c + Dy n) / two) north)
    (map (fun s => (Dy c + Dy s) / two) south)
    (* DzPlusHalf, DzMinusHalf *)
    (map (fun a => (Dz c + Dz a) / two) above)
    (map (fun b => (Dz c + Dz b) / two) below)).

(** The seven slices of overlap fractions of a cell. *)
Definition fractions (c : Cell) : list F :=
  WestFrac c ++ EastFrac c ++ NorthFrac c ++ SouthFrac c ++
  AboveFrac c ++ BelowFrac c ++ GroundLevelFrac c.

(** The cells a cell points to, in the same order. *)
Definition neighbors (c : Cell) : list CellRef :=
  West c ++ East c ++ North c ++ South c ++
  Above c ++ Below c ++ GroundLevel c.

(* ---------------------------------------------------------------- *)
(** ** Timestep controller *)

Definition Cmax : F := fofZ 1.

(** [math.Pow(3., 0.5)]: [math.Pow] returns [Sqrt(x)] when [y == 0.5]. *)
Definition sqrt3 : F := fsqrt (fofZ 3).

(** The four bounds the loop body of [setTstepCFL] computes for a cell. *)
Definition dt1 (c : Cell) : F :=
  Cmax / sqrt3 /
    max ((fabs (UAvg c) + UDeviation c * fofZ 2) / Dx c)
        [ (fabs (VAvg c) + VDeviation c * fofZ 2) / Dy c;
          fabs (WAvg c) / Dz c ].

Definition dt2 (c : Cell) : F := Cmax * Dz c * Dz c / fofZ 2 / Kzz c.
Definition dt3 (c : Cell) : F := Cmax * Dx c * Dx c / fofZ 2 / Kxxyy c.
Definition dt4 (c : Cell) : F := Cmax * Dy c * Dy c / fofZ 2 / Kxxyy c.

(** The loop of [setTstepCFL] from cell number [i] on, [dt] being [d.Dt]. *)
Fixpoint tstepLoop (i : nat) (cells : list Cell) (dt : F) : F :=
  match cells with
  | [] => dt
  | c :: rest =>
      let dt' :=
        if Nat.eqb i 0 then amin (dt1 c) [dt2 c; dt3 c; dt4 c]
        else amin dt [dt1 c; dt2 c; dt3 c; dt4 c] in
      tstepLoop (S i) rest dt'
  end.

(** setTstepCFL sets the time step using the Courant-Friedrichs-Lewy (CFL)
    condition for advection or Von Neumann stability analysis for
    diffusion, whichever one yields a smaller time step. *)
Definition setTstepCFL (d : InMAPdata) : InMAPdata :=
  withDt d (tstepLoop 0 (Cells d) (Dt d)).

(* ---------------------------------------------------------------- *)
(** ** Output accessor *)

Definition emisLabels : list (string * nat) :=
  [ ("VOC Emissions", igOrg);
    ("NOx emissions", igNO);
    ("NH3 emissions", igNH);
    ("SOx emissions", igS);
    ("PM2.5 emissions", iPM2_5) ]%string.

Record polConv : Type := mkPolConv {
  index : list nat;        (* index in concentration array *)
  conversion : list F      (* conversion from N to NH4, S to SO4, etc... *)
}.

(** Labels and conversions for pollutants. *)
Definition polLabels : list (string * polConv) :=
  let one := fofZ 1 in
  [ ("TotalPM2_5", mkPolConv [iPM2_5; ipOrg; ipNH; ipS; ipNO]
                             [one; one; one; NtoNH4; StoSO4; NtoNO3]);
    ("VOC", mkPolConv [igOrg] [one]);
    ("SOA", mkPolConv [ipOrg] [one]);
    ("PrimaryPM2_5", mkPolConv [iPM2_5] [one]);
    ("NH3", mkPolConv [igNH] [invNH3ToN]);
    ("pNH4", mkPolConv [ipNH] [NtoNH4]);
    ("SOx", mkPolConv [igS] [invSOxToS]);
    ("pSO4", mkPolConv [ipS] [StoSO4]);
    ("NOx", mkPolConv [igNO] [invNOxToN]);
    ("pNO3", mkPolConv [ipNO] [NtoNO3]) ]%string.

Definition hasKey (keys : list string) (k : string) : bool :=
  existsb (String.eqb k) keys.

(** Reading a map of floats: a missing key reads as zero. *)
Definition mapGet (m : list (string * F)) (k : string) : F :=
  match lookup m k with
  | Some v => v
  | None => fofZ 0
  end.

(** [for i, ii := range polConv.index { o += c.Cf[ii] * polConv.conversion[i] }]
    from position [i] on. *)
Fixpoint sumConc (c : Cell) (conv : list F) (i : nat) (idx : list nat) (o : F)
  : outcome F :=
  match idx with
  | [] => Done o
  | ii :: rest =>
      cf <- elem (Cf c) ii;;
      k <- elem conv i;;
      sumConc c conv (S i) rest (o + cf * k)
  end.

Definition deathsSuffix : string := " deaths".

(** The body of [getValue], with [self] for the method's call of itself. *)
Definition getValueBody (self : Cell -> string -> outcome F)
    (c : Cell) (varName : string) : outcome F :=
  match lookup emisLabels varName with
  | Some index => elem (emisFlux c) index                   (* Emissions *)
  | None =>
  match lookup polLabels varName with
  | Some polConv =>                                          (* Concentrations *)
      sumConc c (conversion polConv) 0 (index polConv) (fofZ 0)
  | None =>
  if hasKey popNames varName then                            (* Population *)
    Done (mapGet (PopData c) varName / Dx c / Dy c)
  else if hasKey popNames (removeFirst deathsSuffix varName) then
    (* Mortalities *)
    let v := removeFirst deathsSuffix varName in
    pm <- self c "TotalPM2_5"%string;;
    let rr := RRpm25Linear pm in
    Done (Deaths rr (mapGet (PopData c) v) (MortalityRate c))
  else                                                       (* Everything else *)
    match FieldByName varName with
    | None => Panic (ReflectZeroValue varName)
    | Some (FFloat get, _) => Done (get c)
    | Some (FOther _, _) => Panic (ReflectNotFloat varName)
    end
  end end.

(** Get the value in the current cell of the specified variable.  The
    method calls itself once, on a name the second case resolves, so two
    unfoldings of the body are the whole recursion (see [getValue_eqn]). *)
Definition getValue (c : Cell) (varName : string) : outcome F :=
  getValueBody (getValueBody (fun _ v => Panic (UnknownVariable v))) c varName.

(** Get the units of a variable. *)
Definition getUnits (d : InMAPdata) (varName : string) : outcome string :=
  if hasKey (map fst emisLabels) varName then Done "μg/m³/s"%string
  else if hasKey (map fst polLabels) varName then Done "μg/m³"%string
  else if hasKey popNames varName then Done "people/m²"%string
  else if hasKey popNames (removeFirst deathsSuffix varName)
  then Done "deaths/grid cell"%string
  else
    _ <- elem (Cells d) 0;;
    match FieldByName varName with
    | Some (_, units) => Done units
    | None => Panic (UnknownVariable varName)
    end.

Definition RLock (c : Cell) : Cell :=
  withLock c (mkRW (S (readers (RWMutex c))) (writer (RWMutex c))).

Definition RUnlock (c : Cell) : Cell :=
  withLock c (mkRW (pred (readers (RWMutex c))) (writer (RWMutex c))).

(** The loop of [toArray] over the cells still to visit.  The cells are
    returned with the lock state the loop leaves them in; a cell whose
    write lock is held would block the reader and is not modelled (every
    worker is idle when [Run] extracts its output). *)
Fixpoint toArrayLoop (cells : list Cell) (pol : string) (layer : Z)
    (o : list F) : outcome (list F * list Cell) :=
  match cells with
  | [] => Done (o, [])
  | c :: rest =>
      let c := RLock c in
      if (Layer c >? layer)%Z then
        (* The cells should be sorted with the lower layers first, so we
           should be done here. *)
        Done (o, c :: rest)
      else
        o <- (if (Layer c =? layer)%Z
              then v <- getValue c pol;; Done (o ++ [v])
              else Done o);;
        let c := RUnlock c in
        r <- toArrayLoop rest pol layer o;;
        Done (fst r, c :: snd r)
  end.

(** Convert cell data into a regular array. *)
Definition toArray (d : InMAPdata) (pol : string) (layer : Z)
  : outcome (list F * InMAPdata) :=
  r <- toArrayLoop (Cells d) pol layer [];;
  Done (fst r, withCells d (snd r)).

Fixpoint GetGeometryLoop (cells : list Cell) (layer : Z) (o : list Polygonal)
  : list Polygonal * list Cell :=
  match cells with
  | [] => (o, [])
  | c :: rest =>
      let c := RLock c in
      if (Layer c >? layer)%Z then (o, c :: rest)
      else
        let o := if (Layer c =? layer)%Z then o ++ [WebMapGeom c] else o in
        let c := RUnlock c in
        let r := GetGeometryLoop rest layer o in
        (fst r, c :: snd r)
  end.

(** GetGeometry returns the cell geometry for the given layer. *)
Definition GetGeometry (d : InMAPdata) (layer : Z)
  : list Polygonal * InMAPdata :=
  let r := GetGeometryLoop (Cells d) layer [] in
  (fst r, withCells d (snd r)).

(** The read locks held on the cells of a domain. *)
Definition heldReadLocks (d : InMAPdata) : list nat :=
  map (fun c => readers (RWMutex c)) (Cells d).

(* ---------------------------------------------------------------- *)
(** ** [Run]: emissions *)

(** The switch over the emissions pollutant: the molecular-mass scale and
    the target species, or nothing for the [default] case. *)
Definition emissionsCase (pol : string) : option (F * nat) :=
  if String.eqb pol "VOC" then Some (fofZ 1, igOrg)
  else if String.eqb pol "NOx" then Some (NOxToN, igNO)
  else if String.eqb pol "NH3" then Some (NH3ToN, igNH)
  else if String.eqb pol "SOx" then Some (SOxToS, igS)
  else if String.eqb pol "PM2_5" then Some (fofZ 1, iPM2_5)
  else None.

(** Calculate emissions flux given emissions array in units of ug/s and a
    scale for molecular mass conversion; the loop from [row] on. *)
Fixpoint addEmisFluxLoop (cells : list Cell) (row : nat) (arr : list F)
    (scale : F) (iPol : nat) : outcome (list Cell) :=
  match arr with
  | [] => Done cells
  | val :: arr' =>
      c <- elem cells row;;
      let fluxScale := fofZ 1 / Dx c / Dy c / Dz c in
      flux <- setElem (emisFlux c) iPol (val * scale * fluxScale);;
      cells' <- setElem cells row (withConc c (Ci c) (Cf c) flux);;
      addEmisFluxLoop cells' (S row) arr' scale iPol
  end.

Definition addEmisFlux (d : InMAPdata) (arr : list F) (scale : F)
    (iPol : nat) : outcome InMAPdata :=
  cells <- addEmisFluxLoop (Cells d) 0 arr scale iPol;;
  Done (withCells d cells).

(** The first loop of [Run]: fresh concentration vectors for every cell. *)
Definition resetConc (d : InMAPdata) : InMAPdata :=
  let n := List.length polNames in
  withCells d (map (fun c => withConc c (zeros n) (zeros n) (zeros n))
                   (Cells d)).

(** The second loop of [Run], over the emissions map in the order the
    runtime happens to iterate it: all except PM2.5 go to gas phase. *)
Fixpoint emissionsLoop (d : InMAPdata) (emissions : list (string * list F))
  : outcome InMAPdata :=
  match emissions with
  | [] => Done d
  | (pol, arr) :: rest =>
      match emissionsCase pol with
      | Some (scale, iPol) =>
          d' <- addEmisFlux d arr scale iPol;;
          emissionsLoop d' rest
      | None => Panic (UnknownEmissionsPollutant pol)
      end
  end.

(** [Run] up to the start of the main calculation loop. *)
Definition RunEmissions (d : InMAPdata) (emissions : list (string * list F))
  : outcome InMAPdata :=
  emissionsLoop (resetConc d) emissions.

(* ---------------------------------------------------------------- *)
(** ** [Run]: output *)

(** The names [Run] extracts; the order of the first ten is the order the
    runtime iterates [polLabels] in. *)
Definition outputVariables : list string :=
  map fst polLabels
  ++ flat_map (fun pop => [pop; (pop ++ deathsSuffix)%string]) popNames
  ++ ["MortalityRate"%string].

(** [for k := 0; k < outputLay; k++ { outputConc[name][k] = d.toArray(name, k) }]
    from layer [k] on, with [n] layers to go. *)
Fixpoint layersLoop (d : InMAPdata) (name : string) (rows : list (list F))
    (k n : nat) : outcome (list (list F) * InMAPdata) :=
  match n with
  | O => Done (rows, d)
  | S n' =>
      r <- toArray d name (Z.of_nat k);;
      rows' <- setElem rows k (fst r);;
      layersLoop (snd r) name rows' (S k) n'
  end.

Fixpoint outputLoop (d : InMAPdata) (names : list string) (outputLay : nat)
  : outcome (list (string * list (list F)) * InMAPdata) :=
  match names with
  | [] => Done ([], d)
  | name :: rest =>
      (* outputConc[name] = make([][]float64, d.Nlayers) *)
      r <- layersLoop d name (repeat [] (Nlayers d)) 0 outputLay;;
      rs <- outputLoop (snd r) rest outputLay;;
      Done ((name, fst r) :: fst rs, snd rs)
  end.

(** [Run] after the main calculation loop: prepare output data. *)
Definition RunOutput (d : InMAPdata) (outputAllLayers : bool)
  : outcome (list (string * list (list F)) * InMAPdata) :=
  let outputLay := if outputAllLayers then Nlayers d else 1%nat in
  outputLoop d outputVariables outputLay.

End Model.

Arguments Cell F : clear implicits.
Arguments InMAPdata F : clear implicits.
Arguments polConv F : clear implicits.
Arguments field F : clear implicits.

(* ================================================================== *)
(** ** Science scheduler: the goroutines of [Run] and [doScience]

    The controlling goroutine and the [nprocs] workers of [Run] as one
    transition system.  A state holds the place of each goroutine in its
    code, the contents of every [funcChan[p]] (capacity 1), the counter of
    the [sync.WaitGroup] and, as a ghost, the log of the operator
    applications made so far.  An [action] says which goroutine takes its
    next step; [exec] is that step, or [None] when the goroutine is
    blocked there.  Every interleaving the Go scheduler may choose is a
    list of actions.  No goroutine outside the pool holds a lock of a cell
    while the loop runs, so a worker's [c.Lock()] never blocks and the
    visit of a cell (lock, operator, unlock) is one step. *)
Module Scheduler.

Record config : Type := mkConfig {
  nprocs : nat;               (* runtime.GOMAXPROCS(0) *)
  ncells : nat;               (* len(d.Data) *)
  nfuncs : nat;               (* len(scienceFuncs), 2 in Run *)
  numIterations : Z;          (* d.NumIterations *)
  inColumn : nat -> bool      (* d.Data[ii].Layer <= topLayerToCalc *)
}.

(** A function value travelling through a channel, labelled with the pass
    of the main loop that sent it and its position in [scienceFuncs]. *)
Record task : Type := mkTask {
  pass : nat;
  op : nat
}.

(** Where the controlling goroutine stands in the [for] loop of [Run]. *)
Inductive mainPc : Type :=
| LoopTop                        (* about to wg.Add *)
| Sending (k pp : nat)           (* about to funcChan[pp] <- scienceFuncs[k] *)
| AfterSend                      (* about to iteration++ and test the mode *)
| WaitBreak                      (* in wg.Wait() before break *)
| WaitCheck                      (* in wg.Wait() before the convergence check *)
| Finished.                      (* left the loop *)

(** Where a worker stands in [doScience]. *)
Inductive worker : Type :=
| Idle                           (* at [for f := range funcChan] *)
| Running (t : task) (ii : nat). (* in the inner loop, about to visit cell ii *)

(** Worker [proc] applied operator [op] of pass [pass] to cell [cell]. *)
Record event : Type := mkEvent {
  proc : nat;
  what : task;
  cell : nat
}.

Record state : Type := mkState {
  pc : mainPc;
  iteration : nat;
  funcChan : nat -> list task;
  workers : nat -> worker;
  wg : Z;
  log : list event              (* newest first *)
}.

Inductive action : Type :=
| Main (due timeToQuit : bool)
    (* the controlling goroutine steps; the booleans are the outcomes of
       [timeSinceLastCheck >= checkPeriod] and of the convergence check,
       read only by the steps that make those tests *)
| Recv (p : nat)                 (* worker p receives from its channel *)
| Visit (p : nat)                (* worker p locks, treats and unlocks a cell *)
| Finish (p : nat).              (* worker p leaves the inner loop: wg.Done() *)

Definition upd {A} (f : nat -> A) (p : nat) (a : A) : nat -> A :=
  fun q => if Nat.eqb q p then a else f q.

Definition init : state :=
  mkState LoopTop 0 (fun _ => []) (fun _ => Idle) 0 [].

(** The place after [wg.Add]: the first send, if the two nested loops have
    one to make. *)
Definition firstSend (cfg : config) : mainPc :=
  if Nat.ltb 0 (nfuncs cfg) && Nat.ltb 0 (nprocs cfg) then Sending 0 0
  else AfterSend.

(** The place after a send to [funcChan[pp]] of [scienceFuncs[k]]. *)
Definition afterSend (cfg : config) (k pp : nat) : mainPc :=
  if Nat.ltb (S pp) (nprocs cfg) then Sending k (S pp)
  else if Nat.ltb (S k) (nfuncs cfg) then Sending (S k) 0
  else AfterSend.

Definition execMain (cfg : config) (due timeToQuit : bool) (s : state)
  : option state :=
  match pc s with
  | LoopTop =>
      Some (mkState (firstSend cfg) (iteration s) (funcChan s) (workers s)
              (wg s + Z.of_nat (nfuncs cfg * nprocs cfg)) (log s))
  | Sending k pp =>
      match funcChan s pp with
      | [] =>
          Some (mkState (afterSend cfg k pp) (iteration s)
                  (upd (funcChan s) pp [mkTask (iteration s) k])
                  (workers s) (wg s) (log s))
      | _ :: _ => None           (* the channel is full: the send blocks *)
      end
  | AfterSend =>
      let iteration' := S (iteration s) in
      let next :=
        if (numIterations cfg >? 0)%Z then
          if (Z.of_nat iteration' >=? numIterations cfg)%Z then WaitBreak
          else LoopTop
        else if due then WaitCheck
        else LoopTop in
      Some (mkState next iteration' (funcChan s) (workers s) (wg s) (log s))
  | WaitBreak =>
      if (wg s =? 0)%Z then
        Some (mkState Finished (iteration s) (funcChan s) (workers s)
                (wg s) (log s))
      else None
  | WaitCheck =>
      if (wg s =? 0)%Z then
        Some (mkState (if timeToQuit then Finished else LoopTop)
                (iteration s) (funcChan s) (workers s) (wg s) (log s))
      else None
  | Finished => None
  end.

Definition exec (cfg : config) (s : state) (a : action) : option state :=
  match a with
  | Main due timeToQuit => execMain cfg due timeToQuit s
  | Recv p =>
      if Nat.ltb p (nprocs cfg) then
        match workers s p, funcChan s p with
        | Idle, t :: rest =>
            Some (mkState (pc s) (iteration s) (upd (funcChan s) p rest)
                    (upd (workers s) p (Running t p)) (wg s) (log s))
        | _, _ => None
        end
      else None
  | Visit p =>
      if Nat.ltb p (nprocs cfg) then
        match workers s p with
        | Running t ii =>
            if Nat.ltb ii (ncells cfg) then
              Some (mkState (pc s) (iteration s) (funcChan s)
                      (upd (workers s) p (Running t (ii + nprocs cfg)))
                      (wg s)
                      (if inColumn cfg ii then mkEvent p t ii :: log s
                       else log s))
            else None
        | Idle => None
        end
      else None
  | Finish p =>
      if Nat.ltb p (nprocs cfg) then
        match workers s p with
        | Running t ii =>
            if Nat.ltb ii (ncells cfg) then None
            else
              Some (mkState (pc s) (iteration s) (funcChan s)
                      (upd (workers s) p Idle) (wg s - 1) (log s))
        | Idle => None
        end
      else None
  end.

Fixpoint run (cfg : config) (s : state) (acts : list action) : option state :=
  match acts with
  | [] => Some s
  | a :: rest =>
      match exec cfg s a with
      | Some s' => run cfg s' rest
      | None => None
      end
  end.

(** The states some interleaving reaches. *)
Definition reachable (cfg : config) (s : state) : Prop :=
  exists acts, run cfg init acts = Some s.

(** Operator [k] of a pass comes before operator [k'] of a pass. *)
Definition taskLt (t t' : task) : Prop :=
  pass t < pass t' \/ (pass t = pass t' /\ op t < op t').

(** The barrier discipline: within a pass, whenever operator [k+1] has been
    applied to some cell, operator [k] has been applied to every cell of
    the column range already. *)
Definition phaseOrdered (cfg : config) (l : list event) : Prop :=
  forall e older,
    (exists newer, l = newer ++ e :: older) ->
    forall k c,
      S k = op (what e) ->
      c < ncells cfg -> inColumn cfg c = true ->
      exists p, In (mkEvent p (mkTask (pass (what e)) k) c) older.

(** Cell [c] is one of worker [p]'s: [p], [p + nprocs], [p + 2 nprocs], ...
    below [ncells], and in the column range. *)
Definition assigned (cfg : config) (p c : nat) : Prop :=
  c < ncells cfg /\ inColumn cfg c = true /\ exists j, c = p + j * nprocs cfg.

(** The discipline one worker keeps: whenever it has applied operator
    [k+1] of a pass to some cell, it has applied operator [k] of that pass
    to every cell assigned to it already. *)
Definition workerPhaseOrdered (cfg : config) (l : list event) : Prop :=
  forall newer e older,
    l = newer ++ e :: older ->
    forall k c,
      S k = op (what e) -> assigned cfg (proc e) c ->
      In (mkEvent (proc e) (mkTask (pass (what e)) k) c) older.

(** The task after [t] in the order the controlling goroutine sends them. *)
Definition next (cfg : config) (t : task) : task :=
  if Nat.ltb (S (op t)) (nfuncs cfg) then mkTask (pass t) (S (op t))
  else mkTask (S (pass t)) 0.

(** The task the controlling goroutine sends to worker [p] next. *)
Definition bound (cfg : config) (s : state) (p : nat) : task :=
  match pc s with
  | Sending k pp =>
      if Nat.ltb p pp then next cfg (mkTask (iteration s) k)
      else mkTask (iteration s) k
  | AfterSend => mkTask (S (iteration s)) 0
  | _ => mkTask (iteration s) 0
  end.

(** The tasks worker [p] holds, oldest first: the one it is running and
    the ones waiting in its channel. *)
Definition pending (s : state) (p : nat) : list task :=
  match workers s p with
  | Running t _ => [t]
  | Idle => []
  end ++ funcChan s p.

(** Consecutive tasks, the last of them right before [b]. *)
Fixpoint consecutive (cfg : config) (ts : list task) (b : task) : Prop :=
  match ts with
  | [] => True
  | t :: rest =>
      op t < nfuncs cfg /\ next cfg t = hd b rest /\ consecutive cfg rest b
  end.

(** The first task worker [p] has not finished. *)
Definition frontier (cfg : config) (s : state) (p : nat) : task :=
  hd (bound cfg s p) (pending s p).

(** The configurations of [Run]: at least one processor, at least one
    science function. *)
Definition wellFormed (cfg : config) : Prop :=
  0 < nprocs cfg /\ 0 < nfuncs cfg.

(** What every reachable state satisfies. *)
Record inv (cfg : config) (s : state) : Prop := mkInv {
  inv_pc : forall k pp,
    pc s = Sending k pp -> k < nfuncs cfg /\ pp < nprocs cfg;
  inv_chain : forall p,
    p < nprocs cfg -> consecutive cfg (pending s p) (bound cfg s p);
  inv_done : forall p t c,
    p < nprocs cfg -> op t < nfuncs cfg -> taskLt t (frontier cfg s p) ->
    assigned cfg p c -> In (mkEvent p t c) (log s);
  inv_running : forall p t ii,
    p < nprocs cfg -> workers s p = Running t ii ->
    (exists j, ii = p + j * nprocs cfg) /\
    (forall c, assigned cfg p c -> c < ii -> In (mkEvent p t c) (log s));
  inv_order : workerPhaseOrdered cfg (log s)
}.

(** The run of [Run] with two workers and two cells, one pass, in which
    worker 0 is served both operators before worker 1 starts. *)
Definition twoByTwo : config := mkConfig 2 2 2 1 (fun _ => true).

Definition eagerWorker0 : list action :=
  [ Main false false;    (* wg.Add(4) *)
    Main false false;    (* funcChan[0] <- scienceFuncs[0] *)
    Main false false;    (* funcChan[1] <- scienceFuncs[0] *)
    Recv 0; Visit 0; Finish 0;
    Main false false;    (* funcChan[0] <- scienceFuncs[1] *)
    Recv 0; Visit 0; Finish 0;
    Recv 1; Visit 1; Finish 1;
    Main false false;    (* funcChan[1] <- scienceFuncs[1] *)
    Recv 1; Visit 1; Finish 1;
    Main false false;    (* iteration++; iteration >= NumIterations *)
    Main false false ].  (* wg.Wait() returns; break *)

(** The state that run ends in. *)
Definition eagerFinal : state :=
  Eval vm_compute in
    match run twoByTwo init eagerWorker0 with
    | Some s => s
    | None => init
    end.

End Scheduler.

(* ================================================================== *)
(** ** Specification predicates and sample inputs *)

(** A cell as the grid builder would leave it: the given winds,
    deviations, diffusivities, extents and layer, nine-element
    concentration vectors, no neighbors. *)
Definition sampleCell {F : Type} `{Float64 F}
    (u v w udev vdev kzz kxxyy dx dy dz : F) (layer : Z) : Cell F :=
  prepare (withPhysics newCell u v w udev vdev kzz kxxyy (fofZ 0) (fofZ 0)
             dx dy dz false layer (fofZ 0)).

(** A domain of the given cells and nothing else. *)
Definition sampleDomain {F : Type} `{Float64 F} (cells : list (Cell F))
  : InMAPdata F :=
  mkData cells (fofZ 0) 1 0 [] [] [] [] [].

(* ---------------------------------------------------------------- *)
(** *** binary64 *)

(** A primitive float seen as a sign, a mantissa and an exponent. *)
Definition SF (x : float) : spec_float := Prim2SF x.

(** Two binary64 values that are the same number: identical, or both a
    zero (Go's [==] does not tell [-0] from [+0]). *)
Definition sameValue (x y : float) : Prop :=
  x = y \/ (is_zero x = true /\ is_zero y = true).

(** 0.1 as the program holds it, and two powers of two. *)
Definition tenth : float := ratio 1 10.
Definition twoTo1023 : float := 0x1p+1023%float.
Definition twoToMinus10 : float := 0x1p-10%float.

(* ---------------------------------------------------------------- *)
(** *** Topology builder *)

Definition positiveExtents (c : Cell R) : Prop :=
  (0 < Dx c /\ 0 < Dy c /\ 0 < Dz c)%R.

(** The quotient of facing extents that [neighborInfo] takes for neighbor
    [n] of cell [c]: along y for east and west, along x for north and
    south, of the footprints for above, below and ground level. *)
Definition isQuotientOf {F : Type} `{Float64 F} (c n : Cell F) (q : F) : Prop :=
  q = fdiv (Dy n) (Dy c) \/
  q = fdiv (Dx n) (Dx c) \/
  q = fdiv (fmul (Dx n) (Dy n)) (fmul (Dx c) (Dy c)).

(** Two cells of strictly positive extents: one [2^600] wide along y with
    the other, [2^-600] wide, as its eastern neighbor. *)
Definition wideCell : Cell float :=
  let c := (sampleCell 0 0 0 0 0 1 1 1 0x1p+600 1 0)%float in
  withNeighbors c [] [Active 1] [] [] [] [] [].

Definition thinCell : Cell float :=
  (sampleCell 0 0 0 0 0 1 1 1 0x1p-600 1 0)%float.

Definition wideThin : InMAPdata float := sampleDomain [wideCell; thinCell].

(** The same arrangement with extents 4 and 2, over the reals. *)
Definition fourCell : Cell R :=
  let c := (sampleCell 0 0 0 0 0 1 1 1 4 1 0)%R in
  withNeighbors c [] [Active 1] [] [] [] [] [].

Definition twoCell : Cell R := (sampleCell 0 0 0 0 0 1 1 1 2 1 0)%R.

Definition fourTwo : InMAPdata R := sampleDomain [fourCell; twoCell].

(* ---------------------------------------------------------------- *)
(** *** Timestep controller *)

(** The four stability bounds of a cell, and of every cell in turn. *)
Definition bounds {F : Type} `{Float64 F} (c : Cell F) : list F :=
  [dt1 c; dt2 c; dt3 c; dt4 c].

Definition allBounds {F : Type} `{Float64 F} (cells : list (Cell F)) : list F :=
  flat_map bounds cells.

(** [amin] of a list, or [dflt] when there is nothing to take it of. *)
Definition aminOf {F : Type} `{Float64 F} (dflt : F) (l : list F) : F :=
  match l with
  | [] => dflt
  | b :: bs => amin b bs
  end.

(** The normalized speeds as [setTstepCFL] takes them: the mean wind by
    absolute value; a turbulent deviation along x and y only. *)
Definition normalizedSpeedX {F : Type} `{Float64 F} (c : Cell F) : F :=
  ((fabs (UAvg c) + UDeviation c * fofZ 2) / Dx c)%go.

Definition normalizedSpeedY {F : Type} `{Float64 F} (c : Cell F) : F :=
  ((fabs (VAvg c) + VDeviation c * fofZ 2) / Dy c)%go.

Definition normalizedSpeedZ {F : Type} `{Float64 F} (c : Cell F) : F :=
  (fabs (WAvg c) / Dz c)%go.

(** The advective bound in the spec's words: Courant / sqrt(3) / max of
    the three normalized speeds, each (mean wind + 2 x turbulent
    deviation) / cell extent.  [Cell] has no vertical deviation; it is the
    argument [wdev]. *)
Definition specNormalizedSpeed {F : Type} `{Float64 F}
    (wind deviation extent : F) : F :=
  ((wind + fofZ 2 * deviation) / extent)%go.

Definition specAdvectiveBound {F : Type} `{Float64 F} (wdev : F) (c : Cell F)
  : F :=
  (fofZ 1 / fsqrt (fofZ 3) /
   max (specNormalizedSpeed (UAvg c) (UDeviation c) (Dx c))
       [ specNormalizedSpeed (VAvg c) (VDeviation c) (Dy c);
         specNormalizedSpeed (WAvg c) wdev (Dz c) ])%go.

(** A westward wind of 10 m/s in a cell of unit extents. *)
Definition westwardCell : Cell float :=
  (sampleCell (-10) 0 1 0 0 1 1 1 1 1 0)%float.

(** A calm cell of unit extents with an updraft of 1 m/s. *)
Definition risingCell : Cell float :=
  (sampleCell 0 0 1 0 0 1 1 1 1 1 0)%float.

(** A cell of unit extents and unit winds whose vertical diffusivity is
    negative, and one whose vertical diffusivity is zero. *)
Definition negativeKzzCell : Cell float :=
  (sampleCell 1 1 1 0 0 (-1) 1 1 1 1 0)%float.

Definition zeroKzzCell : Cell float :=
  (sampleCell 1 1 1 0 0 0 1 1 1 1 0)%float.

(** The same cell with the other zero, [-0.0], as vertical diffusivity. *)
Definition negZeroKzzCell : Cell float :=
  (sampleCell 1 1 1 0 0 neg_zero 1 1 1 1 0)%float.

(** [c] with each of its three extents multiplied by [k]. *)
Definition scaleExtents {F : Type} `{Float64 F} (k : F) (c : Cell F) : Cell F :=
  withPhysics c (UAvg c) (VAvg c) (WAvg c) (UDeviation c) (VDeviation c)
    (Kzz c) (Kxxyy c) (M2u c) (M2d c)
    (k * Dx c)%go (k * Dy c)%go (k * Dz c)%go
    (Boundary c) (Layer c) (LayerHeight c).





(** A cell 100 m by 200 m by 50 m with winds of 3, 2 and 1 m/s. *)
Definition breezyCell : Cell R := (sampleCell 3 2 1 1 1 5 7 100 200 50 0)%R.

(** The same cell in the arithmetic of the program. *)
Definition breezyCell64 : Cell float :=
  (sampleCell 3 2 1 1 1 5 7 100 200 50 0)%float.

(* ---------------------------------------------------------------- *)
(** *** Output accessor *)

(** [c.Cf[i]], for an index in range. *)
Definition CfAt {F : Type} `{Float64 F} (c : Cell F) (i : nat) : F :=
  nth i (Cf c) (fofZ 0).

(** A cell whose concentrations are 1, 2, ..., 9. *)
Definition loadedCell : Cell float :=
  withConc zeroKzzCell (zeros 9) [1; 2; 3; 4; 5; 6; 7; 8; 9]%float (zeros 9).

(** A cell whose emissions vector has its nine entries. *)
Definition fluxReady {F : Type} (c : Cell F) : Prop :=
  List.length (emisFlux c) = 9.

(** A name reaches the last case of [getValue] and [getUnits] when none of
    the four tables claims it. *)
Definition reachesFallback (popNames : list string) (varName : string) : bool :=
  negb (hasKey (map fst emisLabels) varName)
  && negb (hasKey (map fst (polLabels (F:=float))) varName)
  && negb (hasKey popNames varName)
  && negb (hasKey popNames (removeFirst deathsSuffix varName)).

(** The name of a field of [Cell] whose kind is [float64]. *)
Definition isFloatField (varName : string) : bool :=
  match FieldByName (F:=float) varName with
  | Some (FFloat _, _) => true
  | _ => false
  end.

(** The name of a field of [Cell], of any kind. *)
Definition isField (varName : string) : bool :=
  match FieldByName (F:=float) varName with
  | Some _ => true
  | None => false
  end.

(** The read-lock counts of a list of cells. *)
Definition readLocks {F : Type} (cells : list (Cell F)) : list nat :=
  map (fun c => readers (RWMutex c)) cells.

(** The lock counts [toArrayLoop] leaves: a cell at or below the layer is
    locked and unlocked; the first cell above it is locked and the loop
    returns. *)
Fixpoint locksAfter {F : Type} (layer : Z) (cells : list (Cell F))
  : list nat :=
  match cells with
  | [] => []
  | c :: rest =>
      if (Layer c >? layer)%Z
      then S (readers (RWMutex c)) :: readLocks rest
      else readers (RWMutex c) :: locksAfter layer rest
  end.

(** A cell in the ground layer and a cell in the layer above it. *)
Definition groundCell : Cell float := (sampleCell 1 1 1 0 0 1 1 1 1 1 0)%float.
Definition upperCell : Cell float := (sampleCell 1 1 1 0 0 1 1 1 1 1 1)%float.
Definition twoLayers : InMAPdata float := sampleDomain [groundCell; upperCell].

(* ================================================================== *)
(** ** The rest of the two files *)

Section Domain.
Context {F : Type} `{Float64 F}.

(* ---------------------------------------------------------------- *)
(** *** Boundary synthesizer: the five [add...Boundary] methods *)

(** [*r = c]: a store through a pointer; one that names no cell is a nil
    dereference. *)
Definition assign (d : InMAPdata F) (r : CellRef) (c : Cell F)
  : outcome (InMAPdata F) :=
  let put l i := match setElem l i c with
                 | Done l' => Done l'
                 | Panic _ => Panic NilDereference
                 end in
  match r with
  | Active i =>
      l <- put (Cells d) i;;
      Done (mkData l (Dt d) (Nlayers d) (NumIterations d) (westBoundary d)
              (eastBoundary d) (northBoundary d) (southBoundary d)
              (topBoundary d))
  | WestB i =>
      l <- put (westBoundary d) i;;
      Done (mkData (Cells d) (Dt d) (Nlayers d) (NumIterations d) l
              (eastBoundary d) (northBoundary d) (southBoundary d)
              (topBoundary d))
  | EastB i =>
      l <- put (eastBoundary d) i;;
      Done (mkData (Cells d) (Dt d) (Nlayers d) (NumIterations d)
              (westBoundary d) l (northBoundary d) (southBoundary d)
              (topBoundary d))
  | NorthB i =>
      l <- put (northBoundary d) i;;
      Done (mkData (Cells d) (Dt d) (Nlayers d) (NumIterations d)
              (westBoundary d) (eastBoundary d) l (southBoundary d)
              (topBoundary d))
  | SouthB i =>
      l <- put (southBoundary d) i;;
      Done (mkData (Cells d) (Dt d) (Nlayers d) (NumIterations d)
              (westBoundary d) (eastBoundary d) (northBoundary d) l
              (topBoundary d))
  | TopB i =>
      l <- put (topBoundary d) i;;
      Done (mkData (Cells d) (Dt d) (Nlayers d) (NumIterations d)
              (westBoundary d) (eastBoundary d) (northBoundary d)
              (southBoundary d) l)
  end.

(** addWestBoundary adds a cell to the western boundary of the domain.
    The copy is appended to [d.westBoundary]; the pointer to it that
    [cell.West] receives names that position. *)
Definition addWestBoundary (d : InMAPdata F) (cell : CellRef)
  : outcome (InMAPdata F) :=
  c0 <- deref d cell;;
  let c := boundaryCopy c0 in
  d1 <- assign d cell
          (withNeighbors c0 [WestB (List.length (westBoundary d))] (East c0)
             (South c0) (North c0) (Below c0) (Above c0) (GroundLevel c0));;
  Done (mkData (Cells d1) (Dt d1) (Nlayers d1) (NumIterations d1)
          (westBoundary d1 ++ [c]) (eastBoundary d1) (northBoundary d1)
          (southBoundary d1) (topBoundary d1)).

(** addEastBoundary adds a cell to the eastern boundary of the domain. *)
Definition addEastBoundary (d : InMAPdata F) (cell : CellRef)
  : outcome (InMAPdata F) :=
  c0 <- deref d cell;;
  let c := boundaryCopy c0 in
  d1 <- assign d cell
          (withNeighbors c0 (West c0) [EastB (List.length (eastBoundary d))]
             (South c0) (North c0) (Below c0) (Above c0) (GroundLevel c0));;
  Done (mkData (Cells d1) (Dt d1) (Nlayers d1) (NumIterations d1)
          (westBoundary d1) (eastBoundary d1 ++ [c]) (northBoundary d1)
          (southBoundary d1) (topBoundary d1)).

(** addSouthBoundary adds a cell to the southern boundary of the domain. *)
Definition addSouthBoundary (d : InMAPdata F) (cell : CellRef)
  : outcome (InMAPdata F) :=
  c0 <- deref d cell;;
  let c := boundaryCopy c0 in
  d1 <- assign d cell
          (withNeighbors c0 (West c0) (East c0)
             [SouthB (List.length (southBoundary d))] (North c0) (Below c0)
             (Above c0) (GroundLevel c0));;
  Done (mkData (Cells d1) (Dt d1) (Nlayers d1) (NumIterations d1)
          (westBoundary d1) (eastBoundary d1) (northBoundary d1)
          (southBoundary d1 ++ [c]) (topBoundary d1)).

(** addNorthBoundary adds a cell to the northern boundary of the domain. *)
Definition addNorthBoundary (d : InMAPdata F) (cell : CellRef)
  : outcome (InMAPdata F) :=
  c0 <- deref d cell;;
  let c := boundaryCopy c0 in
  d1 <- assign d cell
          (withNeighbors c0 (West c0) (East c0) (South c0)
             [NorthB (List.length (northBoundary d))] (Below c0) (Above c0)
             (GroundLevel c0));;
  Done (mkData (Cells d1) (Dt d1) (Nlayers d1) (NumIterations d1)
          (westBoundary d1) (eastBoundary d1) (northBoundary d1 ++ [c])
          (southBoundary d1) (topBoundary d1)).

(** addTopBoundary adds a cell to the top boundary of the domain. *)
Definition addTopBoundary (d : InMAPdata F) (cell : CellRef)
  : outcome (InMAPdata F) :=
  c0 <- deref d cell;;
  let c := boundaryCopy c0 in
  d1 <- assign d cell
          (withNeighbors c0 (West c0) (East c0) (South c0) (North c0)
             (Below c0) [TopB (List.length (topBoundary d))]
             (GroundLevel c0));;
  Done (mkData (Cells d1) (Dt d1) (Nlayers d1) (NumIterations d1)
          (westBoundary d1) (eastBoundary d1) (northBoundary d1)
          (southBoundary d1) (topBoundary d1 ++ [c])).

(** The five sides, for statements that hold of each. *)
Inductive side : Type := WestSide | EastSide | SouthSide | NorthSide | TopSide.

Definition addBoundary (s : side)
  : InMAPdata F -> CellRef -> outcome (InMAPdata F) :=
  match s with
  | WestSide => addWestBoundary
  | EastSide => addEastBoundary
  | SouthSide => addSouthBoundary
  | NorthSide => addNorthBoundary
  | TopSide => addTopBoundary
  end.

(** The boundary slice of a side, the pointer to its [i]-th cell, and the
    neighbor list of a cell that faces the side. *)
Definition boundaryOf (s : side) (d : InMAPdata F) : list (Cell F) :=
  match s with
  | WestSide => westBoundary d
  | EastSide => eastBoundary d
  | SouthSide => southBoundary d
  | NorthSide => northBoundary d
  | TopSide => topBoundary d
  end.

Definition boundaryRef (s : side) (i : nat) : CellRef :=
  match s with
  | WestSide => WestB i
  | EastSide => EastB i
  | SouthSide => SouthB i
  | NorthSide => NorthB i
  | TopSide => TopB i
  end.

Definition facing (s : side) (c : Cell F) : list CellRef :=
  match s with
  | WestSide => West c
  | EastSide => East c
  | SouthSide => South c
  | NorthSide => North c
  | TopSide => Above c
  end.

(** The slice a pointer points into. *)
Definition sliceOf (r : CellRef) (d : InMAPdata F) : list (Cell F) :=
  match r with
  | Active _ => Cells d
  | WestB _ => westBoundary d
  | EastB _ => eastBoundary d
  | NorthB _ => northBoundary d
  | SouthB _ => southBoundary d
  | TopB _ => topBoundary d
  end.

Definition position (r : CellRef) : nat :=
  match r with
  | Active i | WestB i | EastB i | NorthB i | SouthB i | TopB i => i
  end.

(** A pointer that names a cell of the domain. *)
Definition valid (d : InMAPdata F) (r : CellRef) : Prop :=
  position r < List.length (sliceOf r d).

(* ---------------------------------------------------------------- *)
(** *** Emissions operator *)

(** [for i := range polNames { c.Cf[i] += c.emisFlux[i] * d.Dt; c.Ci[i] = c.Cf[i] }]
    from species [i] on, with [n] species to go. *)
Fixpoint addEmissionsFluxLoop (c : Cell F) (dt : F) (i n : nat)
  : outcome (Cell F) :=
  match n with
  | O => Done c
  | S n' =>
      cf <- elem (Cf c) i;;
      flux <- elem (emisFlux c) i;;
      Cf' <- setElem (Cf c) i (cf + flux * dt)%go;;
      Ci' <- setElem (Ci c) i (cf + flux * dt)%go;;
      addEmissionsFluxLoop (withConc c Ci' Cf' (emisFlux c)) dt (S i) n'
  end.

(** addEmissionsFlux adds emissions to c. It should be run once for each
    timestep. *)
Definition addEmissionsFlux (c : Cell F) (d : InMAPdata F) : outcome (Cell F) :=
  addEmissionsFluxLoop c (Dt d) 0 (List.length polNames).

End Domain.

Section Sides.
Context {F : Type} `{Float64 F}.

(** [c] with the neighbor list that faces a side replaced. *)
Definition setFacing (s : side) (c : Cell F) (l : list CellRef) : Cell F :=
  match s with
  | WestSide => withNeighbors c l (East c) (South c) (North c) (Below c)
                  (Above c) (GroundLevel c)
  | EastSide => withNeighbors c (West c) l (South c) (North c) (Below c)
                  (Above c) (GroundLevel c)
  | SouthSide => withNeighbors c (West c) (East c) l (North c) (Below c)
                   (Above c) (GroundLevel c)
  | NorthSide => withNeighbors c (West c) (East c) (South c) l (Below c)
                   (Above c) (GroundLevel c)
  | TopSide => withNeighbors c (West c) (East c) (South c) (North c)
                 (Below c) l (GroundLevel c)
  end.

(** What [neighborInfo] computes toward a side: the distances between
    centers, the overlap fractions and the interface diffusivities. *)
Definition halfDistance (s : side) (c : Cell F) : list F :=
  match s with
  | WestSide => DxMinusHalf c
  | EastSide => DxPlusHalf c
  | SouthSide => DyMinusHalf c
  | NorthSide => DyPlusHalf c
  | TopSide => DzPlusHalf c
  end.

Definition fractionToward (s : side) (c : Cell F) : list F :=
  match s with
  | WestSide => WestFrac c
  | EastSide => EastFrac c
  | SouthSide => SouthFrac c
  | NorthSide => NorthFrac c
  | TopSide => AboveFrac c
  end.

Definition diffusivityToward (s : side) (c : Cell F) : list F :=
  match s with
  | WestSide => KxxWest c
  | EastSide => KxxEast c
  | SouthSide => KyySouth c
  | NorthSide => KyyNorth c
  | TopSide => KzzAbove c
  end.

(** The extent of a cell across a side and its diffusivity in that
    direction. *)
Definition extentAcross (s : side) (c : Cell F) : F :=
  match s with
  | WestSide | EastSide => Dx c
  | SouthSide | NorthSide => Dy c
  | TopSide => Dz c
  end.

Definition diffusivityAcross (s : side) (c : Cell F) : F :=
  match s with
  | TopSide => Kzz c
  | _ => Kxxyy c
  end.

End Sides.

(** Species [j] is one the loop treats when started at [i] with [n] to go. *)
Definition treated (i n j : nat) : bool := (i <=? j) && (j <? i + n).

Section EmissionsOperator.
Context {F : Type} `{Float64 F}.

(** The operator applied at [k] successive time steps. *)
Fixpoint addEmissionsFluxTimes (k : nat) (c : Cell F) (d : InMAPdata F)
  : outcome (Cell F) :=
  match k with
  | O => Done c
  | S k' => c' <- addEmissionsFlux c d;; addEmissionsFluxTimes k' c' d
  end.

(** The three concentration vectors of a cell hold an entry for each of
    the nine species. *)
Definition holdsSpecies (c : Cell F) : Prop :=
  List.length polNames <= List.length (Ci c) /\
  List.length polNames <= List.length (Cf c) /\
  List.length polNames <= List.length (emisFlux c).

(** Entry [j] of a vector, zero out of range. *)
Definition at_ (l : list F) (j : nat) : F := nth j l (fofZ 0).

End EmissionsOperator.

Section EmissionsStage.
Context {F : Type} `{Float64 F}.

(** The flux [addEmisFlux] stores in a cell for an emission of [val]
    ug/s: ug/s /m/m/m = ug/m3/s. *)
Definition fluxInto (c : Cell F) (val scale : F) : F :=
  (val * scale * (fofZ 1 / Dx c / Dy c / Dz c))%go.

(** The loop of [addEmisFlux] read along the cells from the row it
    stands at. *)
Fixpoint emitInto (cells : list (Cell F)) (arr : list F) (scale : F)
    (iPol : nat) {struct arr} : outcome (list (Cell F)) :=
  match arr with
  | [] => Done cells
  | val :: arr' =>
      match cells with
      | [] => Panic IndexOutOfRange
      | c :: rest =>
          flux <- setElem (emisFlux c) iPol (fluxInto c val scale);;
          rest' <- emitInto rest arr' scale iPol;;
          Done (withConc c (Ci c) (Cf c) flux :: rest')
      end
  end.

(** The emission that [Run] leaves in entry [i] of the flux of the cell
    of row [row]: that of the last pollutant of the map, in the order it
    was iterated, whose species is [i] and whose array reaches the row. *)
Fixpoint fluxFor (emissions : list (string * list F)) (i row : nat)
  : option (F * F) :=
  match emissions with
  | [] => None
  | (pol, arr) :: rest =>
      match fluxFor rest i row with
      | Some x => Some x
      | None =>
          match emissionsCase pol, nth_error arr row with
          | Some (scale, iPol), Some val =>
              if Nat.eqb iPol i then Some (val, scale) else None
          | _, _ => None
          end
      end
  end.

End EmissionsStage.

(* ---------------------------------------------------------------- *)
(** *** [Run]: the convergence check *)

Section ConvergenceCheck.
Context {F : Type} `{Float64 F}.

(** [var sum float64; for _, c := range d.Data { sum += c.Cf[ii] }] from
    the cells still to visit. *)
Fixpoint speciesSum (cells : list (Cell F)) (ii : nat) (sum : F)
  : outcome F :=
  match cells with
  | [] => Done sum
  | c :: rest => cf <- elem (Cf c) ii;; speciesSum rest ii (sum + cf)%go
  end.

(** The sums of species [ii], [ii+1], ..., [n] of them. *)
Fixpoint speciesSums (cells : list (Cell F)) (ii n : nat)
  : outcome (list F) :=
  match n with
  | O => Done []
  | S n' =>
      s <- speciesSum cells ii (fofZ 0);;
      rest <- speciesSums cells (S ii) n';;
      Done (s :: rest)
  end.

(** The body of [else if timeSinceLastCheck >= checkPeriod], after
    [wg.Wait()]: [timeToQuit] and the new [oldSum]. *)
Definition convergenceCheck (d : InMAPdata F) (oldSum : list F)
  : outcome (bool * list F) :=
  sums <- speciesSums (Cells d) 0 (List.length polNames);;
  Done (checkSpecies sums oldSum).

End ConvergenceCheck.

(* ---------------------------------------------------------------- *)
(** *** [Run]: the bookkeeping of the main loop *)

Module MainLoop.

(** Go's [int] on the platforms InMAP runs on: 64 bits, wrapping. *)
Definition wrap64 (z : Z) : Z := ((z + 2 ^ 63) mod 2 ^ 64 - 2 ^ 63)%Z.

(** The variables the controlling goroutine keeps between passes. *)
Record vars : Type := mkVars {
  iteration : Z;
  nDaysRun : float;
  timeSinceLastCheck : float
}.

(** [iteration := 0; nDaysRun := 0.; timeSinceLastCheck := 0.] *)
Definition start : vars := mkVars 0 0%float 0%float.

(** What the loop does after the bookkeeping of a pass. *)
Inductive decision : Type :=
| Again              (* next pass *)
| BreakOut           (* wg.Wait(); break *)
| Check.             (* wg.Wait(); the convergence check *)

(** The statements between the sends of a pass and the waits: the
    counters move on and the mode of the run decides.  [numIterations] is
    [d.NumIterations] and [dt] is [d.Dt]; before a check the time since
    the last one is set back to zero. *)
Definition bookkeeping (numIterations : Z) (dt : float) (v : vars)
  : vars * decision :=
  let iteration := wrap64 (iteration v + 1) in
  let nDaysRun := (nDaysRun v + dt * daysPerSecond)%float in
  let timeSinceLastCheck := (timeSinceLastCheck v + dt)%float in
  if (numIterations >? 0)%Z then
    if (iteration >=? numIterations)%Z
    then (mkVars iteration nDaysRun timeSinceLastCheck, BreakOut)
    else (mkVars iteration nDaysRun timeSinceLastCheck, Again)
  else if (checkPeriod <=? timeSinceLastCheck)%float
    then (mkVars iteration nDaysRun 0%float, Check)
    else (mkVars iteration nDaysRun timeSinceLastCheck, Again).

(** The decisions of [n] passes, a check that does not end the run being
    followed by the next pass: [quits] tells for each check, by the number
    of the pass it follows, whether it finds every species converged.
    The result is the number of the pass after which the loop is left, if
    it is left within [n] passes, and the decisions taken. *)
Fixpoint passes (numIterations : Z) (dt : float) (quits : nat -> bool)
    (n : nat) (k : nat) (v : vars) : option nat * list decision :=
  match n with
  | O => (None, [])
  | S n' =>
      let (v', dec) := bookkeeping numIterations dt v in
      match dec with
      | BreakOut => (Some (S k), [dec])
      | Check =>
          if quits (S k) then (Some (S k), [dec])
          else let (r, ds) := passes numIterations dt quits n' (S k) v' in
               (r, dec :: ds)
      | Again =>
          let (r, ds) := passes numIterations dt quits n' (S k) v' in
          (r, dec :: ds)
      end
  end.

End MainLoop.

(* ---------------------------------------------------------------- *)
(** *** Output: what the extraction reads and what it leaves locked *)

(** One call after another along a list, stopping at the first panic. *)
Fixpoint traverse {A B} (f : A -> outcome B) (l : list A) : outcome (list B) :=
  match l with
  | [] => Done []
  | a :: rest => b <- f a;; bs <- traverse f rest;; Done (b :: bs)
  end.

Section Extraction.
Context {F : Type} `{Float64 F}.

(** The cells a traversal for [layer] visits and reads: those before the
    first cell of a higher layer. *)
Fixpoint visitedUpTo (layer : Z) (cells : list (Cell F)) : list (Cell F) :=
  match cells with
  | [] => []
  | c :: rest =>
      if (Layer c >? layer)%Z then [] else c :: visitedUpTo layer rest
  end.

(** The cells of a layer. *)
Definition inLayer (layer : Z) (cells : list (Cell F)) : list (Cell F) :=
  filter (fun c => (Layer c =? layer)%Z) cells.

(** The cells as a traversal for [layer] leaves them: the first cell of a
    higher layer, if there is one, with one more read lock. *)
Fixpoint leaveLocked (layer : Z) (cells : list (Cell F)) : list (Cell F) :=
  match cells with
  | [] => []
  | c :: rest =>
      if (Layer c >? layer)%Z then RLock c :: rest
      else c :: leaveLocked layer rest
  end.

(** The cells after the traversals of layers [0], ..., [outputLay - 1]
    for one output variable, and after those for each of [n] variables. *)
Definition lockedByLayers (outputLay : nat) (cells : list (Cell F))
  : list (Cell F) :=
  fold_left (fun cs k => leaveLocked (Z.of_nat k) cs) (seq 0 outputLay) cells.

Fixpoint lockedByOutput (n outputLay : nat) (cells : list (Cell F))
  : list (Cell F) :=
  match n with
  | O => cells
  | S n' => lockedByOutput n' outputLay (lockedByLayers outputLay cells)
  end.


(** A cell whose concentration and flux vectors have their nine entries,
    as [prepare] and [Run] allocate them. *)
Definition prepared (c : Cell F) : Prop :=
  List.length (Cf c) = List.length polNames /\
  List.length (emisFlux c) = List.length polNames.

(** [s] contains [sub]. *)
Definition contains (sub s : string) : Prop :=
  exists u v, s = (u ++ sub ++ v)%string.

End Extraction.

Section OutputRows.
Context {F : Type} `{Float64 F}.
Variable popNames : list string.
Variable RRpm25Linear : F -> F.
Variable Deaths : F -> F -> F -> F.

(** The value of a variable in a cell, where [getValue] returns one. *)
Definition valueOf (name : string) (c : Cell F) : F :=
  match getValue popNames RRpm25Linear Deaths c name with
  | Done v => v
  | Panic _ => fofZ 0
  end.

(** The row of layer [k] in the output of a variable, and all its rows:
    one for each layer extracted, the others left empty. *)
Definition valuesAt (cells : list (Cell F)) (name : string) (k : nat)
  : list F :=
  map (valueOf name) (inLayer (Z.of_nat k) (visitedUpTo (Z.of_nat k) cells)).

Definition rowsOf (cells : list (Cell F)) (nlayers outputLay : nat)
    (name : string) : list (list F) :=
  map (valuesAt cells name) (seq 0 outputLay)
  ++ repeat [] (nlayers - outputLay).

End OutputRows.

Section OutputSpec.
Context {F : Type} `{Float64 F}.
Variable popNames : list string.
Variable RRpm25Linear : F -> F.
Variable Deaths : F -> F -> F -> F.

(** Two lists of cells that differ in the state of the locks at most. *)
Definition lockEq : list (Cell F) -> list (Cell F) -> Prop :=
  Forall2 (fun c c' => exists m, c' = withLock c m).

(** A variable that [getValue] reads in every cell with its vectors. *)
Definition readable (name : string) : Prop :=
  forall c : Cell F, prepared c ->
    exists v, getValue popNames RRpm25Linear Deaths c name = Done v.

End OutputSpec.

(* ---------------------------------------------------------------- *)
(** *** [doScience]: one worker, one science function *)

(** [l] with its entry [i] replaced, if it has one. *)
Fixpoint replaceAt {A} (l : list A) (i : nat) (a : A) : list A :=
  match l, i with
  | [], _ => []
  | _ :: l', O => a :: l'
  | x :: l', S i' => x :: replaceAt l' i' a
  end.

(** How the treatment of a function by a worker ends: the inner loop is
    left (and [wg.Done()] follows), a call panics, or the worker stands
    at [c.Lock()] of cell [ii] with the lock held by others.  [Unfinished]
    is a loop cut short by the bound on its passes. *)
Inductive ending (A : Type) : Type :=
| Returns (a : A)
| Panics (p : panic)
| Blocks (ii : nat) (a : A)
| Unfinished.
Arguments Returns {A} a.
Arguments Panics {A} p.
Arguments Blocks {A} ii a.
Arguments Unfinished {A}.

Section Worker.
Context {F : Type} `{Float64 F}.

(** [c.Lock()] succeeds when no reader and no writer holds the lock. *)
Definition Lock (c : Cell F) : option (Cell F) :=
  match RWMutex c with
  | mkRW O false => Some (withLock c (mkRW 0 true))
  | _ => None
  end.

Definition Unlock (c : Cell F) : Cell F :=
  withLock c (mkRW (readers (RWMutex c)) false).

(** A science function is given a cell and the domain, and is modelled
    by what it leaves in that cell: the functions of [Run] are calls of
    methods of the cell. *)
Definition scienceFunc : Type := Cell F -> InMAPdata F -> outcome (Cell F).

(** [func(c *Cell, d *InMAPdata) { c.addEmissionsFlux(d) }], the first of
    the [scienceFuncs] of [Run]. *)
Definition emissionsFunc : scienceFunc := fun c d => addEmissionsFlux c d.

(** [for ii := procNum; ii < len(d.Data); ii += nprocs { ... }] from cell
    [ii] on, in at most [fuel] passes. *)
Fixpoint doScienceLoop (fuel nprocs ii : nat) (f : scienceFunc)
    (d : InMAPdata F) : ending (InMAPdata F) :=
  match fuel with
  | O => Unfinished
  | S fuel' =>
      match nth_error (Cells d) ii with
      | None => Returns d
      | Some c =>
          match Lock c with            (* Lock the cell to avoid race conditions *)
          | None => Blocks ii d
          | Some c =>
              let d := withCells d (replaceAt (Cells d) ii c) in
              match (if (Layer c <=? topLayerToCalc)%Z
                     then f c d          (* run function *)
                     else Done c) with
              | Panic p => Panics p
              | Done c =>
                  (* Unlock the cell: we're done editing it *)
                  let d := withCells d (replaceAt (Cells d) ii (Unlock c)) in
                  doScienceLoop fuel' nprocs (ii + nprocs) f d
              end
          end
      end
  end.

(** The treatment by worker [procNum] of one function received. *)
Definition doScience (fuel nprocs procNum : nat) (f : scienceFunc)
    (d : InMAPdata F) : ending (InMAPdata F) :=
  doScienceLoop fuel nprocs procNum f d.

(** The workers [0], ..., [nprocs - 1] treating a function one after the
    other. *)
Fixpoint poolFrom (fuel nprocs procNum n : nat) (f : scienceFunc)
    (d : InMAPdata F) : ending (InMAPdata F) :=
  match n with
  | O => Returns d
  | S n' =>
      match doScience fuel nprocs procNum f d with
      | Returns d' => poolFrom fuel nprocs (S procNum) n' f d'
      | e => e
      end
  end.

Definition pool (fuel nprocs : nat) (f : scienceFunc) (d : InMAPdata F)
  : ending (InMAPdata F) :=
  poolFrom fuel nprocs 0 nprocs f d.

(** Cell [j] is one that the loop started at [ii] visits. *)
Definition visits (nprocs ii j : nat) : bool :=
  (ii <=? j) && ((j - ii) mod nprocs =? 0).

(** No lock of the cell is held. *)
Definition free (c : Cell F) : Prop := RWMutex c = mkRW 0 false.

(** What the emissions operator leaves of a cell. *)
Definition emitted (dt : F) (c : Cell F) : Cell F :=
  match addEmissionsFluxLoop c dt 0 (List.length polNames) with
  | Done c' => c'
  | Panic _ => c
  end.

(** What the pool leaves of a cell when the workers [p0], ..., [p0+n-1]
    have treated the emissions function. *)
Definition treatedBy (nprocs p0 n : nat) (dt : F) (j : nat) (c : Cell F)
  : Cell F :=
  if (p0 <=? j mod nprocs) && (j mod nprocs <? p0 + n)
     && (Layer c <=? topLayerToCalc)%Z
  then emitted dt c else c.

(** [n] read locks taken and not released. *)
Fixpoint RLocks (n : nat) (c : Cell F) : Cell F :=
  match n with
  | O => c
  | S n' => RLocks n' (RLock c)
  end.

End Worker.

(* ---------------------------------------------------------------- *)
(** *** The wait group of the scheduler *)

Module Barrier.
Import Scheduler.

(** The sends of the pass under way that the controlling goroutine has
    still to make. *)
Definition remaining (cfg : config) (s : state) : nat :=
  match pc s with
  | Sending k pp => (nfuncs cfg - k) * nprocs cfg - pp
  | _ => 0
  end.

(** The tasks that the workers [0], ..., [n - 1] hold, running or waiting
    in their channels. *)
Fixpoint heldBelow (s : state) (n : nat) : nat :=
  match n with
  | O => 0
  | S n' => heldBelow s n' + List.length (pending s n')
  end.

Definition held (cfg : config) (s : state) : nat := heldBelow s (nprocs cfg).

(** An application without its worker: which operator of which pass, to
    which cell. *)
Definition key (e : event) : task * nat := (what e, cell e).

(** What every reachable state satisfies, besides [inv]: the counter of
    the wait group is the number of tasks added and not yet done; the
    log holds applications that have been made, by the worker of the
    cell, and none twice. *)
Record accounted (cfg : config) (s : state) : Prop := mkAccounted {
  acc_wg : wg s = Z.of_nat (held cfg s + remaining cfg s);
  acc_finished : pc s = Finished -> wg s = 0%Z;
  acc_sound : forall e,
    In e (log s) ->
    proc e < nprocs cfg /\ op (what e) < nfuncs cfg /\
    assigned cfg (proc e) (cell e) /\
    (taskLt (what e) (frontier cfg s (proc e)) \/
     exists ii, workers s (proc e) = Running (what e) ii /\ cell e < ii);
  acc_once : NoDup (map key (log s))
}.

(** The controlling goroutine has come back from a [wg.Wait()], or stands
    in one that is about to return. *)
Definition waited (s : state) : Prop :=
  pc s = Finished \/ ((pc s = WaitBreak \/ pc s = WaitCheck) /\ wg s = 0%Z).

End Barrier.

(** The output variable that reports the species an emissions pollutant
    goes to: the pollutant's own name, but for primary PM2.5. *)
Definition gasLabel (pol : string) : string :=
  if String.eqb pol "PM2_5" then "PrimaryPM2_5"%string else pol.

(* ================================================================== *)
(** * Theorems *)

(** ** Facts about binary64 *)
Module B64.

Lemma SFcompare_refl (x : spec_float) :
  x <> S754_nan -> SFcompare x x = Some Eq.
Proof.
  destruct x as [s|s| |s m e]; simpl; try congruence; intros _.
  - destruct s; reflexivity.
  - rewrite Z.compare_refl, Pos.compare_cont_refl. destruct s; reflexivity.
Qed.

Lemma SFcompare_antisym (x y : spec_float) (c : comparison) :
  SFcompare x y = Some c -> SFcompare y x = Some (CompOpp c).
Proof.
  destruct x as [s|s| |s m e], y as [s'|s'| |s' m' e']; simpl;
    try discriminate;
    try (intros [= <-]; destruct s; try destruct s'; reflexivity).
  intros [= <-]. f_equal.
  destruct s, s'; simpl; try reflexivity;
    rewrite (Z.compare_antisym e e'); destruct (e ?= e')%Z; simpl;
    try reflexivity;
    rewrite (Pos.compare_cont_antisym m m' Eq); simpl;
    try rewrite CompOpp_involutive; reflexivity.
Qed.

Lemma SFcompare_total (x y : spec_float) :
  x <> S754_nan -> y <> S754_nan -> exists c, SFcompare x y = Some c.
Proof.
  destruct x as [s|s| |s m e], y as [s'|s'| |s' m' e']; simpl;
    try congruence; intros _ _; eexists; reflexivity.
Qed.

Lemma is_nan_SF (x : float) : is_nan x = true <-> SF x = S754_nan.
Proof.
  unfold is_nan, SF. rewrite eqb_spec. unfold SFeqb.
  destruct (Prim2SF x) as [s|s| |s m e] eqn:E.
  4: rewrite SFcompare_refl by discriminate.
  all: simpl; try destruct s; split; intros; try discriminate; reflexivity.
Qed.

Lemma is_nan_false_SF (x : float) : is_nan x = false <-> SF x <> S754_nan.
Proof.
  rewrite <- is_nan_SF. destruct (is_nan x); split; congruence.
Qed.

Lemma SF_zero_lit : SF 0%float = S754_zero false.
Proof. reflexivity. Qed.

Lemma SF_infinity : SF infinity = S754_infinity false.
Proof. reflexivity. Qed.

Lemma is_zero_SF (x : float) :
  is_zero x = true <-> exists s, SF x = S754_zero s.
Proof.
  unfold is_zero, SF. rewrite eqb_spec. change (Prim2SF zero) with (S754_zero false).
  unfold SFeqb.
  destruct (Prim2SF x) as [s|s| |s m e]; simpl.
  - split; eauto.
  - destruct s; split; try discriminate; intros [? ?]; discriminate.
  - split; try discriminate; intros [? ?]; discriminate.
  - destruct s; split; try discriminate; intros [? ?]; discriminate.
Qed.

Lemma is_infinity_SF (x : float) :
  is_infinity x = true <-> exists s, SF x = S754_infinity s.
Proof.
  unfold is_infinity, SF. rewrite eqb_spec, abs_spec.
  change (Prim2SF infinity) with (S754_infinity false). unfold SFeqb.
  destruct (Prim2SF x) as [s|s| |s m e]; simpl.
  - split; try discriminate; intros [? ?]; discriminate.
  - split; eauto.
  - split; try discriminate; intros [? ?]; discriminate.
  - split; try discriminate; intros [? ?]; discriminate.
Qed.

(** Go's [<] and [<=] are total on numbers: only NaN is unordered. *)
Lemma ltb_false_leb (x y : float) :
  (x <? y)%float = false -> is_nan x = false -> is_nan y = false ->
  (y <=? x)%float = true.
Proof.
  rewrite ltb_spec, leb_spec, !is_nan_false_SF. unfold SF, SFltb, SFleb.
  intros L Nx Ny.
  destruct (SFcompare_total Nx Ny) as [c Hc].
  rewrite Hc in L. rewrite (SFcompare_antisym _ _ Hc).
  destruct c; simpl; congruence.
Qed.

Lemma leb_ltb_false (x y : float) :
  (y <=? x)%float = true -> (x <? y)%float = false.
Proof.
  rewrite ltb_spec, leb_spec. unfold SFltb, SFleb.
  destruct (SFcompare (Prim2SF y) (Prim2SF x)) as [c|] eqn:Hc; try discriminate.
  rewrite (SFcompare_antisym _ _ Hc). destruct c; simpl; congruence.
Qed.

Lemma leb_not_nan (x y : float) :
  (x <=? y)%float = true -> is_nan x = false /\ is_nan y = false.
Proof.
  rewrite leb_spec, !is_nan_false_SF. unfold SF, SFleb.
  destruct (Prim2SF x), (Prim2SF y); simpl; try discriminate; split; congruence.
Qed.

End B64.

Import B64.


(* ================================================================== *)
(** ** Convergence monitor *)

Lemma SF_abs (x : float) : SF (abs x) = SFabs (SF x).
Proof. apply abs_spec. Qed.

Lemma checkConvergence_b64 (newSum oldSum : float) :
  checkConvergence newSum oldSum =
  negb ((tolerance <? abs (bias newSum oldSum))%float
        || is_infinity (bias newSum oldSum)).
Proof.
  unfold checkConvergence. cbn [fabs fltb fisinf binary64].
  destruct (_ || _); reflexivity.
Qed.

Lemma SF_tolerance :
  SF (tolerance (F:=float)) = S754_finite false 5764607523034235 (-60).
Proof. reflexivity. Qed.

Lemma converged_iff (newSum oldSum : float) :
  checkConvergence newSum oldSum = true <->
  is_nan (bias newSum oldSum) = true \/
  (abs (bias newSum oldSum) <=? tolerance)%float = true.
Proof.
  rewrite checkConvergence_b64, negb_true_iff, orb_false_iff.
  set (b := bias newSum oldSum).
  split.
  - intros [L _]. destruct (is_nan b) eqn:N; [now left|right].
    apply ltb_false_leb; trivial.
    apply is_nan_false_SF in N. apply is_nan_false_SF. rewrite SF_abs.
    destruct (SF b); simpl; congruence.
  - intros [N|L].
    + apply is_nan_SF in N. split.
      * rewrite ltb_spec. fold (SF (abs b)). rewrite SF_abs, N.
        unfold SFltb. destruct (Prim2SF tolerance); reflexivity.
      * destruct (is_infinity b) eqn:I; trivial.
        apply is_infinity_SF in I. destruct I as [s I]. congruence.
    + split; [now apply leb_ltb_false|].
      destruct (is_infinity b) eqn:I; trivial.
      apply is_infinity_SF in I. destruct I as [s I].
      rewrite leb_spec in L. fold (SF (abs b)) in L.
      fold (SF (tolerance (F:=float))) in L.
      rewrite SF_abs, I, SF_tolerance in L. discriminate.
Qed.

Lemma within_tolerance_finite (x : float) :
  (abs x <=? tolerance)%float = true -> is_finite x = true.
Proof.
  intros L. unfold is_finite. rewrite negb_true_iff, orb_false_iff.
  rewrite leb_spec in L. fold (SF (abs x)) in L.
  fold (SF (tolerance (F:=float))) in L. rewrite SF_abs, SF_tolerance in L.
  split.
  - apply is_nan_false_SF. intros E. rewrite E in L. discriminate.
  - destruct (is_infinity x) eqn:I; trivial.
    apply is_infinity_SF in I. destruct I as [s I]. rewrite I in L.
    discriminate.
Qed.

Lemma SF_bias (newSum oldSum : float) :
  SF (bias newSum oldSum) =
  SF64div (SF64sub (SF newSum) (SF oldSum)) (SF oldSum).
Proof.
  unfold bias, SF. cbn [fsub fdiv binary64]. now rewrite div_spec, sub_spec.
Qed.

(** From a zero sum, a change to a nonzero number is an infinite bias. *)
Lemma bias_from_zero (newSum oldSum : float) :
  is_zero oldSum = true -> is_nan newSum = false -> is_zero newSum = false ->
  is_infinity (bias newSum oldSum) = true.
Proof.
  intros Z N NZ. apply is_zero_SF in Z. destruct Z as [s Z].
  apply is_nan_false_SF in N.
  assert (NZ' : forall s', SF newSum <> S754_zero s').
  { intros s' E. assert (is_zero newSum = true) by (apply is_zero_SF; eauto).
    congruence. }
  apply is_infinity_SF. rewrite SF_bias, Z.
  destruct (SF newSum) as [s'|s'| |s' m e]; simpl.
  - now destruct (NZ' s').
  - eauto.
  - congruence.
  - eauto.
Qed.

(** From a zero sum to a zero sum, the bias is 0/0. *)
Lemma bias_zero_zero (newSum oldSum : float) :
  is_zero oldSum = true -> is_zero newSum = true ->
  is_nan (bias newSum oldSum) = true.
Proof.
  intros Z Z'. apply is_zero_SF in Z, Z'. destruct Z as [s Z], Z' as [s' Z'].
  apply is_nan_SF. rewrite SF_bias, Z, Z'. destruct s, s'; reflexivity.
Qed.

(** C1, as the code has it.  [checkConvergence] answers [true] exactly when
    the relative change is NaN, or is at most the tolerance in absolute
    value (and then it is finite).  From a prior sum of zero, every new
    sum that is a nonzero number is judged not converged; a new sum of
    zero gives the ratio 0/0, which is NaN, and is judged converged. *)
Theorem checkConvergence_verdict (newSum oldSum : float) :
  (checkConvergence newSum oldSum = true <->
     is_nan (bias newSum oldSum) = true \/
     ((abs (bias newSum oldSum) <=? tolerance)%float = true /\
      is_finite (bias newSum oldSum) = true))
  /\ (is_zero oldSum = true ->
      is_nan newSum = false -> is_zero newSum = false ->
      checkConvergence newSum oldSum = false)
  /\ (is_zero oldSum = true -> is_zero newSum = true ->
      checkConvergence newSum oldSum = true).
Proof.
  split; [|split].
  - rewrite converged_iff. split; intros [N|L]; auto.
    + right. split; trivial. now apply within_tolerance_finite.
    + right. tauto.
  - intros Z N NZ. rewrite checkConvergence_b64.
    rewrite (bias_from_zero Z N NZ), orb_true_r. reflexivity.
  - intros Z Z'. apply converged_iff. left. now apply bias_zero_zero.
Qed.

(** C1 fails as stated: with both sums zero the verdict is "converged",
    although the relative change is not finite and not within the
    tolerance. *)
Lemma checkConvergence_zero_zero :
  checkConvergence 0%float 0%float = true /\
  is_finite (bias 0%float 0%float) = false /\
  (abs (bias 0%float 0%float) <=? tolerance)%float = false.
Proof. repeat split. Qed.

(** The periodic check answers "time to quit" exactly when every species
    is judged converged. *)
Lemma checkSpecies_all {F : Type} `{Float64 F} (sums oldSum : list F) :
  List.length sums = List.length oldSum ->
  (fst (checkSpecies sums oldSum) = true <->
   Forall2 (fun s o => checkConvergence s o = true) sums oldSum)
  /\ snd (checkSpecies sums oldSum) = sums.
Proof.
  revert oldSum. induction sums as [|s sums IH]; intros [|o oldSum]; try discriminate.
  - intros _. split; [split; [constructor|reflexivity]|reflexivity].
  - intros [= L]. destruct (IH oldSum L) as [I1 I2]. cbn [checkSpecies].
    destruct (checkSpecies sums oldSum) as [q rest]. cbn [fst snd] in *.
    split; [|now rewrite I2].
    rewrite andb_true_iff, I1. split.
    + intros [? ?]. now constructor.
    + intros A. inversion A; subst. now split.
Qed.

(* ================================================================== *)
(** ** Interface diffusivity *)

Lemma harmonicMean_exact (a b : R) :
  harmonicMean a b = (2 * a * b / (a + b))%R.
Proof. reflexivity. Qed.

(** C9, in exact arithmetic.  Over the reals, for all [a, b > 0], the
    harmonic mean [2ab/(a+b)] is symmetric, [harmonicMean a a = a], and
    [harmonicMean a b <= 2 * min a b]. *)
Theorem harmonicMean_laws (a b : R) :
  (0 < a)%R -> (0 < b)%R ->
  harmonicMean a b = harmonicMean b a /\
  harmonicMean a a = a /\
  (harmonicMean a b <= 2 * Rmin a b)%R.
Proof.
  intros Ha Hb. rewrite !harmonicMean_exact. repeat split.
  - field. lra.
  - field. lra.
  - assert (Hab : (0 < a + b)%R) by lra.
    apply Rmin_case.
    + apply Rle_trans with (2 * a * ((a + b) / (a + b)))%R.
      * unfold Rdiv. rewrite <- !Rmult_assoc.
        apply Rmult_le_compat_r; [left; now apply Rinv_0_lt_compat|].
        nra.
      * unfold Rdiv. rewrite Rinv_r by lra. lra.
    + apply Rle_trans with (2 * b * ((a + b) / (a + b)))%R.
      * unfold Rdiv. rewrite <- !Rmult_assoc.
        apply Rmult_le_compat_r; [left; now apply Rinv_0_lt_compat|].
        nra.
      * unfold Rdiv. rewrite Rinv_r by lra. lra.
Qed.

Lemma harmonicMean_laws_witness :
  harmonicMean 1%R 3%R = harmonicMean 3%R 1%R /\
  harmonicMean 1%R 1%R = 1%R /\
  (harmonicMean 1%R 3%R <= 2 * Rmin 1 3)%R.
Proof. apply (@harmonicMean_laws 1%R 3%R); lra. Defined.

(** C9 fails as stated, in the arithmetic of the program.  In binary64,
    [harmonicMean(0.1, 0.1)] is [0.10000000000000002]: the product
    [2*a*a] is rounded before the division.  When [2*a] overflows the
    function is not symmetric either, and exceeds [2 * min a b]:
    [harmonicMean(2^1023, 2^-10)] is [+Inf], [harmonicMean(2^-10, 2^1023)]
    is [2^-9]. *)
Lemma harmonicMean_binary64_rounds :
  (0 <? tenth)%float = true /\
  (harmonicMean tenth tenth =? tenth)%float = false /\
  harmonicMean tenth tenth = 0x1.999999999999bp-4%float /\
  (0 <? twoTo1023)%float = true /\ (0 <? twoToMinus10)%float = true /\
  harmonicMean twoTo1023 twoToMinus10 = infinity /\
  harmonicMean twoToMinus10 twoTo1023 = 0x1p-9%float /\
  (harmonicMean twoTo1023 twoToMinus10
   <=? 2 * min twoTo1023 twoToMinus10)%float = false.
Proof. repeat split. Qed.

(* ================================================================== *)
(** ** Topology builder *)

Lemma bind_Done {A B} (m : outcome A) (k : A -> outcome B) (b : B) :
  bind m k = Done b -> exists a, m = Done a /\ k a = Done b.
Proof. destruct m; simpl; [eauto|discriminate]. Qed.

Section Topology.
Context {F : Type} `{Float64 F}.

Lemma derefAll_In (d : InMAPdata F) (rs : list CellRef) (cs : list (Cell F)) :
  derefAll d rs = Done cs ->
  forall n, In n cs -> exists r, In r rs /\ deref d r = Done n.
Proof.
  revert cs. induction rs as [|r rs IH]; simpl; intros cs E n Hn.
  - injection E as <-. destruct Hn.
  - apply bind_Done in E. destruct E as (c & Ec & E).
    apply bind_Done in E. destruct E as (cs' & Ecs & E).
    injection E as <-. destruct Hn as [<-|Hn].
    + eauto.
    + destruct (IH _ Ecs _ Hn) as (r' & ? & ?). eauto.
Qed.

Lemma fractions_spec (d : InMAPdata F) (c c' : Cell F) :
  neighborInfo d c = Done c' ->
  forall f, In f (fractions c') ->
  exists r n q, In r (neighbors c) /\ deref d r = Done n /\
                isQuotientOf c n q /\ f = min q (fofZ 1).
Proof.
  unfold neighborInfo. intros E.
  do 7 (apply bind_Done in E; destruct E as (? & ? & E)).
  cbv zeta in E. injection E as E. subst c'.
  unfold fractions, neighbors, isQuotientOf. cbn.
  intros f Hf.
  repeat (apply in_app_or in Hf; destruct Hf as [Hf|Hf]);
    apply in_map_iff in Hf; destruct Hf as (n & <- & Hn);
    (eapply derefAll_In in Hn; [|eassumption]);
    destruct Hn as (r & Hr & Hd); exists r, n; eexists;
    (split; [repeat (apply in_or_app; first [left; exact Hr | right]);
             exact Hr|]);
    (split; [exact Hd|]); (split; [|reflexivity]); tauto.
Qed.

End Topology.

Lemma ltb_leb (x y : float) :
  (x <? y)%float = true -> (x <=? y)%float = true.
Proof.
  rewrite ltb_spec, leb_spec. unfold SFltb, SFleb.
  destruct (SFcompare _ _) as [[]|]; congruence.
Qed.

Lemma min_le_one (q : float) : (min q (fofZ 1) <=? 1)%float = true.
Proof.
  unfold min. cbn [fltb binary64].
  destruct (q <? fofZ 1)%float eqn:L; [now apply ltb_leb|reflexivity].
Qed.

Lemma min_pos (q : float) :
  (0 <? q)%float = true -> (0 <? min q (fofZ 1))%float = true.
Proof.
  intros P. unfold min. cbn [fltb binary64].
  destruct (q <? fofZ 1)%float; [assumption|reflexivity].
Qed.

Lemma Rmin_one_range (q : R) : (0 < q)%R -> (0 < min q (fofZ 1) <= 1)%R.
Proof.
  intros P. unfold min. cbn [fltb fofZ exact]. unfold Rltb.
  destruct (Rlt_dec q 1); lra.
Qed.

(** C8, as the code has it.  In the arithmetic of the program every
    overlap fraction is the smaller of 1 and a quotient of facing extents
    of the cell and one neighbor; it is at most 1, whatever the cells
    hold, and positive when that quotient is.  Over the reals, a cell of
    strictly positive extents whose neighbors have strictly positive
    extents has every fraction in (0, 1]. *)
Theorem fractions_range :
  (forall (d : InMAPdata float) (c c' : Cell float),
      neighborInfo d c = Done c' ->
      forall f, In f (fractions c') ->
      (f <=? 1)%float = true /\
      exists r n q, In r (neighbors c) /\ deref d r = Done n /\
                    isQuotientOf c n q /\ f = min q 1%float /\
                    ((0 <? q)%float = true -> (0 <? f)%float = true))
  /\
  (forall (d : InMAPdata R) (c c' : Cell R),
      neighborInfo d c = Done c' ->
      positiveExtents c ->
      (forall r n, In r (neighbors c) -> deref d r = Done n ->
                   positiveExtents n) ->
      forall f, In f (fractions c') -> (0 < f <= 1)%R).
Proof.
  split.
  - intros d c c' E f Hf.
    destruct (fractions_spec _ _ E _ Hf) as (r & n & q & Hr & Hd & Hq & ->).
    split; [apply min_le_one|].
    exists r, n, q. repeat (split; trivial). apply min_pos.
  - intros d c c' E (cx & cy & cz) Hn f Hf.
    destruct (fractions_spec _ _ E _ Hf) as (r & n & q & Hr & Hd & Hq & ->).
    destruct (Hn r n Hr Hd) as (nx & ny & nz).
    apply Rmin_one_range.
    destruct Hq as [->|[->| ->]]; cbn [fdiv fmul exact].
    + now apply Rdiv_lt_0_compat.
    + now apply Rdiv_lt_0_compat.
    + apply Rdiv_lt_0_compat; now apply Rmult_lt_0_compat.
Qed.

Lemma fractions_range_witness :
  exists c', neighborInfo fourTwo fourCell = Done c' /\
             Forall (fun f => (0 < f <= 1)%R) (fractions c').
Proof.
  eexists. split; [reflexivity|]. apply Forall_forall.
  apply (proj2 fractions_range fourTwo fourCell).
  - reflexivity.
  - unfold positiveExtents. cbn. lra.
  - intros r n [<-|[]] [= <-]. unfold positiveExtents. cbn. lra.
Defined.

(** C8 fails as stated, in the arithmetic of the program: the quotient of
    two strictly positive extents can underflow.  A cell [2^600] wide with
    a neighbor [2^-600] wide gets the fraction 0. *)
Lemma fraction_underflows :
  (0 <? Dx wideCell)%float = true /\ (0 <? Dy wideCell)%float = true /\
  (0 <? Dz wideCell)%float = true /\
  (0 <? Dx thinCell)%float = true /\ (0 <? Dy thinCell)%float = true /\
  (0 <? Dz thinCell)%float = true /\
  exists c', neighborInfo wideThin wideCell = Done c' /\
             fractions c' = [0%float].
Proof.
  repeat split. eexists. split; reflexivity.
Qed.

(* ================================================================== *)
(** ** Timestep controller *)

Section Timestep.
Context {F : Type} `{Float64 F}.

Lemma amin_app (v0 : F) (l1 l2 : list F) :
  amin v0 (l1 ++ l2) = amin (amin v0 l1) l2.
Proof. apply fold_left_app. Qed.

Lemma tstepLoop_later (i : nat) (cells : list (Cell F)) (dt : F) :
  tstepLoop (S i) cells dt = amin dt (allBounds cells).
Proof.
  revert i dt. induction cells as [|c cells IH]; intros i dt.
  - reflexivity.
  - cbn [tstepLoop Nat.eqb]. rewrite IH. unfold allBounds.
    cbn [flat_map]. now rewrite amin_app.
Qed.

(** The loop of [setTstepCFL] leaves in [Dt] the [amin] of every bound of
    every cell, in the order of the cells; with no cell, [Dt] stays. *)
Lemma setTstepCFL_min (d : InMAPdata F) :
  Dt (setTstepCFL d) = aminOf (Dt d) (allBounds (Cells d)).
Proof.
  unfold setTstepCFL. cbn [Dt withDt].
  destruct (Cells d) as [|c cells]; [reflexivity|].
  cbn [tstepLoop Nat.eqb]. rewrite tstepLoop_later.
  unfold allBounds. cbn [flat_map bounds app aminOf].
  change (dt2 c :: dt3 c :: dt4 c :: flat_map bounds cells)
    with ([dt2 c; dt3 c; dt4 c] ++ flat_map bounds cells).
  now rewrite amin_app.
Qed.

End Timestep.

(** C3, as the code has it.  The advective bound of a cell is
    Courant / sqrt(3) / max of three normalized speeds, which are
    (|UAvg| + 2 UDeviation) / Dx, (|VAvg| + 2 VDeviation) / Dy and
    |WAvg| / Dz: the mean winds enter by absolute value, and the vertical
    speed has no deviation term.  It is the first bound [setTstepCFL]
    takes the minimum of.  Over the reals it agrees with the spec's
    formula, read with no vertical deviation, for winds that are not
    negative. *)
Theorem advective_bound :
  (forall (F : Type) (H : Float64 F) (c : Cell F),
      dt1 c = fdiv (fdiv Cmax sqrt3)
                (max (normalizedSpeedX c)
                     [normalizedSpeedY c; normalizedSpeedZ c]) /\
      forall d rest,
        Dt (setTstepCFL (withCells d (c :: rest)))
        = amin (dt1 c) ([dt2 c; dt3 c; dt4 c] ++ allBounds rest))
  /\
  (forall c : Cell R,
      (0 <= UAvg c -> 0 <= VAvg c -> 0 <= WAvg c ->
       dt1 c = specAdvectiveBound 0 c)%R).
Proof.
  split.
  - intros F H c. split; [reflexivity|].
    intros d rest. now rewrite setTstepCFL_min.
  - intros c HU HV HW.
    unfold dt1, specAdvectiveBound, specNormalizedSpeed, Cmax, sqrt3.
    cbn [fabs fadd fmul fdiv fofZ fsqrt exact].
    rewrite !Rabs_right by lra.
    replace (UDeviation c * 2)%R with (2 * UDeviation c)%R by ring.
    replace (VDeviation c * 2)%R with (2 * VDeviation c)%R by ring.
    replace (WAvg c + 2 * 0)%R with (WAvg c) by ring.
    reflexivity.
Qed.

(** C3 fails as stated, in the arithmetic of the program.  For a westward
    wind (UAvg = -10, unit extents, WAvg = 1) the code's bound is
    1/sqrt(3)/10, the formula with the mean wind as it is stored gives
    1/sqrt(3).  And the vertical speed takes no deviation: for a calm cell
    with an updraft of 1 m/s the code's bound is 1/sqrt(3), where the
    formula with a vertical deviation of 1 m/s gives 1/sqrt(3)/3. *)
Lemma advective_bound_signed_wind :
  dt1 westwardCell = 0x1.d8f7208e6b82ep-5%float /\
  specAdvectiveBound 0%float westwardCell = 0x1.279a74590331dp-1%float /\
  (dt1 westwardCell =? specAdvectiveBound 0%float westwardCell)%float = false
  /\
  dt1 risingCell = 0x1.279a74590331dp-1%float /\
  (dt1 risingCell =? specAdvectiveBound 1%float risingCell)%float = false.
Proof. repeat split. Qed.

(* ------------------------------------------------------------------ *)
(** *** Unbounded terms *)

Lemma ltb_infinity_l (m : float) : (infinity <? m)%float = false.
Proof.
  rewrite ltb_spec. change (Prim2SF infinity) with (S754_infinity false).
  unfold SFltb. destruct (Prim2SF m) as [s|s| |s mm e]; simpl;
    try destruct s; reflexivity.
Qed.

(** An infinite argument after the first does not change [amin]. *)
Lemma amin_skip_infinity (v0 : float) (l1 l2 : list float) :
  amin v0 (l1 ++ infinity :: l2) = amin v0 (l1 ++ l2).
Proof.
  rewrite !amin_app. unfold amin at 1. cbn [fold_left fltb binary64].
  now rewrite ltb_infinity_l.
Qed.

Lemma aminOf_skip_infinity (dflt x : float) (l1 l2 : list float) :
  aminOf dflt (l1 ++ x :: infinity :: l2) = aminOf dflt (l1 ++ x :: l2).
Proof.
  destruct l1 as [|a l1]; cbn [app aminOf].
  - apply (amin_skip_infinity x [] l2).
  - change (l1 ++ x :: infinity :: l2) with (l1 ++ [x] ++ infinity :: l2).
    change (l1 ++ x :: l2) with (l1 ++ [x] ++ l2).
    rewrite !app_assoc. apply amin_skip_infinity.
Qed.

(** A positive numerator over a zero denominator is [+Inf]. *)
Lemma div_pos_zero (x : float) :
  (0 <? x)%float = true -> (x / 0)%float = infinity.
Proof.
  intros P. apply Prim2SF_inj. rewrite div_spec.
  rewrite ltb_spec in P. change (Prim2SF 0) with (S754_zero false) in *.
  unfold SFltb in P.
  destruct (Prim2SF x) as [s|s| |s m e]; simpl in P; try discriminate;
    destruct s; try discriminate; reflexivity.
Qed.

Lemma allBounds_app {F : Type} `{Float64 F} (cs1 cs2 : list (Cell F)) :
  allBounds (cs1 ++ cs2) = allBounds cs1 ++ allBounds cs2.
Proof. apply flat_map_app. Qed.

Lemma is_zero_cases (k : float) :
  is_zero k = true <-> k = 0%float \/ k = neg_zero.
Proof.
  split.
  - intros Z. apply is_zero_SF in Z. destruct Z as [[|] E].
    + right. apply Prim2SF_inj. exact E.
    + left. apply Prim2SF_inj. exact E.
  - intros [->| ->]; reflexivity.
Qed.

Lemma div_pos_neg_zero (x : float) :
  (0 <? x)%float = true -> (x / neg_zero)%float = neg_infinity.
Proof.
  intros P. apply Prim2SF_inj. rewrite div_spec.
  rewrite ltb_spec in P. change (Prim2SF 0) with (S754_zero false) in *.
  change (Prim2SF neg_zero) with (S754_zero true).
  unfold SFltb in P.
  destruct (Prim2SF x) as [s|s| |s m e]; simpl in P; try discriminate;
    destruct s; try discriminate; reflexivity.
Qed.

Lemma ltb_nan_l (x m : float) : is_nan x = true -> (x <? m)%float = false.
Proof.
  intros N. apply is_nan_SF in N. unfold SF in N.
  rewrite ltb_spec, N. reflexivity.
Qed.

Lemma ltb_not_nan_l (x m : float) : (x <? m)%float = true -> is_nan x = false.
Proof.
  intros L. destruct (is_nan x) eqn:N; [|reflexivity].
  now rewrite (ltb_nan_l _ m N) in L.
Qed.

Lemma ltb_neg_infinity_r (x : float) : (x <? neg_infinity)%float = false.
Proof.
  rewrite ltb_spec. change (Prim2SF neg_infinity) with (S754_infinity true).
  unfold SFltb. destruct (Prim2SF x) as [s|s| |s m e]; simpl;
    try destruct s; reflexivity.
Qed.

Lemma ltb_neg_infinity_l (m : float) :
  is_nan m = false -> (neg_infinity <? m)%float = false -> m = neg_infinity.
Proof.
  intros N L. apply is_nan_false_SF in N. unfold SF in N.
  apply Prim2SF_inj. rewrite ltb_spec in L.
  change (Prim2SF neg_infinity) with (S754_infinity true) in *.
  unfold SFltb in L.
  destruct (Prim2SF m) as [s|s| |s mm e]; simpl in L;
    try destruct s; try discriminate; congruence.
Qed.

(** A NaN argument after the first does not change [amin]. *)
Lemma amin_skip_nan (v0 x : float) (l1 l2 : list float) :
  is_nan x = true -> amin v0 (l1 ++ x :: l2) = amin v0 (l1 ++ l2).
Proof.
  intros N. rewrite !amin_app. unfold amin at 1.
  cbn [fold_left fltb binary64]. now rewrite ltb_nan_l.
Qed.

Lemma amin_from_neg_infinity (l : list float) :
  amin neg_infinity l = neg_infinity.
Proof.
  induction l as [|a l IH]; [reflexivity|].
  unfold amin in *. cbn [fold_left fltb binary64].
  now rewrite ltb_neg_infinity_r.
Qed.

(** Once [-Inf] is among the arguments, [amin] is [-Inf], unless its
    first argument is not a number. *)
Lemma amin_neg_infinity (v0 : float) (l : list float) :
  is_nan v0 = false -> In neg_infinity (v0 :: l) ->
  amin v0 l = neg_infinity.
Proof.
  revert v0. induction l as [|a l IH]; intros v0 N [E|I].
  - now subst.
  - destruct I.
  - subst. apply amin_from_neg_infinity.
  - unfold amin in *. cbn [fold_left fltb binary64].
    destruct (a <? v0)%float eqn:L.
    + apply IH; [now apply ltb_not_nan_l in L|].
      destruct I as [<-|I]; [now left|now right].
    + destruct I as [E|I].
      * subst a. apply ltb_neg_infinity_l in L; [|exact N]. subst.
        apply (amin_from_neg_infinity l).
      * apply IH; [exact N|now right].
Qed.

Lemma aminOf_neg_infinity (dflt : float) (l1 l2 : list float) (b : float) :
  is_nan (hd b l1) = false -> In neg_infinity (b :: l2) ->
  aminOf dflt (l1 ++ b :: l2) = neg_infinity.
Proof.
  intros N I. destruct l1 as [|a l1]; cbn [app aminOf hd] in *.
  - now apply amin_neg_infinity.
  - apply amin_neg_infinity; [exact N|]. right. apply in_or_app. now right.
Qed.

(** [setTstepCFL] in closed form, for every domain. *)
Lemma setTstepCFL_closed {F : Type} `{Float64 F} (d : InMAPdata F) :
  setTstepCFL d = withDt d (aminOf (Dt d) (allBounds (Cells d))).
Proof. rewrite <- setTstepCFL_min. reflexivity. Qed.

(** C4, as the code has it.  A vertical diffusivity that is a zero, under
    a positive numerator, makes the vertical-diffusion bound infinite with
    the sign of the zero.  For [+0] the bound is [+Inf] and [Dt] is the
    minimum of the other bounds; so does a [+0] horizontal diffusivity
    for the two horizontal bounds, and a [+0] largest normalized speed
    makes the advective bound [+Inf].  For [-0.0] the bound is [-Inf],
    which is not excluded: [Dt] is [-Inf], unless the first bound of the
    first cell is not a number; the same holds for the horizontal
    diffusivity and for the largest normalized speed.  [+0] and [-0.0]
    are the only zeros.  A [+Inf] bound, or a bound that is not a number,
    after the first never changes [amin].  [setTstepCFL] has no operation
    that fails: for every domain it returns the domain with [Dt] the
    [amin] of all bounds in the order of the cells, or with its [Dt] when
    it has no cell. *)
Theorem zero_diffusivity_excluded (d : InMAPdata float)
    (cs1 : list (Cell float)) (c : Cell float) (cs2 : list (Cell float)) :
  Cells d = cs1 ++ c :: cs2 ->
  (Kzz c = 0%float ->
   (0 <? Cmax * Dz c * Dz c / 2)%float = true ->
   dt2 c = infinity /\
   Dt (setTstepCFL d)
   = aminOf (Dt d) (allBounds cs1 ++ [dt1 c; dt3 c; dt4 c] ++ allBounds cs2))
  /\
  (Kxxyy c = 0%float ->
   (0 <? Cmax * Dx c * Dx c / 2)%float = true ->
   (0 <? Cmax * Dy c * Dy c / 2)%float = true ->
   dt3 c = infinity /\ dt4 c = infinity /\
   Dt (setTstepCFL d)
   = aminOf (Dt d) (allBounds cs1 ++ [dt1 c; dt2 c] ++ allBounds cs2))
  /\
  (max (normalizedSpeedX c) [normalizedSpeedY c; normalizedSpeedZ c]
   = 0%float ->
   dt1 c = infinity)
  /\
  (forall v0 l1 l2, amin v0 (l1 ++ infinity :: l2) = amin v0 (l1 ++ l2))
  /\
  (Kzz c = neg_zero ->
   (0 <? Cmax * Dz c * Dz c / 2)%float = true ->
   dt2 c = neg_infinity /\
   (is_nan (hd (dt1 c) (allBounds cs1)) = false ->
    Dt (setTstepCFL d) = neg_infinity))
  /\
  (Kxxyy c = neg_zero ->
   (0 <? Cmax * Dx c * Dx c / 2)%float = true ->
   (0 <? Cmax * Dy c * Dy c / 2)%float = true ->
   dt3 c = neg_infinity /\ dt4 c = neg_infinity /\
   (is_nan (hd (dt1 c) (allBounds cs1)) = false ->
    Dt (setTstepCFL d) = neg_infinity))
  /\
  (max (normalizedSpeedX c) [normalizedSpeedY c; normalizedSpeedZ c]
   = neg_zero ->
   dt1 c = neg_infinity /\
   (is_nan (hd (dt1 c) (allBounds cs1)) = false ->
    Dt (setTstepCFL d) = neg_infinity))
  /\
  (forall k : float, is_zero k = true <-> k = 0%float \/ k = neg_zero)
  /\
  (forall (v0 x : float) l1 l2,
      is_nan x = true -> amin v0 (l1 ++ x :: l2) = amin v0 (l1 ++ l2))
  /\
  (forall d' : InMAPdata float,
      setTstepCFL d' = withDt d' (aminOf (Dt d') (allBounds (Cells d')))).
Proof.
  intros E.
  assert (B : allBounds (Cells d)
              = allBounds cs1 ++ dt1 c :: dt2 c :: dt3 c :: dt4 c
                               :: allBounds cs2).
  { rewrite E, allBounds_app. reflexivity. }
  assert (Z : forall k x : float,
             k = 0%float -> (0 <? x)%float = true -> (x / k)%float = infinity).
  { intros k x -> P. now apply div_pos_zero. }
  assert (Zn : forall k x : float,
             k = neg_zero -> (0 <? x)%float = true ->
             (x / k)%float = neg_infinity).
  { intros k x -> P. now apply div_pos_neg_zero. }
  assert (Low : In neg_infinity [dt1 c; dt2 c; dt3 c; dt4 c] ->
                is_nan (hd (dt1 c) (allBounds cs1)) = false ->
                Dt (setTstepCFL d) = neg_infinity).
  { intros I N. rewrite setTstepCFL_min, B.
    apply aminOf_neg_infinity; [exact N|].
    cbn [In] in *. tauto. }
  repeat match goal with |- _ /\ _ => split end.
  - intros K P.
    assert (I : dt2 c = infinity) by (unfold dt2; cbn [fdiv binary64]; auto).
    split; [exact I|].
    rewrite setTstepCFL_min, B, I. apply aminOf_skip_infinity.
  - intros K Px Py.
    assert (I3 : dt3 c = infinity) by (unfold dt3; cbn [fdiv binary64]; auto).
    assert (I4 : dt4 c = infinity) by (unfold dt4; cbn [fdiv binary64]; auto).
    split; [exact I3|]. split; [exact I4|].
    rewrite setTstepCFL_min, B, I3, I4.
    change (allBounds cs1 ++ dt1 c :: dt2 c :: infinity :: infinity
                               :: allBounds cs2)
      with (allBounds cs1 ++ [dt1 c] ++ dt2 c :: infinity
                               :: (infinity :: allBounds cs2)).
    rewrite app_assoc, !aminOf_skip_infinity, <- app_assoc. reflexivity.
  - intros M. unfold dt1. fold (normalizedSpeedX c) (normalizedSpeedY c)
      (normalizedSpeedZ c). rewrite M. reflexivity.
  - intros. apply amin_skip_infinity.
  - intros K P.
    assert (I : dt2 c = neg_infinity)
      by (unfold dt2; cbn [fdiv binary64]; auto).
    split; [exact I|]. apply Low. rewrite I. cbn [In]. tauto.
  - intros K Px Py.
    assert (I3 : dt3 c = neg_infinity)
      by (unfold dt3; cbn [fdiv binary64]; auto).
    assert (I4 : dt4 c = neg_infinity)
      by (unfold dt4; cbn [fdiv binary64]; auto).
    split; [exact I3|]. split; [exact I4|].
    apply Low. rewrite I3. cbn [In]. tauto.
  - intros M.
    assert (I : dt1 c = neg_infinity).
    { unfold dt1. fold (normalizedSpeedX c) (normalizedSpeedY c)
        (normalizedSpeedZ c). rewrite M. reflexivity. }
    split; [exact I|]. apply Low. now left.
  - apply is_zero_cases.
  - intros. now apply amin_skip_nan.
  - intros d'. apply setTstepCFL_closed.
Qed.

Lemma zero_diffusivity_excluded_witness :
  (dt2 zeroKzzCell = infinity /\
   Dt (setTstepCFL (sampleDomain [zeroKzzCell]))
   = aminOf 0%float ([] ++ [dt1 zeroKzzCell; dt3 zeroKzzCell; dt4 zeroKzzCell]
                        ++ []))
  /\
  (dt2 negZeroKzzCell = neg_infinity /\
   Dt (setTstepCFL (sampleDomain [negZeroKzzCell])) = neg_infinity).
Proof.
  split.
  - apply (proj1 (@zero_diffusivity_excluded (sampleDomain [zeroKzzCell]) []
                    zeroKzzCell [] eq_refl)); reflexivity.
  - destruct (proj1 (proj2 (proj2 (proj2 (proj2
               (@zero_diffusivity_excluded (sampleDomain [negZeroKzzCell]) []
                  negZeroKzzCell [] eq_refl))))) eq_refl eq_refl)
      as [I D].
    split; [exact I|]. apply D. reflexivity.
Defined.

(** C4 fails as stated: a non-positive diffusivity that is negative gives
    a negative, finite bound, which is not excluded from the minimum but
    becomes [Dt]. *)
Lemma negative_diffusivity_bound :
  (Kzz negativeKzzCell <=? 0)%float = true /\
  dt2 negativeKzzCell = (-0.5)%float /\
  is_infinity (dt2 negativeKzzCell) = false /\
  Dt (setTstepCFL (sampleDomain [negativeKzzCell])) = (-0.5)%float.
Proof. repeat split. Qed.

(* ------------------------------------------------------------------ *)
(** *** Monotonicity in the grid size, in exact arithmetic *)













(** The same comparison on one cell in the arithmetic of the program:
    [Dt] is the advective bound, and doubles. *)
Lemma doubling_extents_binary64_sample :
  Dt (setTstepCFL (sampleDomain [breezyCell64]))
  = 0x1.7181116f43fe4p+3%float /\
  Dt (setTstepCFL (sampleDomain [scaleExtents 2%float breezyCell64]))
  = 0x1.7181116f43fe4p+4%float.
Proof. split; reflexivity. Qed.


(* ================================================================== *)
(** ** Output accessor *)

Lemma SF_add (x y : float) : SF (x + y)%float = SF64add (SF x) (SF y).
Proof. apply add_spec. Qed.

Lemma sameValue_refl (x : float) : sameValue x x.
Proof. now left. Qed.

Lemma add_zero_same (x : float) : sameValue (0 + x)%float x.
Proof.
  destruct (is_zero x) eqn:Z.
  - right. split; [|exact Z]. apply is_zero_SF in Z. destruct Z as [s Z].
    apply is_zero_SF. rewrite SF_add, Z. change (SF 0) with (S754_zero false).
    destruct s; simpl; eauto.
  - left. apply Prim2SF_inj. fold (SF (0 + x)%float) (SF x). rewrite SF_add.
    change (SF 0) with (S754_zero false).
    destruct (SF x) as [s|s| |s m e] eqn:E; try reflexivity.
    assert (is_zero x = true) by (apply is_zero_SF; eauto). congruence.
Qed.

Lemma add_same (u v w : float) :
  sameValue u v -> sameValue (u + w)%float (v + w)%float.
Proof.
  intros [->|[Zu Zv]]; [now left|].
  apply is_zero_SF in Zu, Zv. destruct Zu as [su Zu], Zv as [sv Zv].
  destruct (SF w) as [s|s| |s m e] eqn:E.
  - right. split; apply is_zero_SF; rewrite SF_add, ?Zu, ?Zv, E;
      [destruct su, s|destruct sv, s]; simpl; eauto.
  - left. apply Prim2SF_inj. fold (SF (u + w)%float) (SF (v + w)%float).
    now rewrite !SF_add, Zu, Zv, E.
  - left. apply Prim2SF_inj. fold (SF (u + w)%float) (SF (v + w)%float).
    now rewrite !SF_add, Zu, Zv, E.
  - left. apply Prim2SF_inj. fold (SF (u + w)%float) (SF (v + w)%float).
    now rewrite !SF_add, Zu, Zv, E.
Qed.

(** C10.  For a cell with its nine concentrations, [getValue] of
    "TotalPM2_5" is the sum, accumulated from zero in this order, of
    Cf[iPM2_5]*1, Cf[ipOrg]*1, Cf[ipNH]*1, Cf[ipS]*NtoNH4 and
    Cf[ipNO]*StoSO4, which is the same number as the sum without the
    leading zero; coefficients pair with indices by position, and the
    sixth coefficient of the list takes no part: any value in its place
    gives the same result. *)
Theorem getValue_TotalPM2_5 (popNames : list string) (RRpm25Linear : float -> float)
    (Deaths : float -> float -> float -> float) (c : Cell float) :
  List.length (Cf c) = 9 ->
  getValue popNames RRpm25Linear Deaths c "TotalPM2_5"
  = Done (0 + CfAt c iPM2_5 * 1 + CfAt c ipOrg * 1 + CfAt c ipNH * 1
          + CfAt c ipS * NtoNH4 + CfAt c ipNO * StoSO4)%float
  /\
  sameValue
    (0 + CfAt c iPM2_5 * 1 + CfAt c ipOrg * 1 + CfAt c ipNH * 1
     + CfAt c ipS * NtoNH4 + CfAt c ipNO * StoSO4)%float
    (CfAt c iPM2_5 * 1 + CfAt c ipOrg * 1 + CfAt c ipNH * 1
     + CfAt c ipS * NtoNH4 + CfAt c ipNO * StoSO4)%float
  /\
  forall sixth : float,
    sumConc c [fofZ 1; fofZ 1; fofZ 1; NtoNH4; StoSO4; sixth] 0
      [iPM2_5; ipOrg; ipNH; ipS; ipNO] (fofZ 0)
    = getValue popNames RRpm25Linear Deaths c "TotalPM2_5".
Proof.
  intros L. unfold CfAt.
  destruct (Cf c) as [|a0 [|a1 [|a2 [|a3 [|a4 [|a5 [|a6 [|a7 [|a8 [|]]]]]]]]]]
    eqn:E; try discriminate L.
  assert (G : getValue popNames RRpm25Linear Deaths c "TotalPM2_5"
              = Done (0 + a2 * 1 + a1 * 1 + a4 * 1 + a6 * NtoNH4
                      + a8 * StoSO4)%float).
  { unfold getValue, getValueBody. cbn [lookup emisLabels String.eqb Ascii.eqb Bool.eqb].
    cbn [lookup polLabels String.eqb Ascii.eqb Bool.eqb conversion index].
    cbn [sumConc]. rewrite E. reflexivity. }
  split; [exact G|split].
  - cbn [nth iPM2_5 ipOrg ipNH ipS ipNO]. repeat apply add_same.
    apply add_zero_same.
  - intros sixth. rewrite G. cbn [sumConc]. rewrite E. reflexivity.
Qed.

Lemma getValue_TotalPM2_5_witness :
  getValue [] (fun x => x) (fun x _ _ => x) loadedCell "TotalPM2_5"
  = Done (0 + CfAt loadedCell iPM2_5 * 1 + CfAt loadedCell ipOrg * 1
          + CfAt loadedCell ipNH * 1 + CfAt loadedCell ipS * NtoNH4
          + CfAt loadedCell ipNO * StoSO4)%float.
Proof.
  apply (@getValue_TotalPM2_5 [] (fun x => x) (fun x _ _ => x) loadedCell).
  reflexivity.
Defined.

(* ------------------------------------------------------------------ *)
(** *** Name resolution *)

Lemma lookup_hasKey {A} (m : list (string * A)) (k : string) :
  hasKey (map fst m) k = match lookup m k with Some _ => true | None => false end.
Proof.
  induction m as [|[k' v] m IH]; [reflexivity|].
  cbn [map fst hasKey existsb lookup]. destruct (String.eqb k k'); [reflexivity|].
  exact IH.
Qed.

Lemma lookup_In {A} (m : list (string * A)) (k : string) (v : A) :
  lookup m k = Some v -> In v (map snd m).
Proof.
  induction m as [|[k' v'] m IH]; [discriminate|].
  cbn [lookup map snd]. destruct (String.eqb k k').
  - intros [= <-]. now left.
  - intros E. right. auto.
Qed.

Section Names.
Context {F : Type} `{Float64 F}.
Variable popNames : list string.
Variable RRpm25Linear : F -> F.
Variable Deaths : F -> F -> F -> F.

Lemma emissionsCase_accepts (pol : string) :
  emissionsCase (F:=F) pol = None <-> ~ In pol EmisNames.
Proof.
  unfold emissionsCase, EmisNames. cbn [In].
  repeat match goal with
         | |- context [String.eqb pol ?s] =>
             destruct (String.eqb_spec pol s);
             [subst; split; [discriminate|intros N; exfalso; apply N; tauto]|]
         end.
  split; [|reflexivity]. intros _ N.
  repeat destruct N as [N|N]; try congruence; exact N.
Qed.

Lemma emissionsLoop_unknown (emissions : list (string * list F)) :
  (exists pol arr, In (pol, arr) emissions /\ ~ In pol EmisNames) ->
  forall d : InMAPdata F, panics (emissionsLoop d emissions).
Proof.
  induction emissions as [|[pol arr] rest IH]; intros (p & a & Hin & Hp) d.
  - destruct Hin.
  - cbn [emissionsLoop].
    destruct (emissionsCase pol) as [[scale iPol]|] eqn:E; [|exact I].
    destruct (addEmisFlux d arr scale iPol) as [d'|]; [|exact I].
    cbn [bind]. apply IH. destruct Hin as [[= -> ->]|Hin].
    + apply emissionsCase_accepts in Hp. congruence.
    + eauto.
Qed.

(** What the method's call of itself returns does not depend on [self]. *)
Lemma getValueBody_TotalPM2_5 (self : Cell F -> string -> outcome F) (c : Cell F) :
  getValueBody popNames RRpm25Linear Deaths self c "TotalPM2_5"
  = sumConc c [fofZ 1; fofZ 1; fofZ 1; NtoNH4; StoSO4; NtoNO3] 0
      [iPM2_5; ipOrg; ipNH; ipS; ipNO] (fofZ 0).
Proof. reflexivity. Qed.

(** [getValue] satisfies the recursive equation of the method. *)
Lemma getValue_eqn (c : Cell F) (varName : string) :
  getValue popNames RRpm25Linear Deaths c varName
  = getValueBody popNames RRpm25Linear Deaths
      (getValue popNames RRpm25Linear Deaths) c varName.
Proof.
  unfold getValue at 1. unfold getValueBody at 1 3.
  destruct (lookup emisLabels varName); [reflexivity|].
  destruct (lookup polLabels varName); [reflexivity|].
  destruct (hasKey popNames varName); [reflexivity|].
  destruct (hasKey popNames _); [|reflexivity].
  unfold getValue. now rewrite !getValueBody_TotalPM2_5.
Qed.

Lemma elem_Done {A} (l : list A) (i : nat) :
  i < List.length l -> exists a, elem l i = Done a.
Proof.
  intros L. unfold elem. destruct (nth_error l i) eqn:E; [eauto|].
  apply nth_error_None in E. lia.
Qed.

Lemma sumConc_polLabels (c : Cell F) (pc : polConv F) :
  List.length (Cf c) = 9 -> In pc (map snd polLabels) ->
  exists v, sumConc c (conversion pc) 0 (index pc) (fofZ 0) = Done v.
Proof.
  intros L Hin.
  destruct (Cf c) as [|a0 [|a1 [|a2 [|a3 [|a4 [|a5 [|a6 [|a7 [|a8 [|]]]]]]]]]]
    eqn:E; try discriminate L.
  cbn [map snd polLabels In] in Hin.
  repeat destruct Hin as [<-|Hin]; try destruct Hin;
    cbn [sumConc conversion index]; rewrite E; cbn; eauto.
Qed.

End Names.

Lemma setElem_Done {A} (l : list A) (i : nat) (a : A) :
  i < List.length l ->
  exists l', setElem l i a = Done l' /\ List.length l' = List.length l /\
             forall P : A -> Prop, Forall P l -> P a -> Forall P l'.
Proof.
  revert i. induction l as [|x l IH]; intros i L; cbn [List.length] in L; [lia|].
  destruct i as [|i]; cbn [setElem].
  - eexists. split; [reflexivity|]. split; [reflexivity|].
    intros P HP Pa. inversion HP; subst. now constructor.
  - destruct (IH i) as (l' & E & Len & HP); [lia|]. rewrite E. cbn [bind].
    eexists. split; [reflexivity|]. split; [cbn [List.length]; lia|].
    intros P HF Pa. inversion HF; subst. constructor; auto.
Qed.

Section Emissions.
Context {F : Type} `{Float64 F}.

Lemma addEmisFluxLoop_Done (arr : list F) (scale : F) (iPol : nat) :
  iPol < 9 ->
  forall (cells : list (Cell F)) (row : nat),
    Forall fluxReady cells ->
    row + List.length arr <= List.length cells ->
    exists cells', addEmisFluxLoop cells row arr scale iPol = Done cells' /\
                   Forall fluxReady cells' /\
                   List.length cells' = List.length cells.
Proof.
  intros Hi. induction arr as [|val arr IH]; intros cells row R L.
  - exists cells. split; [reflexivity|]. split; [assumption|reflexivity].
  - cbn [List.length] in L. cbn [addEmisFluxLoop].
    destruct (@elem_Done _ cells row) as (c & Ec); [lia|]. rewrite Ec. cbn [bind].
    assert (Rc : fluxReady c).
    { unfold elem in Ec. destruct (nth_error cells row) eqn:N; [|discriminate].
      injection Ec as ->. eapply Forall_forall; [exact R|].
      eapply nth_error_In; eassumption. }
    destruct (@setElem_Done _ (emisFlux c) iPol
                (fmul (fmul val scale)
                   (fdiv (fdiv (fdiv (fofZ 1) (Dx c)) (Dy c)) (Dz c))))
      as (flux & Ef & Lf & _); [unfold fluxReady in Rc; lia|].
    rewrite Ef. cbn [bind].
    destruct (@setElem_Done _ cells row (withConc c (Ci c) (Cf c) flux))
      as (cells' & Es & Ls & Ps); [lia|].
    rewrite Es. cbn [bind].
    destruct (IH cells' (S row)) as (cells'' & E' & R' & L').
    + apply Ps; [exact R|]. unfold fluxReady in *. cbn. lia.
    + lia.
    + exists cells''. repeat split; [exact E'|exact R'|lia].
Qed.

Lemma emissionsLoop_Done (emissions : list (string * list F)) :
  forall d : InMAPdata F,
    Forall fluxReady (Cells d) ->
    (forall pol arr, In (pol, arr) emissions ->
       In pol EmisNames /\ List.length arr <= List.length (Cells d)) ->
    exists d', emissionsLoop d emissions = Done d'.
Proof.
  induction emissions as [|[pol arr] rest IH]; intros d R Hall.
  - eexists. reflexivity.
  - cbn [emissionsLoop].
    destruct (Hall pol arr (or_introl eq_refl)) as [Hp Hl].
    destruct (emissionsCase pol) as [[scale iPol]|] eqn:E.
    2:{ apply emissionsCase_accepts in E. contradiction. }
    assert (Hi : iPol < 9).
    { unfold emissionsCase in E.
      repeat match type of E with
             | (if ?b then _ else _) = _ => destruct b
             end; inversion E; subst;
        unfold igOrg, igNO, igNH, igS, iPM2_5; lia. }
    unfold addEmisFlux.
    destruct (@addEmisFluxLoop_Done arr scale iPol Hi (Cells d) 0 R)
      as (cells' & Ec & Rc & Lc); [cbn; lia|].
    rewrite Ec. cbn [bind]. apply IH.
    + exact Rc.
    + intros p a Hin. destruct (Hall p a (or_intror Hin)) as [? ?].
      split; [assumption|]. cbn [Cells withCells]. lia.
Qed.

End Emissions.

Lemma getValue_panics_iff (popNames : list string)
    (RRpm25Linear : float -> float) (Deaths : float -> float -> float -> float)
    (c : Cell float) (varName : string) :
  List.length (Cf c) = 9 -> List.length (emisFlux c) = 9 ->
  (panics (getValue popNames RRpm25Linear Deaths c varName) <->
   reachesFallback popNames varName = true /\ isFloatField varName = false).
Proof.
  intros LC LE. unfold reachesFallback. rewrite !lookup_hasKey.
  unfold getValue. unfold getValueBody at 1.
  destruct (lookup emisLabels varName) as [i|] eqn:E1.
  { apply lookup_In in E1. cbn [map snd emisLabels In] in E1.
    destruct (@elem_Done _ (emisFlux c) i) as (v & ->).
    { unfold igOrg, igNO, igNH, igS, iPM2_5 in E1. lia. }
    cbn. split; [intros []|intros [? _]; discriminate]. }
  destruct (lookup polLabels varName) as [pc|] eqn:E2.
  { apply lookup_In in E2.
    destruct (sumConc_polLabels c LC E2) as (v & ->).
    cbn. split; [intros []|intros [? _]; discriminate]. }
  destruct (hasKey popNames varName).
  { cbn. split; [intros []|intros [? _]; discriminate]. }
  destruct (hasKey popNames (removeFirst deathsSuffix varName)).
  { rewrite getValueBody_TotalPM2_5.
    destruct (@sumConc_polLabels _ _ c
                (mkPolConv [iPM2_5; ipOrg; ipNH; ipS; ipNO]
                   [fofZ 1; fofZ 1; fofZ 1; NtoNH4; StoSO4; NtoNO3]) LC)
      as (v & Ev); [now left|].
    cbn [conversion index] in Ev. rewrite Ev.
    cbn. split; [intros []|intros [? _]; discriminate]. }
  unfold isFloatField.
  destruct (FieldByName varName) as [[[get|k] u]|]; cbn;
    split; try tauto; try (intros [_ ?]; discriminate).
Qed.

Lemma getUnits_panics_iff (popNames : list string) (d : InMAPdata float)
    (varName : string) :
  panics (getUnits popNames d varName) <->
  reachesFallback popNames varName = true /\
  (Cells d = [] \/ isField varName = false).
Proof.
  unfold reachesFallback, getUnits.
  destruct (hasKey (map fst emisLabels) varName);
    [cbn; split; [intros []|intros [? _]; discriminate]|].
  destruct (hasKey (map fst polLabels) varName);
    [cbn; split; [intros []|intros [? _]; discriminate]|].
  destruct (hasKey popNames varName);
    [cbn; split; [intros []|intros [? _]; discriminate]|].
  destruct (hasKey popNames (removeFirst deathsSuffix varName));
    [cbn; split; [intros []|intros [? _]; discriminate]|].
  unfold isField.
  destruct (FieldByName (F:=float) varName) as [[f u]|];
    destruct (Cells d) as [|c0 cells]; cbn.
  - split; [intros _; split; [reflexivity|now left]|trivial].
  - split; [intros []|intros [_ [?|?]]; discriminate].
  - split; [intros _; split; [reflexivity|now left]|trivial].
  - split; [intros _; split; [reflexivity|now right]|trivial].
Qed.

(** C7, as the code has it.  The emissions switch has no case exactly for
    the names outside [EmisNames], and [Run] panics before its main loop
    when the emissions map holds one; with accepted names only, and no
    array longer than the cell list, it reaches the main loop.  For a cell
    with its nine concentrations and fluxes, [getValue] panics exactly
    when the name reaches the last case and is not the name of a
    [float64] field of [Cell]: a name of no field and a name of a field of
    another kind both abort.  [getUnits] panics exactly when the name
    reaches the last case and either there is no cell or no field has
    that name. *)
Theorem name_resolution_failures (popNames : list string)
    (RRpm25Linear : float -> float)
    (Deaths : float -> float -> float -> float) :
  (forall pol, emissionsCase (F:=float) pol = None <-> ~ In pol EmisNames)
  /\
  (forall (d : InMAPdata float) emissions,
      (exists pol arr, In (pol, arr) emissions /\ ~ In pol EmisNames) ->
      panics (RunEmissions d emissions))
  /\
  (forall (d : InMAPdata float) emissions,
      (forall pol arr, In (pol, arr) emissions ->
         In pol EmisNames /\ List.length arr <= List.length (Cells d)) ->
      exists d', RunEmissions d emissions = Done d')
  /\
  (forall (c : Cell float) varName,
      List.length (Cf c) = 9 -> List.length (emisFlux c) = 9 ->
      (panics (getValue popNames RRpm25Linear Deaths c varName) <->
       reachesFallback popNames varName = true /\
       isFloatField varName = false))
  /\
  (forall (d : InMAPdata float) varName,
      panics (getUnits popNames d varName) <->
      reachesFallback popNames varName = true /\
      (Cells d = [] \/ isField varName = false)).
Proof.
  split; [exact emissionsCase_accepts|].
  split; [intros d emissions U; now apply emissionsLoop_unknown|].
  split.
  { intros d emissions Hall. apply emissionsLoop_Done.
    - unfold resetConc. cbn [Cells withCells]. apply Forall_forall.
      intros c Hc. apply in_map_iff in Hc. destruct Hc as (c0 & <- & _).
      reflexivity.
    - intros pol arr Hin. destruct (Hall pol arr Hin) as [? ?].
      split; [assumption|]. unfold resetConc. cbn [Cells withCells].
      now rewrite length_map. }
  split; [intros; now apply getValue_panics_iff|].
  intros. apply getUnits_panics_iff.
Qed.

(** C7 fails as stated: a name that reaches the last case of [getValue]
    and does match a field aborts too, when the field is not a [float64].
    "Layer" is a field of [Cell], of kind [int]. *)
Lemma getValue_Layer_panics :
  reachesFallback ["TotalPop"%string] "Layer" = true /\
  isField "Layer" = true /\
  getValue ["TotalPop"%string] (fun x => x) (fun x _ _ => x) loadedCell "Layer"
  = Panic (ReflectNotFloat "Layer").
Proof. repeat split. Qed.

(* ------------------------------------------------------------------ *)
(** *** Read locks during extraction *)

Section Locks.
Context {F : Type} `{Float64 F}.
Variable popNames : list string.
Variable RRpm25Linear : F -> F.
Variable Deaths : F -> F -> F -> F.

Lemma readers_RLock (c : Cell F) :
  readers (RWMutex (RLock c)) = S (readers (RWMutex c)).
Proof. reflexivity. Qed.

Lemma readers_RUnlock_RLock (c : Cell F) :
  readers (RWMutex (RUnlock (RLock c))) = readers (RWMutex c).
Proof. reflexivity. Qed.

Lemma Layer_RLock (c : Cell F) : Layer (RLock c) = Layer c.
Proof. reflexivity. Qed.

Lemma toArrayLoop_locks (pol : string) (layer : Z) (cells : list (Cell F)) :
  forall o o' cells',
    toArrayLoop popNames RRpm25Linear Deaths cells pol layer o
    = Done (o', cells') ->
    readLocks cells' = locksAfter layer cells.
Proof.
  induction cells as [|c rest IH]; intros o o' cells' E; cbn [toArrayLoop] in E.
  - injection E as <- <-. reflexivity.
  - cbn [locksAfter]. rewrite Layer_RLock in E.
    destruct (Layer c >? layer)%Z.
    + injection E as <- <-. reflexivity.
    + apply bind_Done in E. destruct E as (o1 & _ & E).
      apply bind_Done in E. destruct E as ([o2 rest'] & E2 & E).
      injection E as <- <-. cbn [fst snd readLocks map].
      rewrite readers_RUnlock_RLock. f_equal. exact (IH _ _ _ E2).
Qed.

Lemma GetGeometryLoop_locks (layer : Z) (cells : list (Cell F)) :
  forall o, readLocks (snd (GetGeometryLoop cells layer o))
            = locksAfter layer cells.
Proof.
  induction cells as [|c rest IH]; intros o; cbn [GetGeometryLoop locksAfter].
  - reflexivity.
  - rewrite Layer_RLock. destruct (Layer c >? layer)%Z; [reflexivity|].
    cbn [fst snd readLocks map]. rewrite readers_RUnlock_RLock. f_equal.
    apply IH.
Qed.

Lemma locksAfter_leak (layer : Z) (before : list (Cell F)) (c : Cell F)
    (after : list (Cell F)) :
  Forall (fun b => (Layer b <= layer)%Z) before -> (Layer c > layer)%Z ->
  locksAfter layer (before ++ c :: after)
  = readLocks before ++ S (readers (RWMutex c)) :: readLocks after.
Proof.
  intros HB HC. induction HB as [|b before Hb _ IH]; cbn [app locksAfter].
  - replace (Layer c >? layer)%Z with true by (symmetry; lia). reflexivity.
  - replace (Layer b >? layer)%Z with false by (symmetry; lia).
    cbn [readLocks map app]. f_equal. exact IH.
Qed.

Lemma locksAfter_released (layer : Z) (cells : list (Cell F)) :
  Forall (fun b => (Layer b <= layer)%Z) cells ->
  locksAfter layer cells = readLocks cells.
Proof.
  induction 1 as [|b cells Hb _ IH]; cbn [locksAfter]; [reflexivity|].
  replace (Layer b >? layer)%Z with false by (symmetry; lia).
  cbn [readLocks map]. f_equal. exact IH.
Qed.

(** When the traversal visits every cell, every read lock it took has
    been released when [toArray] returns. *)
Lemma toArray_full_traversal_releases (d d' : InMAPdata F) (pol : string)
    (layer : Z) (o : list F) :
  toArray popNames RRpm25Linear Deaths d pol layer = Done (o, d') ->
  Forall (fun b => (Layer b <= layer)%Z) (Cells d) ->
  heldReadLocks d' = heldReadLocks d.
Proof.
  unfold toArray. intros E HA. apply bind_Done in E.
  destruct E as ([o1 cells'] & E1 & E). injection E as <- <-.
  unfold heldReadLocks. cbn [Cells withCells snd].
  fold (readLocks cells') (readLocks (Cells d)).
  rewrite (toArrayLoop_locks _ _ _ _ E1). now apply locksAfter_released.
Qed.

(** [GetGeometry] returns early in the same way, with the same effect. *)
Lemma GetGeometry_early_exit_keeps_lock (d : InMAPdata F) (layer : Z)
    (before : list (Cell F)) (c : Cell F) (after : list (Cell F)) :
  Cells d = before ++ c :: after ->
  Forall (fun b => (Layer b <= layer)%Z) before -> (Layer c > layer)%Z ->
  heldReadLocks (snd (GetGeometry d layer))
  = readLocks before ++ S (readers (RWMutex c)) :: readLocks after.
Proof.
  intros E HB HC. unfold GetGeometry, heldReadLocks. cbn [Cells withCells snd].
  fold (readLocks (snd (GetGeometryLoop (Cells d) layer []))).
  rewrite GetGeometryLoop_locks, E. now apply locksAfter_leak.
Qed.

End Locks.

(** C5, what the code does instead.  When [toArray] returns after meeting
    a cell above the requested layer, the read lock it took on that cell
    is still held: the count of that cell is one more than before the
    call, and the counts of all other cells are as before.  The early
    [return o] stands between [c.RLock()] and [c.RUnlock()]. *)
Theorem toArray_early_exit_keeps_lock (popNames : list string)
    (RRpm25Linear : float -> float)
    (Deaths : float -> float -> float -> float)
    (d d' : InMAPdata float) (pol : string) (layer : Z) (o : list float)
    (before : list (Cell float)) (c : Cell float) (after : list (Cell float)) :
  toArray popNames RRpm25Linear Deaths d pol layer = Done (o, d') ->
  Cells d = before ++ c :: after ->
  Forall (fun b => (Layer b <= layer)%Z) before -> (Layer c > layer)%Z ->
  heldReadLocks d'
  = readLocks before ++ S (readers (RWMutex c)) :: readLocks after.
Proof.
  unfold toArray. intros E EC HB HC. apply bind_Done in E.
  destruct E as ([o1 cells'] & E1 & E). injection E as <- <-.
  unfold heldReadLocks. cbn [Cells withCells snd]. fold (readLocks cells').
  rewrite (toArrayLoop_locks _ _ _ _ _ _ _ E1), EC.
  now apply locksAfter_leak.
Qed.

Lemma toArray_early_exit_keeps_lock_witness :
  heldReadLocks twoLayers = [0; 0] /\
  exists o d',
    toArray [] (fun x => x) (fun x _ _ => x) twoLayers "TotalPM2_5" 0
    = Done (o, d') /\
    heldReadLocks d'
    = readLocks [groundCell] ++ [1] ++ readLocks (F:=float) [].
Proof.
  split; [reflexivity|]. eexists. eexists. split; [reflexivity|].
  eapply (@toArray_early_exit_keeps_lock [] (fun x => x) (fun x _ _ => x)
            twoLayers _ "TotalPM2_5" 0%Z _ [groundCell] upperCell []).
  - reflexivity.
  - reflexivity.
  - repeat constructor. cbn. lia.
  - cbn. lia.
Defined.

(** Through [Run]: with ground-level output only, each of the eleven
    extractions (ten concentration variables and the mortality rate; no
    population table here) leaves one more read lock on the first cell
    above the ground. *)
Lemma RunOutput_accumulates_read_locks :
  match RunOutput [] (fun x => x) (fun x _ _ => x) twoLayers false with
  | Done (out, d') =>
      map fst out = outputVariables (F:=float) [] /\
      heldReadLocks d' = [0; 11]
  | Panic _ => False
  end.
Proof. vm_compute. split; reflexivity. Qed.

(* ================================================================== *)
(** ** Science scheduler *)

Module SchedulerFacts.
Import Scheduler.

Lemma upd_same {A} (f : nat -> A) (p : nat) (a : A) : upd f p a p = a.
Proof. unfold upd. now rewrite Nat.eqb_refl. Qed.

Lemma upd_other {A} (f : nat -> A) (p q : nat) (a : A) :
  q <> p -> upd f p a q = f q.
Proof. unfold upd. intros N. apply Nat.eqb_neq in N. now rewrite N. Qed.

Lemma task_eq (t t' : task) : pass t = pass t' -> op t = op t' -> t = t'.
Proof. destruct t, t'; simpl; intros -> ->; reflexivity. Qed.

(** Below the task after [t] are the tasks below [t], and [t]. *)
Lemma taskLt_next (cfg : config) (t t' : task) :
  op t < nfuncs cfg -> op t' < nfuncs cfg ->
  taskLt t' (next cfg t) -> taskLt t' t \/ t' = t.
Proof.
  unfold next, taskLt. intros V V' L.
  destruct (Nat.ltb_spec (S (op t)) (nfuncs cfg)); cbn [pass op] in L.
  - destruct L as [L|[E L]]; [now left; left|].
    destruct (Nat.eq_dec (op t') (op t)) as [Eo|No].
    + right. now apply task_eq.
    + left. right. lia.
  - destruct L as [L|[E L]]; [|lia].
    destruct (Nat.eq_dec (pass t') (pass t)) as [Ep|Np].
    + destruct (Nat.eq_dec (op t') (op t)) as [Eo|No].
      * right. now apply task_eq.
      * left. right. lia.
    + left. left. lia.
Qed.

Lemma consecutive_snoc (cfg : config) (ts : list task) (b : task) :
  op b < nfuncs cfg ->
  consecutive cfg ts b -> consecutive cfg (ts ++ [b]) (next cfg b).
Proof.
  intros V. induction ts as [|t rest IH]; cbn [consecutive app].
  - intros _. split; [exact V|]. split; [reflexivity|exact I].
  - intros (Vt & Nt & C). split; [exact Vt|]. split; [|now apply IH].
    rewrite Nt. destruct rest; reflexivity.
Qed.

Lemma hd_snoc (b b' : task) (ts : list task) :
  hd b' (ts ++ [b]) = hd b ts.
Proof. destruct ts; reflexivity. Qed.

Lemma inv_init (cfg : config) : inv cfg init.
Proof.
  constructor; cbn.
  - discriminate.
  - intros p _. exact I.
  - intros p t c _ _ L. unfold frontier, pending, bound, taskLt in L.
    cbn in L. lia.
  - discriminate.
  - intros newer e older E. destruct newer; discriminate.
Qed.


(** A step of the controlling goroutine that sends nothing keeps the
    invariant when it keeps the next task of every worker. *)
Lemma inv_same_view (cfg : config) (s s' : state) :
  (forall p, p < nprocs cfg -> bound cfg s' p = bound cfg s p) ->
  workers s' = workers s -> funcChan s' = funcChan s -> log s' = log s ->
  (forall k pp, pc s' = Sending k pp -> k < nfuncs cfg /\ pp < nprocs cfg) ->
  inv cfg s -> inv cfg s'.
Proof.
  intros B W C L P [Ipc Ich Idn Irn Ior].
  assert (Pe : forall p, pending s' p = pending s p)
    by (intros p; unfold pending; now rewrite W, C).
  assert (Fe : forall p, p < nprocs cfg -> frontier cfg s' p = frontier cfg s p)
    by (intros p Hp; unfold frontier; now rewrite Pe, B).
  constructor.
  - exact P.
  - intros p Hp. rewrite Pe, B by exact Hp. now apply Ich.
  - intros p t c Hp V Lt A. rewrite L. apply Idn; trivial.
    now rewrite <- Fe.
  - intros p t ii Hp R. rewrite L. apply Irn; trivial. now rewrite <- W.
  - now rewrite L.
Qed.

Lemma afterSend_pc (cfg : config) (k pp : nat) :
  k < nfuncs cfg -> pp < nprocs cfg ->
  forall k' pp', afterSend cfg k pp = Sending k' pp' ->
                 k' < nfuncs cfg /\ pp' < nprocs cfg.
Proof.
  intros Hk Hpp k' pp'. unfold afterSend.
  destruct (Nat.ltb_spec (S pp) (nprocs cfg)).
  - intros [= <- <-]. lia.
  - destruct (Nat.ltb_spec (S k) (nfuncs cfg)); [|discriminate].
    intros [= <- <-]. lia.
Qed.

(** After the send of task [(iteration, k)] to worker [pp], the next task
    of [pp] is the one after it, and the next task of every other worker
    is what it was. *)
Lemma bound_afterSend (cfg : config) (s s' : state) (k pp p : nat) :
  pc s = Sending k pp -> k < nfuncs cfg -> pp < nprocs cfg ->
  pc s' = afterSend cfg k pp -> iteration s' = iteration s ->
  p < nprocs cfg ->
  bound cfg s' p
  = if Nat.eqb p pp then next cfg (mkTask (iteration s) k) else bound cfg s p.
Proof.
  intros Pc Hk Hpp Pc' It Hp. unfold bound. rewrite Pc, Pc', It.
  unfold afterSend, next. cbn [pass op].
  destruct (Nat.eqb_spec p pp) as [->|Np].
  - destruct (Nat.ltb_spec (S pp) (nprocs cfg)).
    + replace (pp <? S pp) with true by (symmetry; apply Nat.ltb_lt; lia).
      reflexivity.
    + destruct (Nat.ltb_spec (S k) (nfuncs cfg)); [|reflexivity].
      replace (pp <? 0) with false by (symmetry; apply Nat.ltb_ge; lia).
      reflexivity.
  - destruct (Nat.ltb_spec (S pp) (nprocs cfg)).
    + destruct (Nat.ltb_spec p pp).
      * replace (p <? S pp) with true by (symmetry; apply Nat.ltb_lt; lia).
        reflexivity.
      * replace (p <? S pp) with false by (symmetry; apply Nat.ltb_ge; lia).
        reflexivity.
    + assert (Lt : p < pp) by lia.
      replace (p <? pp) with true by (symmetry; apply Nat.ltb_lt; lia).
      destruct (Nat.ltb_spec (S k) (nfuncs cfg)).
      * replace (p <? 0) with false by (symmetry; apply Nat.ltb_ge; lia).
        reflexivity.
      * reflexivity.
Qed.

Lemma inv_main (cfg : config) (due timeToQuit : bool) (s s' : state) :
  wellFormed cfg -> inv cfg s ->
  execMain cfg due timeToQuit s = Some s' -> inv cfg s'.
Proof.
  intros [WP WF] Inv E. unfold execMain in E.
  destruct (pc s) as [|k pp| | | |] eqn:Pc.
  - (* wg.Add *)
    injection E as <-. apply inv_same_view with (s := s); cbn; trivial.
    + intros p _. unfold bound. rewrite Pc. cbn [pc iteration]. unfold firstSend.
      replace (0 <? nfuncs cfg) with true by (symmetry; apply Nat.ltb_lt; lia).
      replace (0 <? nprocs cfg) with true by (symmetry; apply Nat.ltb_lt; lia).
      reflexivity.
    + intros k pp. unfold firstSend.
      replace (0 <? nfuncs cfg) with true by (symmetry; apply Nat.ltb_lt; lia).
      replace (0 <? nprocs cfg) with true by (symmetry; apply Nat.ltb_lt; lia).
      intros [= <- <-]. lia.
  - (* a send *)
    destruct (funcChan s pp) as [|? ?] eqn:Ch; [|discriminate].
    injection E as <-.
    destruct Inv as [Ipc Ich Idn Irn Ior].
    destruct (Ipc _ _ Pc) as [Hk Hpp].
    set (tk := mkTask (iteration s) k).
    set (s' := mkState (afterSend cfg k pp) (iteration s)
                 (upd (funcChan s) pp [tk]) (workers s) (wg s) (log s)).
    assert (B : forall p, p < nprocs cfg ->
                bound cfg s' p
                = if Nat.eqb p pp then next cfg tk else bound cfg s p).
    { intros p Hp. now apply bound_afterSend with (k := k). }
    assert (Bpp : bound cfg s pp = tk).
    { unfold bound. rewrite Pc. now rewrite Nat.ltb_irrefl. }
    assert (Ppp : pending s' pp = pending s pp ++ [tk]).
    { unfold pending, s'. cbn [workers funcChan].
      now rewrite upd_same, Ch, app_nil_r. }
    assert (Po : forall p, p <> pp -> pending s' p = pending s p).
    { intros p Np. unfold pending, s'. cbn [workers funcChan].
      now rewrite upd_other. }
    assert (Fr : forall p, p < nprocs cfg ->
                 frontier cfg s' p = frontier cfg s p).
    { intros p Hp. unfold frontier. rewrite (B p Hp).
      destruct (Nat.eqb_spec p pp) as [->|Np].
      - rewrite Ppp, hd_snoc. now rewrite Bpp.
      - now rewrite Po. }
    constructor.
    + now apply afterSend_pc.
    + intros p Hp. rewrite (B p Hp).
      destruct (Nat.eqb_spec p pp) as [->|Np].
      * rewrite Ppp. apply consecutive_snoc; [exact Hk|].
        rewrite <- Bpp. now apply Ich.
      * rewrite Po by exact Np. now apply Ich.
    + intros p t c Hp V Lt A. apply Idn; trivial. now rewrite <- Fr.
    + intros p t ii Hp R. now apply Irn.
    + exact Ior.
  - (* iteration++ and the test of the mode *)
    injection E as <-. apply inv_same_view with (s := s); cbn; trivial.
    + intros p _. unfold bound. rewrite Pc. cbn [pc iteration].
      destruct (numIterations cfg >? 0)%Z;
        [destruct (_ >=? _)%Z|
         destruct due]; reflexivity.
    + intros k pp.
      destruct (numIterations cfg >? 0)%Z;
        [destruct (_ >=? _)%Z|
         destruct due]; discriminate.
  - (* wg.Wait() before break *)
    destruct (wg s =? 0)%Z; [|discriminate]. injection E as <-.
    apply inv_same_view with (s := s); cbn; trivial.
    + intros p _. unfold bound. now rewrite Pc.
    + discriminate.
  - (* wg.Wait() before the check *)
    destruct (wg s =? 0)%Z; [|discriminate]. injection E as <-.
    apply inv_same_view with (s := s); cbn; trivial.
    + intros p _. unfold bound. rewrite Pc. cbn [pc iteration].
      destruct timeToQuit; reflexivity.
    + intros k pp. destruct timeToQuit; discriminate.
  - discriminate.
Qed.


Lemma bound_worker_step (cfg : config) (s s' : state) (p : nat) :
  pc s' = pc s -> iteration s' = iteration s -> bound cfg s' p = bound cfg s p.
Proof. intros P I. unfold bound. now rewrite P, I. Qed.

Lemma inv_recv (cfg : config) (s s' : state) (p : nat) :
  inv cfg s -> exec cfg s (Recv p) = Some s' -> inv cfg s'.
Proof.
  intros [Ipc Ich Idn Irn Ior] E. cbn [exec] in E.
  destruct (Nat.ltb_spec p (nprocs cfg)) as [Hp|]; [|discriminate].
  destruct (workers s p) eqn:W; [|discriminate].
  destruct (funcChan s p) as [|t rest] eqn:C; [discriminate|].
  injection E as <-.
  set (s' := mkState (pc s) (iteration s) (upd (funcChan s) p rest)
               (upd (workers s) p (Running t p)) (wg s) (log s)).
  assert (Pe : forall q, pending s' q = pending s q).
  { intros q. unfold pending, s'. cbn [workers funcChan].
    destruct (Nat.eq_dec q p) as [->|Nq].
    - now rewrite !upd_same, W, C.
    - now rewrite !upd_other. }
  assert (Be : forall q, bound cfg s' q = bound cfg s q)
    by (intros q; now apply bound_worker_step).
  constructor.
  - exact Ipc.
  - intros q Hq. rewrite Pe, Be. now apply Ich.
  - intros q t' c Hq V Lt A. apply Idn; trivial.
    unfold frontier in *. now rewrite Pe, Be in Lt.
  - intros q t' ii Hq R. unfold s' in R. cbn [workers log] in *.
    destruct (Nat.eq_dec q p) as [->|Nq].
    + rewrite upd_same in R. injection R as <- <-. split.
      * exists 0. lia.
      * intros c (_ & _ & j & ->) Lt. lia.
    + rewrite upd_other in R by exact Nq. now apply Irn.
  - exact Ior.
Qed.

Lemma inv_visit (cfg : config) (s s' : state) (p : nat) :
  inv cfg s -> exec cfg s (Visit p) = Some s' -> inv cfg s'.
Proof.
  intros [Ipc Ich Idn Irn Ior] E. cbn [exec] in E.
  destruct (Nat.ltb_spec p (nprocs cfg)) as [Hp|]; [|discriminate].
  destruct (workers s p) as [|t ii] eqn:W; [discriminate|].
  destruct (Nat.ltb_spec ii (ncells cfg)) as [Hii|]; [|discriminate].
  injection E as <-.
  set (l' := if inColumn cfg ii then mkEvent p t ii :: log s else log s).
  set (s' := mkState (pc s) (iteration s) (funcChan s)
               (upd (workers s) p (Running t (ii + nprocs cfg))) (wg s) l').
  assert (Pe : forall q, pending s' q = pending s q).
  { intros q. unfold pending, s'. cbn [workers funcChan].
    destruct (Nat.eq_dec q p) as [->|Nq].
    - now rewrite upd_same, W.
    - now rewrite upd_other. }
  assert (Be : forall q, bound cfg s' q = bound cfg s q)
    by (intros q; now apply bound_worker_step).
  assert (Inc : forall e, In e (log s) -> In e l').
  { intros e He. unfold l'. destruct (inColumn cfg ii); [now right|exact He]. }
  assert (Fp : frontier cfg s p = t).
  { unfold frontier, pending. now rewrite W. }
  assert (Vt : op t < nfuncs cfg).
  { specialize (Ich p Hp). unfold pending in Ich. rewrite W in Ich.
    now destruct Ich. }
  constructor.
  - exact Ipc.
  - intros q Hq. rewrite Pe, Be. now apply Ich.
  - intros q t' c Hq V Lt A. apply Inc. apply Idn; trivial.
    unfold frontier in *. now rewrite Pe, Be in Lt.
  - intros q t' ii' Hq R. unfold s' in R. cbn [workers log] in *.
    destruct (Nat.eq_dec q p) as [->|Nq].
    + rewrite upd_same in R. injection R as <- <-.
      destruct (Irn p t ii Hp W) as [(j & Ej) Done].
      split; [exists (S j); lia|].
      intros c A Lt. destruct (Nat.lt_ge_cases c ii) as [Lc|Gc].
      * apply Inc. now apply Done.
      * destruct A as (Hc & Col & j' & Ec).
        assert (Hci : c = ii).
        { destruct (Nat.lt_trichotomy j' j) as [L|[->|G]]; [|lia|].
          - pose proof (Nat.mul_le_mono_r (S j') j (nprocs cfg) L). lia.
          - pose proof (Nat.mul_le_mono_r (S j) j' (nprocs cfg) G). lia. }
        rewrite Hci in Col |- *. unfold s', l'. cbn [log]. rewrite Col.
        now left.
    + rewrite upd_other in R by exact Nq.
      destruct (Irn q t' ii' Hq R) as [J Done]. split; [exact J|].
      intros c A Lt. apply Inc. now apply Done.
  - cbn [log]. unfold l'. destruct (inColumn cfg ii); [|exact Ior].
    intros newer e older E k c Sk A.
    destruct newer as [|x newer]; cbn [app] in E.
    + injection E as <- <-. cbn [proc what pass op] in *. apply Idn; trivial.
      * cbn [op]. lia.
      * rewrite Fp. right. cbn [pass op]. split; [reflexivity|lia].
    + injection E as _ E. eapply Ior; [exact E|exact Sk|exact A].
Qed.

Lemma inv_finish (cfg : config) (s s' : state) (p : nat) :
  inv cfg s -> exec cfg s (Finish p) = Some s' -> inv cfg s'.
Proof.
  intros [Ipc Ich Idn Irn Ior] E. cbn [exec] in E.
  destruct (Nat.ltb_spec p (nprocs cfg)) as [Hp|]; [|discriminate].
  destruct (workers s p) as [|t ii] eqn:W; [discriminate|].
  destruct (Nat.ltb_spec ii (ncells cfg)) as [|Hii]; [discriminate|].
  injection E as <-.
  set (s' := mkState (pc s) (iteration s) (funcChan s)
               (upd (workers s) p Idle) (wg s - 1) (log s)).
  assert (Pp : pending s p = t :: pending s' p).
  { unfold pending, s'. cbn [workers funcChan]. now rewrite upd_same, W. }
  assert (Po : forall q, q <> p -> pending s' q = pending s q).
  { intros q Nq. unfold pending, s'. cbn [workers funcChan].
    now rewrite upd_other. }
  assert (Be : forall q, bound cfg s' q = bound cfg s q)
    by (intros q; now apply bound_worker_step).
  pose proof (Ich p Hp) as Cp. rewrite Pp in Cp. cbn [consecutive] in Cp.
  destruct Cp as (Vt & Nt & Cp).
  constructor.
  - exact Ipc.
  - intros q Hq. rewrite Be. destruct (Nat.eq_dec q p) as [->|Nq].
    + exact Cp.
    + rewrite Po by exact Nq. now apply Ich.
  - intros q t' c Hq V Lt A. cbn [log]. destruct (Nat.eq_dec q p) as [->|Nq].
    + unfold frontier in Lt. rewrite Be, <- Nt in Lt.
      destruct (@taskLt_next cfg t t' Vt V Lt) as [L| ->].
      * apply Idn; trivial. unfold frontier. now rewrite Pp.
      * destruct (Irn p t ii Hp W) as [_ Done]. apply Done; [exact A|].
        destruct A as (Hc & _). lia.
    + apply Idn; trivial. unfold frontier in *. now rewrite Po, Be in Lt.
  - intros q t' ii' Hq R. unfold s' in R. cbn [workers log] in *.
    destruct (Nat.eq_dec q p) as [->|Nq].
    + rewrite upd_same in R. discriminate.
    + rewrite upd_other in R by exact Nq. now apply Irn.
  - exact Ior.
Qed.

Lemma inv_step (cfg : config) (s s' : state) (a : action) :
  wellFormed cfg -> inv cfg s -> exec cfg s a = Some s' -> inv cfg s'.
Proof.
  intros WF Inv E. destruct a as [due q|p|p|p].
  - now apply inv_main with (due := due) (timeToQuit := q) (s := s).
  - now apply inv_recv with (s := s) (p := p).
  - now apply inv_visit with (s := s) (p := p).
  - now apply inv_finish with (s := s) (p := p).
Qed.

Lemma inv_run (cfg : config) (acts : list action) :
  wellFormed cfg ->
  forall s s', inv cfg s -> run cfg s acts = Some s' -> inv cfg s'.
Proof.
  intros WF. induction acts as [|a acts IH]; intros s s' Inv E; cbn [run] in E.
  - now injection E as <-.
  - destruct (exec cfg s a) as [s1|] eqn:E1; [|discriminate].
    eapply IH; [|exact E]. now apply inv_step with (s := s) (a := a).
Qed.


(** C2, as the code has it.  In every reachable state of [Run] and its
    workers, whenever a worker has applied operator [k+1] of a pass to some
    cell, that same worker has already applied operator [k] of that pass
    to every cell assigned to it.  The order is kept by each worker on its
    own cells, through its channel; nothing orders one worker's operator
    [k+1] after another worker's operator [k]. *)
Theorem workers_keep_phase_order (cfg : config) (s : state) :
  wellFormed cfg -> reachable cfg s -> workerPhaseOrdered cfg (log s).
Proof.
  intros WF [acts R]. apply inv_order.
  apply inv_run with (acts := acts) (s := init); trivial. apply inv_init.
Qed.

Lemma eager_run : run twoByTwo init eagerWorker0 = Some eagerFinal.
Proof. vm_compute. reflexivity. Qed.

Lemma eager_log :
  log eagerFinal
  = [ mkEvent 1 (mkTask 0 1) 1; mkEvent 1 (mkTask 0 0) 1;
      mkEvent 0 (mkTask 0 1) 0; mkEvent 0 (mkTask 0 0) 0 ].
Proof. vm_compute. reflexivity. Qed.

Lemma workers_keep_phase_order_witness :
  workerPhaseOrdered twoByTwo (log eagerFinal).
Proof.
  apply workers_keep_phase_order.
  - split; vm_compute; lia.
  - exists eagerWorker0. exact eager_run.
Defined.

(** C2 fails as stated.  With two workers and two cells, [Run] can finish
    a pass in which worker 0 applied operator 1 to cell 0 before worker 1
    applied operator 0 to cell 1: the controlling goroutine sends operator
    1 to a worker as soon as that worker's channel has room, and waits for
    the workers only after the last send. *)
Lemma no_barrier_between_operators :
  reachable twoByTwo eagerFinal /\ pc eagerFinal = Finished /\
  ~ phaseOrdered twoByTwo (log eagerFinal).
Proof.
  split; [exists eagerWorker0; exact eager_run|].
  split; [vm_compute; reflexivity|].
  rewrite eager_log. intros PO.
  destruct (PO (mkEvent 0 (mkTask 0 1) 0) [mkEvent 0 (mkTask 0 0) 0])
    with (k := 0) (c := 1) as (p & Hin).
  - exists [mkEvent 1 (mkTask 0 1) 1; mkEvent 1 (mkTask 0 0) 1]. reflexivity.
  - reflexivity.
  - vm_compute. lia.
  - reflexivity.
  - destruct Hin as [E|[]]. discriminate E.
Qed.

End SchedulerFacts.

(* ================================================================== *)
(** ** Boundary synthesizer *)

Lemma setElem_spec {A} (l : list A) (i : nat) (a x : A) :
  nth_error l i = Some x ->
  exists l', setElem l i a = Done l' /\
             List.length l' = List.length l /\
             nth_error l' i = Some a /\
             forall j, j <> i -> nth_error l' j = nth_error l j.
Proof.
  revert i. induction l as [|y l IH]; intros [|i] E; try discriminate.
  - eexists. split; [reflexivity|]. split; [reflexivity|].
    split; [reflexivity|]. intros [|j] N; [congruence|reflexivity].
  - cbn [nth_error] in E. destruct (IH i E) as (l' & S & L & G & O).
    cbn [setElem]. rewrite S. cbn [bind]. eexists. split; [reflexivity|].
    split; [cbn [List.length]; now rewrite L|]. split; [exact G|].
    intros [|j] N; [reflexivity|]. cbn [nth_error]. apply O. congruence.
Qed.

Lemma setElem_panics {A} (l : list A) (i : nat) (a : A) :
  nth_error l i = None -> setElem l i a = Panic IndexOutOfRange.
Proof.
  revert i. induction l as [|y l IH]; intros [|i] E; try discriminate;
    try reflexivity.
  cbn [nth_error] in E. cbn [setElem]. now rewrite (IH i E).
Qed.

Section BoundaryFacts.
Context {F : Type} `{Float64 F}.

Lemma deref_slice (d : InMAPdata F) (r : CellRef) :
  deref d r = match nth_error (sliceOf r d) (position r) with
              | Some c => Done c
              | None => Panic NilDereference
              end.
Proof. destruct r; reflexivity. Qed.

Lemma deref_valid (d : InMAPdata F) (r : CellRef) :
  valid d r <-> exists c, deref d r = Done c.
Proof.
  rewrite deref_slice. unfold valid. split.
  - intros V. destruct (nth_error (sliceOf r d) (position r)) eqn:E; [eauto|].
    apply nth_error_None in E. lia.
  - intros (c & E). apply nth_error_Some.
    destruct (nth_error (sliceOf r d) (position r)); [discriminate|discriminate].
Qed.

Lemma assign_spec (d : InMAPdata F) (r : CellRef) (c c0 : Cell F) :
  deref d r = Done c0 ->
  exists d1,
    assign d r c = Done d1 /\
    deref d1 r = Done c /\
    (forall r', r' <> r -> deref d1 r' = deref d r') /\
    (forall r', List.length (sliceOf r' d1) = List.length (sliceOf r' d)) /\
    Dt d1 = Dt d /\ Nlayers d1 = Nlayers d /\
    NumIterations d1 = NumIterations d.
Proof.
  intros E. rewrite deref_slice in E.
  destruct (nth_error (sliceOf r d) (position r)) as [x|] eqn:N;
    [|discriminate].
  destruct (setElem_spec _ _ c N) as (l' & S & L & G & O).
  destruct r as [i|i|i|i|i|i]; cbn [sliceOf position] in *;
    unfold assign; rewrite S; cbn [bind];
    (eexists; split; [reflexivity|]);
    (split; [cbn [deref Cells westBoundary eastBoundary northBoundary
                   southBoundary topBoundary]; now rewrite G|]);
    (split; [|split; [intros [j|j|j|j|j|j]; cbn; congruence|cbn; auto]]);
    intros [j|j|j|j|j|j] Nr; try reflexivity;
    cbn [deref Cells westBoundary eastBoundary northBoundary
           southBoundary topBoundary];
    rewrite O; congruence.
Qed.

Lemma assign_panics (d : InMAPdata F) (r : CellRef) (c : Cell F) (p : panic) :
  deref d r = Panic p -> assign d r c = Panic NilDereference.
Proof.
  rewrite deref_slice.
  destruct (nth_error (sliceOf r d) (position r)) as [x|] eqn:N;
    [discriminate|]. intros _.
  destruct r; cbn [sliceOf position] in N; unfold assign;
    rewrite (setElem_panics _ _ c N); reflexivity.
Qed.

Lemma nth_error_snoc {A} (l : list A) (a : A) :
  nth_error (l ++ [a]) (List.length l) = Some a.
Proof. rewrite nth_error_app2, Nat.sub_diag; [reflexivity|lia]. Qed.

Lemma deref_appended (d d' : InMAPdata F) (r : CellRef) :
  (exists tail, sliceOf r d' = sliceOf r d ++ tail) ->
  valid d r -> deref d' r = deref d r.
Proof.
  intros (tail & E) V. rewrite !deref_slice, E.
  rewrite nth_error_app1; [reflexivity|exact V].
Qed.

End BoundaryFacts.

Lemma CellRef_eq_dec (r r' : CellRef) : {r = r'} + {r <> r'}.
Proof. decide equality; apply Nat.eq_dec. Qed.

Section BoundaryLinks.
Context {F : Type} `{Float64 F}.

Lemma addBoundary_Done (s : side) (d : InMAPdata F) (cell : CellRef)
    (c0 : Cell F) :
  deref d cell = Done c0 ->
  exists d',
    addBoundary s d cell = Done d' /\
    deref d' cell
    = Done (setFacing s c0 [boundaryRef s (List.length (boundaryOf s d))]) /\
    deref d' (boundaryRef s (List.length (boundaryOf s d)))
    = Done (boundaryCopy c0) /\
    boundaryRef s (List.length (boundaryOf s d)) <> cell /\
    List.length (boundaryOf s d') = S (List.length (boundaryOf s d)) /\
    (forall r, r <> cell -> valid d r -> deref d' r = deref d r) /\
    List.length (Cells d') = List.length (Cells d) /\
    Dt d' = Dt d /\ Nlayers d' = Nlayers d /\
    NumIterations d' = NumIterations d.
Proof.
  intros E.
  assert (V : valid d cell) by (apply deref_valid; eauto).
  destruct s; cbn [addBoundary boundaryOf boundaryRef setFacing];
    unfold addWestBoundary, addEastBoundary, addSouthBoundary,
      addNorthBoundary, addTopBoundary;
    rewrite E; cbn [bind];
    match goal with
    | |- context [assign d cell ?c] =>
        destruct (assign_spec d cell c E)
          as (d1 & A & G & O & L & Edt & Enl & Eni)
    end;
    pose proof (L (WestB 0)) as Lw; pose proof (L (EastB 0)) as Le;
    pose proof (L (SouthB 0)) as Ls; pose proof (L (NorthB 0)) as Ln;
    pose proof (L (TopB 0)) as Lt; pose proof (L (Active 0)) as La;
    cbn [sliceOf] in Lw, Le, Ls, Ln, Lt, La;
    rewrite A; cbn [bind]; (eexists; split; [reflexivity|]);
    match goal with
    | |- deref ?d' _ = _ /\ _ =>
        assert (Keep : forall r, valid d r -> deref d' r = deref d1 r)
    end.
  all: try (intros r Vr; apply deref_appended;
            [destruct r; cbn [sliceOf Cells westBoundary eastBoundary
                                northBoundary southBoundary topBoundary];
             first [ now exists [] ; rewrite app_nil_r
                   | eexists; reflexivity ]
            |unfold valid; rewrite L; exact Vr]).
  all: split; [rewrite Keep by exact V; exact G|].
  all: split;
    [cbn [deref westBoundary eastBoundary northBoundary southBoundary
            topBoundary];
     first [ rewrite <- Lw | rewrite <- Le | rewrite <- Ls
           | rewrite <- Ln | rewrite <- Lt ];
     now rewrite nth_error_snoc|].
  all: split; [intros Eq; subst cell; unfold valid in V; cbn in V; lia|].
  all: split;
    [cbn [westBoundary eastBoundary northBoundary southBoundary
            topBoundary]; rewrite length_app; cbn [List.length]; lia|].
  all: split; [intros r N Vr; rewrite Keep by exact Vr; now apply O|].
  all: split; [exact La|].
  all: cbn [Dt Nlayers NumIterations]; auto.
Qed.

Lemma derefAll_Done (d : InMAPdata F) (rs : list CellRef) :
  Forall (fun r => exists c, deref d r = Done c) rs ->
  exists cs, derefAll d rs = Done cs.
Proof.
  induction 1 as [|r rs (c & E) _ (cs & IH)]; cbn [derefAll].
  - eauto.
  - rewrite E, IH. cbn [bind]. eauto.
Qed.

End BoundaryLinks.

(** X1.  Each of the five [add...Boundary] methods, given a pointer to a
    cell of the domain, returns; afterwards the cell's neighbor list on
    that side holds one pointer, which leads to the [boundaryCopy] of the
    cell as it was, now the last cell of that boundary slice; the cell is
    otherwise as before, every other pointer of the domain leads where
    it led, and the time step, layer count and iteration count are as
    before.  Given a pointer to no cell, the method panics. *)
Theorem addBoundary_links (F : Type) (H : Float64 F) (s : side)
    (d : InMAPdata F) (cell : CellRef) :
  (forall c0, deref d cell = Done c0 ->
     exists d',
       addBoundary s d cell = Done d' /\
       let n := List.length (boundaryOf s d) in
       deref d' cell = Done (setFacing s c0 [boundaryRef s n]) /\
       deref d' (boundaryRef s n) = Done (boundaryCopy c0) /\
       boundaryRef s n <> cell /\
       List.length (boundaryOf s d') = S n /\
       (forall r, r <> cell -> valid d r -> deref d' r = deref d r) /\
       List.length (Cells d') = List.length (Cells d) /\
       Dt d' = Dt d /\ Nlayers d' = Nlayers d /\
       NumIterations d' = NumIterations d)
  /\ (forall p, deref d cell = Panic p -> panics (addBoundary s d cell)).
Proof.
  split.
  - intros c0 E. exact (addBoundary_Done s d cell E).
  - intros p E.
    destruct s; cbn [addBoundary];
      unfold addWestBoundary, addEastBoundary, addSouthBoundary,
        addNorthBoundary, addTopBoundary; rewrite E; exact I.
Qed.

Lemma addBoundary_links_witness :
  exists d',
    addBoundary WestSide twoLayers (Active 1) = Done d' /\
    deref d' (Active 1) = Done (setFacing WestSide upperCell [WestB 0]) /\
    deref d' (WestB 0) = Done (boundaryCopy upperCell) /\
    List.length (westBoundary d') = 1.
Proof.
  destruct (proj1 (addBoundary_links _ WestSide twoLayers (Active 1))
              upperCell eq_refl)
    as (d' & E & G1 & G2 & _ & L & _).
  exists d'. repeat split; assumption.
Defined.

(** X2.  A ghost cell is neutral.  In exact arithmetic, after a cell of
    positive extents and diffusivities has received a boundary cell on a
    side, [neighborInfo] gives it, toward that side, a center distance
    equal to its own extent across the side, an overlap fraction of 1
    and an interface diffusivity equal to its own. *)
Theorem boundary_ghost_neutral (s : side) (d d' : InMAPdata R)
    (cell : CellRef) (c0 : Cell R) :
  deref d cell = Done c0 ->
  addBoundary s d cell = Done d' ->
  Forall (valid d) (neighbors c0) ->
  (0 < Dx c0 /\ 0 < Dy c0 /\ 0 < Dz c0 /\ 0 < Kxxyy c0 /\ 0 < Kzz c0)%R ->
  exists c1 c2,
    deref d' cell = Done c1 /\ neighborInfo d' c1 = Done c2 /\
    halfDistance s c2 = [extentAcross s c0] /\
    fractionToward s c2 = [1%R] /\
    diffusivityToward s c2 = [diffusivityAcross s c0].
Proof.
  intros E A V (Px & Py & Pz & Pk & Pkz).
  destruct (addBoundary_Done s d cell E)
    as (d2 & A' & G1 & G2 & Nq & _ & Keep & _).
  rewrite A in A'. injection A' as <-.
  exists (setFacing s c0 [boundaryRef s (List.length (boundaryOf s d))]).
  assert (Vd : forall rs, Forall (valid d) rs ->
                 exists cs, derefAll d' rs = Done cs).
  { intros rs Hrs. apply derefAll_Done. eapply Forall_impl; [|exact Hrs].
    intros r Vr. destruct (CellRef_eq_dec r cell) as [->|N].
    - eauto.
    - rewrite (Keep r N Vr). now apply deref_valid. }
  unfold neighbors in V. rewrite !Forall_app in V.
  destruct V as (Vw & Ve & Vn & Vs & Va & Vb & Vg).
  destruct (Vd _ Vw) as (west & Ew), (Vd _ Ve) as (east & Ee),
    (Vd _ Vn) as (north & En), (Vd _ Vs) as (south & Es),
    (Vd _ Va) as (above & Ea), (Vd _ Vb) as (below & Eb),
    (Vd _ Vg) as (ground & Eg).
  assert (Gh : forall r, deref d' r = Done (boundaryCopy c0) ->
                 derefAll d' [r] = Done [boundaryCopy c0]).
  { intros r Er. cbn [derefAll]. now rewrite Er. }
  apply Gh in G2.
  unfold neighborInfo.
  destruct s; cbn [setFacing boundaryRef boundaryOf] in *;
    (eexists; split; [exact G1|]);
    cbn [withNeighbors West East South North Below Above GroundLevel];
    rewrite ?G2, ?Ew, ?Ee, ?En, ?Es, ?Ea, ?Eb, ?Eg; cbn [bind];
    (split; [reflexivity|]);
    cbn [halfDistance fractionToward diffusivityToward extentAcross
           diffusivityAcross withTopology DxMinusHalf DxPlusHalf DyMinusHalf
           DyPlusHalf DzPlusHalf WestFrac EastFrac SouthFrac NorthFrac
           AboveFrac KxxWest KxxEast KyySouth KyyNorth KzzAbove map];
    cbn [withNeighbors Dx Dy Dz Kxxyy Kzz boundaryCopy prepare withConc
           withVolume withPhysics];
    unfold harmonicMean, min; cbn [fofZ fadd fmul fdiv fltb exact];
    unfold Rltb.
  all: split; [f_equal; field|].
  all: split; [|f_equal; field; lra].
  all: match goal with
       | |- context [Rlt_dec ?q 1] =>
           replace q with 1%R by (field; nra); destruct (Rlt_dec 1 1);
           [lra|reflexivity]
       end.
Qed.

Lemma boundary_ghost_neutral_witness :
  exists d' c1 c2,
    addBoundary TopSide fourTwo (Active 1) = Done d' /\
    deref d' (Active 1) = Done c1 /\ neighborInfo d' c1 = Done c2 /\
    DzPlusHalf c2 = [Dz twoCell] /\ AboveFrac c2 = [1%R] /\
    KzzAbove c2 = [Kzz twoCell].
Proof.
  eexists.
  destruct (@boundary_ghost_neutral TopSide fourTwo _ (Active 1) twoCell
              eq_refl eq_refl)
    as (c1 & c2 & G & N & P1 & P2 & P3).
  - constructor.
  - cbn. repeat split; lra.
  - exists c1, c2. split; [reflexivity|]. repeat split; assumption.
Defined.

(* ================================================================== *)
(** ** Topology builder: shape of the result *)

Section TopologyShape.
Context {F : Type} `{Float64 F}.

Lemma derefAll_length (d : InMAPdata F) (rs : list CellRef) :
  forall cs, derefAll d rs = Done cs -> List.length cs = List.length rs.
Proof.
  induction rs as [|r rs IH]; cbn [derefAll]; intros cs E.
  - now injection E as <-.
  - apply bind_Done in E. destruct E as (c & _ & E).
    apply bind_Done in E. destruct E as (cs' & Ecs & E).
    injection E as <-. cbn [List.length]. f_equal. now apply IH.
Qed.

Lemma derefAll_panics (d : InMAPdata F) (rs : list CellRef) :
  panics (derefAll d rs) <-> Exists (fun r => ~ valid d r) rs.
Proof.
  induction rs as [|r rs IH]; cbn [derefAll].
  - split; [intros []|intros E; inversion E].
  - rewrite Exists_cons, <- IH. rewrite deref_valid.
    destruct (deref d r) as [c|p] eqn:E; cbn [bind].
    + destruct (derefAll d rs); cbn [bind panics]; split; try tauto.
      intros [N|[]]. apply N. eauto.
    + cbn [panics]. split; [|trivial]. intros _. left.
      intros (c & Ec). discriminate.
Qed.

End TopologyShape.

(** X3.  [neighborInfo] returns unless one of the cell's neighbor
    pointers names no cell, and otherwise changes nothing but the
    nineteen staggered-grid slices, each of which gets one entry per
    neighbor on its side; computing them again changes nothing. *)
Theorem neighborInfo_shape (F : Type) (H : Float64 F) (d : InMAPdata F)
    (c : Cell F) :
  (panics (neighborInfo d c) <-> Exists (fun r => ~ valid d r) (neighbors c))
  /\
  (forall c', neighborInfo d c = Done c' ->
     c' = withTopology c (KzzAbove c') (KzzBelow c') (KyySouth c')
            (KyyNorth c') (KxxWest c') (KxxEast c') (WestFrac c')
            (EastFrac c') (NorthFrac c') (SouthFrac c') (AboveFrac c')
            (BelowFrac c') (GroundLevelFrac c') (DxPlusHalf c')
            (DxMinusHalf c') (DyPlusHalf c') (DyMinusHalf c')
            (DzPlusHalf c') (DzMinusHalf c') /\
     map (@List.length F)
       [DxMinusHalf c'; WestFrac c'; KxxWest c';
        DxPlusHalf c'; EastFrac c'; KxxEast c';
        DyMinusHalf c'; SouthFrac c'; KyySouth c';
        DyPlusHalf c'; NorthFrac c'; KyyNorth c';
        DzMinusHalf c'; BelowFrac c'; KzzBelow c';
        DzPlusHalf c'; AboveFrac c'; KzzAbove c';
        GroundLevelFrac c']
     = map (@List.length CellRef)
         [West c; West c; West c; East c; East c; East c;
          South c; South c; South c; North c; North c; North c;
          Below c; Below c; Below c; Above c; Above c; Above c;
          GroundLevel c] /\
     neighborInfo d c' = Done c').
Proof.
  split.
  - unfold neighbors. rewrite !Exists_app, <- !derefAll_panics.
    unfold neighborInfo.
    destruct (derefAll d (East c)), (derefAll d (West c)),
      (derefAll d (North c)), (derefAll d (South c)),
      (derefAll d (Above c)), (derefAll d (Below c)),
      (derefAll d (GroundLevel c)); cbn [bind panics]; tauto.
  - intros c' E. unfold neighborInfo in E.
    apply bind_Done in E; destruct E as (east & Ee & E).
    apply bind_Done in E; destruct E as (west & Ew & E).
    apply bind_Done in E; destruct E as (north & En & E).
    apply bind_Done in E; destruct E as (south & Es & E).
    apply bind_Done in E; destruct E as (above & Ea & E).
    apply bind_Done in E; destruct E as (below & Eb & E).
    apply bind_Done in E; destruct E as (ground & Eg & E).
    cbv zeta in E. injection E as E. subst c'.
    split; [reflexivity|]. split.
    + cbn [map withTopology DxMinusHalf WestFrac KxxWest DxPlusHalf EastFrac
             KxxEast DyMinusHalf SouthFrac KyySouth DyPlusHalf NorthFrac
             KyyNorth DzMinusHalf BelowFrac KzzBelow DzPlusHalf AboveFrac
             KzzAbove GroundLevelFrac].
      rewrite !length_map.
      rewrite (derefAll_length _ _ Ee), (derefAll_length _ _ Ew),
        (derefAll_length _ _ En), (derefAll_length _ _ Es),
        (derefAll_length _ _ Ea), (derefAll_length _ _ Eb),
        (derefAll_length _ _ Eg). reflexivity.
    + unfold neighborInfo.
      cbn [withTopology East West North South Above Below GroundLevel].
      rewrite Ee, Ew, En, Es, Ea, Eb, Eg. cbn [bind]. reflexivity.
Qed.

Lemma neighborInfo_shape_witness :
  exists c', neighborInfo fourTwo fourCell = Done c' /\
             List.length (EastFrac c') = 1 /\
             neighborInfo fourTwo c' = Done c'.
Proof.
  eexists. split; [reflexivity|].
  destruct (proj2 (neighborInfo_shape _ fourTwo fourCell) _ eq_refl)
    as (_ & L & I).
  split; [reflexivity|exact I].
Defined.

(* ================================================================== *)
(** ** Emissions operator *)

Lemma elem_Some {A} (l : list A) (i : nat) (a : A) :
  elem l i = Done a <-> nth_error l i = Some a.
Proof.
  unfold elem. destruct (nth_error l i); split; congruence.
Qed.

Lemma elem_panics {A} (l : list A) (i : nat) :
  List.length l <= i -> elem l i = Panic IndexOutOfRange.
Proof.
  intros L. unfold elem. apply nth_error_None in L. now rewrite L.
Qed.

Section EmissionsOperatorFacts.
Context {F : Type} `{Float64 F}.

Lemma addEmissionsFluxLoop_spec (dt : F) (n : nat) :
  forall (i : nat) (c : Cell F),
    i + n <= List.length (Ci c) -> i + n <= List.length (Cf c) ->
    i + n <= List.length (emisFlux c) ->
    exists c',
      addEmissionsFluxLoop c dt i n = Done c' /\
      c' = withConc c (Ci c') (Cf c') (emisFlux c) /\
      List.length (Ci c') = List.length (Ci c) /\
      List.length (Cf c') = List.length (Cf c) /\
      (forall j,
          nth_error (Cf c') j
          = if treated i n j
            then match nth_error (Cf c) j, nth_error (emisFlux c) j with
                 | Some cf, Some e => Some (cf + e * dt)%go
                 | _, _ => None
                 end
            else nth_error (Cf c) j) /\
      (forall j,
          nth_error (Ci c') j
          = if treated i n j then nth_error (Cf c') j
            else nth_error (Ci c) j).
Proof.
  induction n as [|n IH]; intros i c Li Lf Le.
  - exists c. cbn [addEmissionsFluxLoop]. split; [reflexivity|].
    split; [destruct c; reflexivity|]. split; [reflexivity|].
    split; [reflexivity|].
    assert (T : forall j, treated i 0 j = false).
    { intros j. unfold treated.
      destruct (Nat.leb_spec i j), (Nat.ltb_spec j (i + 0)); trivial; lia. }
    split; intros j; now rewrite T.
  - cbn [addEmissionsFluxLoop].
    destruct (nth_error (Cf c) i) as [cf|] eqn:Ncf;
      [|apply nth_error_None in Ncf; lia].
    destruct (nth_error (emisFlux c) i) as [e|] eqn:Ne;
      [|apply nth_error_None in Ne; lia].
    destruct (nth_error (Ci c) i) as [ci|] eqn:Nci;
      [|apply nth_error_None in Nci; lia].
    rewrite (proj2 (elem_Some _ _ _) Ncf), (proj2 (elem_Some _ _ _) Ne).
    cbn [bind].
    destruct (setElem_spec _ _ (cf + e * dt)%go Ncf) as (Cf1 & S1 & L1 & G1 & O1).
    destruct (setElem_spec _ _ (cf + e * dt)%go Nci) as (Ci1 & S2 & L2 & G2 & O2).
    rewrite S1, S2. cbn [bind].
    destruct (IH (S i) (withConc c Ci1 Cf1 (emisFlux c)))
      as (c' & E & Eq & Lc & Lf' & Pf & Pi);
      [cbn [withConc Ci]; lia|cbn [withConc Cf]; lia
      |cbn [withConc emisFlux]; lia|].
    cbn [withConc Ci Cf emisFlux] in Lc, Lf', Pf, Pi.
    exists c'. split; [exact E|]. split; [rewrite Eq; reflexivity|].
    split; [lia|]. split; [lia|].
    assert (T : forall j, treated i (S n) j
                          = (j =? i) || treated (S i) n j).
    { intros j. unfold treated.
      destruct (Nat.leb_spec i j), (Nat.ltb_spec j (i + S n)),
        (Nat.eqb_spec j i), (Nat.leb_spec (S i) j),
        (Nat.ltb_spec j (S i + n)); cbn; trivial; lia. }
    assert (Ti : treated (S i) n i = false).
    { unfold treated. destruct (Nat.leb_spec (S i) i); [lia|reflexivity]. }
    split; intros j; rewrite T.
    + rewrite Pf. destruct (Nat.eqb_spec j i) as [->|Nj]; cbn [orb].
      * rewrite Ti, G1, Ncf, Ne. reflexivity.
      * rewrite (O1 j Nj). reflexivity.
    + rewrite Pi. destruct (Nat.eqb_spec j i) as [->|Nj]; cbn [orb].
      * rewrite Ti, G2. rewrite Pf, Ti, G1. reflexivity.
      * rewrite (O2 j Nj). reflexivity.
Qed.

Lemma addEmissionsFluxLoop_panics (dt : F) (n : nat) :
  forall (i : nat) (c : Cell F),
    i <= List.length (Ci c) -> i <= List.length (Cf c) ->
    i <= List.length (emisFlux c) ->
    ~ (i + n <= List.length (Ci c) /\ i + n <= List.length (Cf c) /\
       i + n <= List.length (emisFlux c)) ->
    panics (addEmissionsFluxLoop c dt i n).
Proof.
  induction n as [|n IH]; intros i c Li Lf Le N.
  - exfalso. apply N. lia.
  - cbn [addEmissionsFluxLoop].
    destruct (nth_error (Cf c) i) as [cf|] eqn:Ncf.
    2:{ apply nth_error_None in Ncf. now rewrite (elem_panics _ Ncf). }
    rewrite (proj2 (elem_Some _ _ _) Ncf). cbn [bind].
    destruct (nth_error (emisFlux c) i) as [e|] eqn:Ne.
    2:{ apply nth_error_None in Ne. now rewrite (elem_panics _ Ne). }
    rewrite (proj2 (elem_Some _ _ _) Ne). cbn [bind].
    destruct (setElem_spec _ _ (cf + e * dt)%go Ncf) as (Cf1 & S1 & L1 & _).
    rewrite S1. cbn [bind].
    destruct (nth_error (Ci c) i) as [ci|] eqn:Nci.
    2:{ now rewrite (setElem_panics _ _ _ Nci). }
    destruct (setElem_spec _ _ (cf + e * dt)%go Nci) as (Ci1 & S2 & L2 & _).
    rewrite S2. cbn [bind].
    assert (i < List.length (Cf c)) by (apply nth_error_Some; congruence).
    assert (i < List.length (Ci c)) by (apply nth_error_Some; congruence).
    assert (i < List.length (emisFlux c))
      by (apply nth_error_Some; congruence).
    apply IH; cbn [withConc Ci Cf emisFlux]; lia.
Qed.

Lemma at_nth_error (l : list F) (j : nat) (x : F) :
  nth_error l j = Some x -> at_ l j = x.
Proof. intros E. unfold at_. now apply nth_error_nth. Qed.

Lemma addEmissionsFlux_Done (c : Cell F) (d : InMAPdata F) :
  holdsSpecies c ->
  exists c',
    addEmissionsFlux c d = Done c' /\
    c' = withConc c (Ci c') (Cf c') (emisFlux c) /\
    List.length (Ci c') = List.length (Ci c) /\
    List.length (Cf c') = List.length (Cf c) /\
    (forall j, j < List.length polNames ->
       at_ (Cf c') j = (at_ (Cf c) j + at_ (emisFlux c) j * Dt d)%go /\
       at_ (Ci c') j = at_ (Cf c') j) /\
    (forall j, List.length polNames <= j ->
       nth_error (Cf c') j = nth_error (Cf c) j /\
       nth_error (Ci c') j = nth_error (Ci c) j).
Proof.
  intros (Li & Lf & Le). unfold addEmissionsFlux.
  destruct (@addEmissionsFluxLoop_spec (Dt d) (List.length polNames) 0 c)
    as (c' & E & Eq & Lc & Lf' & Pf & Pi); try (cbn [Nat.add]; assumption).
  exists c'. split; [exact E|]. split; [exact Eq|].
  split; [exact Lc|]. split; [exact Lf'|].
  split; intros j Hj.
  - assert (T : treated 0 (List.length polNames) j = true).
    { unfold treated. destruct (Nat.leb_spec 0 j), (Nat.ltb_spec j (0 + List.length polNames));
        trivial; lia. }
    specialize (Pf j). specialize (Pi j). rewrite T in Pf, Pi.
    destruct (nth_error (Cf c) j) as [cf|] eqn:Ncf;
      [|apply nth_error_None in Ncf; lia].
    destruct (nth_error (emisFlux c) j) as [e|] eqn:Ne;
      [|apply nth_error_None in Ne; lia].
    rewrite Pf in Pi.
    rewrite (at_nth_error _ _ Pf), (at_nth_error _ _ Pi),
      (at_nth_error _ _ Ncf), (at_nth_error _ _ Ne). now split.
  - assert (T : treated 0 (List.length polNames) j = false).
    { unfold treated. destruct (Nat.leb_spec 0 j), (Nat.ltb_spec j (0 + List.length polNames));
        trivial; lia. }
    specialize (Pf j). specialize (Pi j). rewrite T in Pf, Pi. now split.
Qed.

End EmissionsOperatorFacts.

(** X4.  [addEmissionsFlux] returns exactly when each of [Ci], [Cf] and
    [emisFlux] holds an entry for every species, and panics otherwise.
    When it returns, each of the nine entries of [Cf] has grown by the
    emission flux times the time step, [Ci] agrees with [Cf] on them,
    and nothing else of the cell has changed. *)
Theorem addEmissionsFlux_step (F : Type) (H : Float64 F) (c : Cell F)
    (d : InMAPdata F) :
  (holdsSpecies c ->
   exists c',
     addEmissionsFlux c d = Done c' /\
     c' = withConc c (Ci c') (Cf c') (emisFlux c) /\
     List.length (Ci c') = List.length (Ci c) /\
     List.length (Cf c') = List.length (Cf c) /\
     (forall j, j < List.length polNames ->
        at_ (Cf c') j = (at_ (Cf c) j + at_ (emisFlux c) j * Dt d)%go /\
        at_ (Ci c') j = at_ (Cf c') j) /\
     (forall j, List.length polNames <= j ->
        nth_error (Cf c') j = nth_error (Cf c) j /\
        nth_error (Ci c') j = nth_error (Ci c) j))
  /\ (~ holdsSpecies c -> panics (addEmissionsFlux c d)).
Proof.
  split; [apply addEmissionsFlux_Done|].
  intros N. unfold addEmissionsFlux.
  apply addEmissionsFluxLoop_panics; try apply Nat.le_0_l. exact N.
Qed.

Lemma addEmissionsFlux_step_witness :
  exists c',
    addEmissionsFlux loadedCell (withDt twoLayers 2%float) = Done c' /\
    at_ (Cf c') 0 = (1 + 0 * 2)%float /\ at_ (Ci c') 0 = at_ (Cf c') 0.
Proof.
  destruct (proj1 (addEmissionsFlux_step _ loadedCell
                     (withDt twoLayers 2%float)))
    as (c' & E & _ & _ & _ & P & _).
  - unfold holdsSpecies. cbn. lia.
  - exists c'. split; [exact E|]. apply (P 0). cbn. lia.
Defined.

(** X5.  In exact arithmetic, the operator applied at [k] successive time
    steps of the same length adds [k] times the emission flux times the
    time step to each of the nine concentrations. *)
Theorem addEmissionsFlux_accumulates (k : nat) (c : Cell R) (d : InMAPdata R) :
  holdsSpecies c ->
  exists c',
    addEmissionsFluxTimes k c d = Done c' /\
    holdsSpecies c' /\ emisFlux c' = emisFlux c /\
    forall j, j < List.length polNames ->
      at_ (Cf c') j
      = (at_ (Cf c) j + INR k * (at_ (emisFlux c) j * Dt d))%R /\
      at_ (Ci c') j = if Nat.eqb k 0 then at_ (Ci c) j else at_ (Cf c') j.
Proof.
  revert c. induction k as [|k IH]; intros c Hc.
  - exists c. split; [reflexivity|]. split; [exact Hc|].
    split; [reflexivity|]. intros j _. cbn [INR Nat.eqb]. split; [lra|reflexivity].
  - cbn [addEmissionsFluxTimes].
    destruct (addEmissionsFlux_Done d Hc) as (c1 & E & Eq & Li & Lf & P & _).
    rewrite E. cbn [bind].
    assert (Ee : emisFlux c1 = emisFlux c) by (rewrite Eq; reflexivity).
    assert (H1 : holdsSpecies c1).
    { destruct Hc as (? & ? & ?). unfold holdsSpecies.
      rewrite Li, Lf, Ee. auto. }
    destruct (IH c1 H1) as (c' & E' & H' & Ee' & P').
    exists c'. split; [exact E'|]. split; [exact H'|].
    split; [congruence|]. intros j Hj.
    destruct (P j Hj) as (Pf & Pi). destruct (P' j Hj) as (Pf' & Pi').
    cbn [fadd fmul exact] in Pf. split.
    + rewrite Pf', Pf, Ee, S_INR. lra.
    + cbn [Nat.eqb]. rewrite Pi'.
      destruct (Nat.eqb k 0) eqn:K; [|reflexivity].
      apply Nat.eqb_eq in K. subst k. cbn [INR] in Pf'.
      rewrite Pi, Pf'. lra.
Qed.

Lemma addEmissionsFlux_accumulates_witness :
  exists c',
    addEmissionsFluxTimes 3 breezyCell (withDt (sampleDomain [breezyCell]) 2%R)
    = Done c' /\
    at_ (Cf c') 0 = (at_ (Cf breezyCell) 0
                     + INR 3 * (at_ (emisFlux breezyCell) 0 * 2))%R.
Proof.
  destruct (@addEmissionsFlux_accumulates 3 breezyCell
              (withDt (sampleDomain [breezyCell]) 2%R))
    as (c' & E & _ & _ & P).
  - unfold holdsSpecies. cbn. lia.
  - exists c'. split; [exact E|]. apply (P 0). cbn. lia.
Defined.

(* ================================================================== *)
(** ** [Run]: the emissions stage *)

Section EmissionsStageFacts.
Context {F : Type} `{Float64 F}.

Lemma nth_error_middle {A} (pre : list A) (c : A) (suf : list A) :
  nth_error (pre ++ c :: suf) (List.length pre) = Some c.
Proof. rewrite nth_error_app2, Nat.sub_diag; [reflexivity|lia]. Qed.

Lemma setElem_middle {A} (pre : list A) (c c' : A) (suf : list A) :
  setElem (pre ++ c :: suf) (List.length pre) c' = Done (pre ++ c' :: suf).
Proof.
  induction pre as [|x pre IH]; cbn [app List.length setElem]; [reflexivity|].
  now rewrite IH.
Qed.

(** The loop with its row counter is the loop along the cells. *)
Lemma addEmisFluxLoop_emitInto (arr : list F) (scale : F) (iPol : nat) :
  forall pre suf : list (Cell F),
    addEmisFluxLoop (pre ++ suf) (List.length pre) arr scale iPol
    = (suf' <- emitInto suf arr scale iPol;; Done (pre ++ suf')).
Proof.
  induction arr as [|val arr IH]; intros pre suf.
  - cbn [addEmisFluxLoop emitInto bind]. reflexivity.
  - cbn [addEmisFluxLoop emitInto]. destruct suf as [|c rest].
    + rewrite app_nil_r. now rewrite elem_panics.
    + unfold elem. rewrite nth_error_middle. cbn [bind]. fold (fluxInto c val scale).
      destruct (setElem (emisFlux c) iPol (fluxInto c val scale)) as [flux|p];
        [|reflexivity].
      cbn [bind]. rewrite setElem_middle. cbn [bind].
      replace (pre ++ withConc c (Ci c) (Cf c) flux :: rest)
        with ((pre ++ [withConc c (Ci c) (Cf c) flux]) ++ rest)
        by now rewrite <- app_assoc.
      replace (S (List.length pre))
        with (List.length (pre ++ [withConc c (Ci c) (Cf c) flux]))
        by (rewrite length_app; cbn; lia).
      rewrite IH. destruct (emitInto rest arr scale iPol); cbn [bind];
        [now rewrite <- app_assoc|reflexivity].
Qed.

Lemma addEmisFlux_emitInto (d : InMAPdata F) (arr : list F) (scale : F)
    (iPol : nat) :
  addEmisFlux d arr scale iPol
  = (cells <- emitInto (Cells d) arr scale iPol;; Done (withCells d cells)).
Proof.
  unfold addEmisFlux.
  pose proof (addEmisFluxLoop_emitInto arr scale iPol [] (Cells d)) as E.
  cbn [app List.length] in E. rewrite E.
  destruct (emitInto (Cells d) arr scale iPol); reflexivity.
Qed.

(** What [addEmisFlux] leaves of cell [c] of row [row] in [c']. *)
Lemma emitInto_spec (scale : F) (iPol : nat) (arr : list F) :
  forall cells cells',
    emitInto cells arr scale iPol = Done cells' ->
    List.length arr <= List.length cells /\
    List.length cells' = List.length cells /\
    forall row c,
      nth_error cells row = Some c ->
      exists c',
        nth_error cells' row = Some c' /\
        c' = withConc c (Ci c) (Cf c) (emisFlux c') /\
        List.length (emisFlux c') = List.length (emisFlux c) /\
        (forall i, i <> iPol ->
                   nth_error (emisFlux c') i = nth_error (emisFlux c) i) /\
        nth_error (emisFlux c') iPol
        = match nth_error arr row with
          | Some val => Some (fluxInto c val scale)
          | None => nth_error (emisFlux c) iPol
          end.
Proof.
  induction arr as [|val arr IH]; intros cells cells' E; cbn [emitInto] in E.
  - injection E as <-. split; [cbn; lia|]. split; [reflexivity|].
    intros row c N. exists c. split; [exact N|].
    split; [destruct c; reflexivity|]. split; [reflexivity|].
    split; [reflexivity|]. now destruct row.
  - destruct cells as [|c0 rest]; [discriminate|].
    apply bind_Done in E. destruct E as (flux & Ef & E).
    apply bind_Done in E. destruct E as (rest' & Er & E).
    injection E as <-. destruct (IH _ _ Er) as (La & Lc & P).
    split; [cbn [List.length]; lia|]. split; [cbn [List.length]; lia|].
    intros [|row] c N; cbn [nth_error] in N |- *.
    + injection N as <-. eexists. split; [reflexivity|].
      cbn [withConc emisFlux]. split; [reflexivity|].
      destruct (nth_error (emisFlux c0) iPol) as [x|] eqn:Nx.
      * destruct (setElem_spec _ _ (fluxInto c0 val scale) Nx)
          as (l' & S' & L' & G' & O').
        rewrite S' in Ef. injection Ef as <-.
        split; [exact L'|]. split; [exact O'|exact G'].
      * rewrite (setElem_panics _ _ _ Nx) in Ef. discriminate.
    + exact (P row c N).
Qed.

Lemma emitInto_panics (scale : F) (iPol : nat) (arr : list F) :
  forall cells,
    panics (emitInto cells arr scale iPol) <->
    List.length cells < List.length arr \/
    exists row c, row < List.length arr /\ nth_error cells row = Some c /\
                  List.length (emisFlux c) <= iPol.
Proof.
  induction arr as [|val arr IH]; intros cells; cbn [emitInto].
  - cbn [panics List.length]. split; [intros []|].
    intros [L|(row & c & L & _)]; lia.
  - destruct cells as [|c0 rest].
    + cbn [panics List.length]. split; [intros _; left; lia|trivial].
    + destruct (nth_error (emisFlux c0) iPol) as [x|] eqn:Nx.
      * destruct (setElem_spec _ _ (fluxInto c0 val scale) Nx)
          as (l' & S' & _).
        rewrite S'. cbn [bind].
        assert (Lx : iPol < List.length (emisFlux c0))
          by (apply nth_error_Some; congruence).
        specialize (IH rest).
        destruct (emitInto rest arr scale iPol) as [rest'|p];
          cbn [bind panics] in *; cbn [List.length].
        -- split; [intros []|]. intros Hyp. apply (proj2 IH).
           destruct Hyp as [L|(row & c & L & N & Le)]; [left; lia|].
           destruct row as [|row]; cbn [nth_error] in N.
           ++ injection N as <-. lia.
           ++ right. exists row, c. repeat split; [lia|exact N|exact Le].
        -- split; [|trivial]. intros _.
           destruct (proj1 IH I) as [L|(row & c & L & N & Le)];
             [left; lia|].
           right. exists (S row), c. repeat split; [lia|exact N|exact Le].
      * rewrite (setElem_panics _ _ _ Nx). cbn [bind panics].
        split; [|trivial]. intros _. right. exists 0, c0.
        apply nth_error_None in Nx.
        repeat split; [cbn; lia|exact Nx].
Qed.

Lemma emissionsCase_index (pol : string) (scale : F) (iPol : nat) :
  emissionsCase pol = Some (scale, iPol) -> iPol < List.length polNames.
Proof.
  unfold emissionsCase.
  repeat match goal with
         | |- (if ?b then _ else _) = _ -> _ => destruct b
         end; intros E; inversion E; subst; apply Nat.ltb_lt; reflexivity.
Qed.

(** Two pollutants of the switch with the same species are the same. *)
Lemma emissionsCase_inj (p q : string) (s s' : F) (i : nat) :
  emissionsCase p = Some (s, i) -> emissionsCase q = Some (s', i) -> p = q.
Proof.
  unfold emissionsCase.
  repeat match goal with
         | |- context [String.eqb p ?x] => destruct (String.eqb_spec p x)
         end;
  repeat match goal with
         | |- context [String.eqb q ?x] => destruct (String.eqb_spec q x)
         end;
  intros E E'; inversion E; inversion E'; subst; try reflexivity;
    discriminate.
Qed.

Lemma fluxFor_In (emissions : list (string * list F)) (i row : nat)
    (val scale : F) :
  fluxFor emissions i row = Some (val, scale) ->
  exists pol arr, In (pol, arr) emissions /\
                  emissionsCase pol = Some (scale, i) /\
                  nth_error arr row = Some val.
Proof.
  induction emissions as [|[pol arr] rest IH]; cbn [fluxFor]; [discriminate|].
  destruct (fluxFor rest i row) as [x|].
  - intros E. destruct (IH E) as (p & a & Hin & Hc & Hn).
    exists p, a. split; [now right|auto].
  - destruct (emissionsCase pol) as [[sc ip]|] eqn:Ec; [|discriminate].
    destruct (nth_error arr row) as [v|] eqn:En; [|discriminate].
    destruct (Nat.eqb_spec ip i) as [->|]; [|discriminate].
    intros [= <- <-]. exists pol, arr. split; [now left|auto].
Qed.

Lemma In_fluxFor (emissions : list (string * list F)) (i row : nat)
    (pol : string) (arr : list F) (val scale : F) :
  NoDup (map fst emissions) ->
  In (pol, arr) emissions -> emissionsCase pol = Some (scale, i) ->
  nth_error arr row = Some val ->
  fluxFor emissions i row = Some (val, scale).
Proof.
  induction emissions as [|[p a] rest IH]; intros ND Hin Hc Hn;
    [destruct Hin|].
  cbn [map fst] in ND. inversion ND as [|? ? Nin ND']; subst.
  cbn [fluxFor]. destruct Hin as [[= -> ->]|Hin].
  - destruct (fluxFor rest i row) as [[v s]|] eqn:Er.
    + exfalso. destruct (fluxFor_In _ _ _ Er) as (p' & a' & Hin' & Hc' & _).
      assert (p' = pol) by (eapply emissionsCase_inj; eassumption).
      subst p'. apply Nin. apply in_map_iff. exists (pol, a'). auto.
    + rewrite Hc, Hn, Nat.eqb_refl. reflexivity.
  - now rewrite (IH ND' Hin Hc Hn).
Qed.

Lemma fluxFor_Permutation (l l' : list (string * list F)) (i row : nat) :
  Permutation l l' -> NoDup (map fst l) ->
  fluxFor l i row = fluxFor l' i row.
Proof.
  intros P ND.
  assert (ND' : NoDup (map fst l')).
  { eapply Permutation_NoDup; [|exact ND]. now apply Permutation_map. }
  destruct (fluxFor l i row) as [[v s]|] eqn:E.
  - destruct (fluxFor_In _ _ _ E) as (p & a & Hin & Hc & Hn).
    symmetry. eapply In_fluxFor; eauto. eapply Permutation_in; eauto.
  - destruct (fluxFor l' i row) as [[v s]|] eqn:E'; [|reflexivity].
    destruct (fluxFor_In _ _ _ E') as (p & a & Hin & Hc & Hn).
    rewrite (@In_fluxFor l i row p a v s) in E; try assumption;
      [discriminate|].
    eapply Permutation_in; [apply Permutation_sym; exact P|exact Hin].
Qed.

Lemma addEmisFlux_spec (d d' : InMAPdata F) (arr : list F) (scale : F)
    (iPol : nat) :
  addEmisFlux d arr scale iPol = Done d' ->
  d' = withCells d (Cells d') /\
  List.length arr <= List.length (Cells d) /\
  List.length (Cells d') = List.length (Cells d) /\
  forall row c,
    nth_error (Cells d) row = Some c ->
    exists c',
      nth_error (Cells d') row = Some c' /\
      c' = withConc c (Ci c) (Cf c) (emisFlux c') /\
      List.length (emisFlux c') = List.length (emisFlux c) /\
      (forall i, i <> iPol ->
                 nth_error (emisFlux c') i = nth_error (emisFlux c) i) /\
      nth_error (emisFlux c') iPol
      = match nth_error arr row with
        | Some val => Some (fluxInto c val scale)
        | None => nth_error (emisFlux c) iPol
        end.
Proof.
  rewrite addEmisFlux_emitInto. intros E.
  apply bind_Done in E. destruct E as (cells' & Ec & E).
  injection E as <-. cbn [Cells withCells].
  destruct (emitInto_spec _ _ _ _ Ec) as (La & L & P).
  split; [reflexivity|]. split; [exact La|]. split; [exact L|exact P].
Qed.

(** What the second loop of [Run] leaves of cell [c] of row [row]. *)
Lemma emissionsLoop_spec (emissions : list (string * list F)) :
  forall d d' : InMAPdata F,
    emissionsLoop d emissions = Done d' ->
    d' = withCells d (Cells d') /\
    List.length (Cells d') = List.length (Cells d) /\
    (forall pol arr, In (pol, arr) emissions ->
       In pol EmisNames /\ List.length arr <= List.length (Cells d)) /\
    forall row c,
      nth_error (Cells d) row = Some c ->
      exists c',
        nth_error (Cells d') row = Some c' /\
        c' = withConc c (Ci c) (Cf c) (emisFlux c') /\
        List.length (emisFlux c') = List.length (emisFlux c) /\
        forall i,
          nth_error (emisFlux c') i
          = match fluxFor emissions i row with
            | Some (val, scale) => Some (fluxInto c val scale)
            | None => nth_error (emisFlux c) i
            end.
Proof.
  induction emissions as [|[pol arr] rest IH]; intros d d' E;
    cbn [emissionsLoop] in E.
  - injection E as <-. split; [destruct d; reflexivity|].
    split; [reflexivity|]. split; [intros ? ? []|].
    intros row c N. exists c. split; [exact N|].
    split; [destruct c; reflexivity|]. split; reflexivity.
  - destruct (emissionsCase pol) as [[scale iPol]|] eqn:Ec; [|discriminate].
    apply bind_Done in E. destruct E as (d1 & E1 & E).
    destruct (addEmisFlux_spec _ _ _ _ E1) as (Eq1 & La1 & L1 & P1).
    destruct (IH _ _ E) as (Eq & L & Acc & P).
    split; [rewrite Eq, Eq1; reflexivity|]. split; [lia|].
    split.
    { intros p a [[= -> ->]|Hin].
      - split; [|exact La1].
        destruct (in_dec string_dec p EmisNames) as [Y|N]; [exact Y|].
        apply (emissionsCase_accepts (F:=F)) in N. congruence.
      - destruct (Acc p a Hin) as [? ?]. split; [assumption|lia]. }
    intros row c N.
    destruct (P1 row c N) as (c1 & N1 & Ec1 & Lc1 & O1 & G1).
    destruct (P row c1 N1) as (c' & N' & Ec' & Lc' & G').
    exists c'. split; [exact N'|].
    split; [rewrite Ec', Ec1; reflexivity|]. split; [lia|].
    intros i. rewrite G'. cbn [fluxFor].
    assert (Fx : forall v s, fluxInto c1 v s = fluxInto c v s)
      by (intros v s; rewrite Ec1; reflexivity).
    destruct (fluxFor rest i row) as [[v s]|]; [now rewrite Fx|].
    rewrite Ec. destruct (Nat.eqb_spec iPol i) as [<-|Ni].
    + rewrite G1. destruct (nth_error arr row); reflexivity.
    + rewrite (O1 i) by congruence.
      destruct (nth_error arr row); reflexivity.
Qed.

Lemma nth_error_zeros (n i : nat) :
  nth_error (zeros (F:=F) n) i = if i <? n then Some (fofZ 0) else None.
Proof.
  unfold zeros. destruct (Nat.ltb_spec i n) as [L|L].
  - now apply nth_error_repeat.
  - apply nth_error_None. now rewrite repeat_length.
Qed.

(** What [Run] has done to cell [c] of row [row] when it enters its main
    loop. *)
Lemma RunEmissions_spec (d d' : InMAPdata F)
    (emissions : list (string * list F)) :
  RunEmissions d emissions = Done d' ->
  d' = withCells d (Cells d') /\
  List.length (Cells d') = List.length (Cells d) /\
  (forall pol arr, In (pol, arr) emissions ->
     In pol EmisNames /\ List.length arr <= List.length (Cells d)) /\
  forall row c,
    nth_error (Cells d) row = Some c ->
    exists c',
      nth_error (Cells d') row = Some c' /\
      c' = withConc c (zeros 9) (zeros 9) (emisFlux c') /\
      List.length (emisFlux c') = 9 /\
      forall i,
        nth_error (emisFlux c') i
        = match fluxFor emissions i row with
          | Some (val, scale) => Some (fluxInto c val scale)
          | None => if i <? 9 then Some (fofZ 0) else None
          end.
Proof.
  unfold RunEmissions. intros E.
  destruct (emissionsLoop_spec _ _ E) as (Eq & L & Acc & P).
  unfold resetConc in Eq, L, Acc, P. cbn [Cells withCells] in Eq, L, Acc, P.
  rewrite length_map in L, Acc.
  split; [rewrite Eq; reflexivity|]. split; [exact L|]. split; [exact Acc|].
  intros row c N.
  destruct (P row (withConc c (zeros 9) (zeros 9) (zeros 9)))
    as (c' & N' & Ec' & Lc' & G').
  { rewrite nth_error_map, N. reflexivity. }
  exists c'. split; [exact N'|]. split; [rewrite Ec'; reflexivity|].
  cbn [withConc emisFlux] in Lc', G'.
  split; [rewrite Lc'; apply repeat_length|].
  intros i. rewrite G', nth_error_zeros.
  destruct (fluxFor emissions i row) as [[v s]|]; reflexivity.
Qed.

End EmissionsStageFacts.

(** X6.  [addEmisFlux] panics exactly when the emissions array is longer
    than the list of cells or the flux vector of a row it reaches has no
    entry for the species.  When it returns, the cell of each row the
    array reaches holds, in the entry of the species, the emission times
    the scale divided by the three extents of the cell, in place of what
    the entry held; every other entry, every other cell and everything
    else in the domain is as before. *)
Theorem addEmisFlux_stores (F : Type) (H : Float64 F) (d : InMAPdata F)
    (arr : list F) (scale : F) (iPol : nat) :
  (panics (addEmisFlux d arr scale iPol) <->
   List.length (Cells d) < List.length arr \/
   exists row c, row < List.length arr /\
                 nth_error (Cells d) row = Some c /\
                 List.length (emisFlux c) <= iPol)
  /\
  (forall d', addEmisFlux d arr scale iPol = Done d' ->
     d' = withCells d (Cells d') /\
     List.length (Cells d') = List.length (Cells d) /\
     forall row c,
       nth_error (Cells d) row = Some c ->
       exists c',
         nth_error (Cells d') row = Some c' /\
         c' = withConc c (Ci c) (Cf c) (emisFlux c') /\
         List.length (emisFlux c') = List.length (emisFlux c) /\
         (forall i, i <> iPol ->
                    nth_error (emisFlux c') i = nth_error (emisFlux c) i) /\
         nth_error (emisFlux c') iPol
         = match nth_error arr row with
           | Some val => Some (val * scale * (fofZ 1 / Dx c / Dy c / Dz c))%go
           | None => nth_error (emisFlux c) iPol
           end).
Proof.
  rewrite addEmisFlux_emitInto. split.
  - rewrite <- (emitInto_panics scale iPol arr (Cells d)).
    destruct (emitInto (Cells d) arr scale iPol); cbn [bind panics]; tauto.
  - intros d' E. apply bind_Done in E. destruct E as (cells' & Ec & E).
    injection E as <-. cbn [Cells withCells].
    destruct (emitInto_spec _ _ _ _ Ec) as (_ & L & P).
    split; [reflexivity|]. split; [exact L|exact P].
Qed.

Lemma addEmisFlux_stores_witness :
  exists d',
    addEmisFlux twoLayers [3%float] 2%float igNO = Done d' /\
    List.length (Cells d') = 2.
Proof.
  eexists. split; [reflexivity|].
  destruct (proj2 (addEmisFlux_stores _ twoLayers [3%float] 2%float igNO)
              _ eq_refl) as (_ & L & _).
  exact L.
Defined.


(** X7.  When [Run] enters its main loop, every cell has fresh
    concentration vectors of nine zeros, and its flux vector holds, for
    each pollutant of the emissions map whose array reaches the cell's
    row, the emission times the molecular-mass scale of the pollutant
    divided by the cell's three extents, in the entry of the pollutant's
    species, and zero in every entry that no pollutant reaches; the rest
    of the cell and of the domain is as it was.  The map held accepted
    names only, and no array longer than the list of cells. *)
Theorem RunEmissions_result (F : Type) (H : Float64 F) (d d' : InMAPdata F)
    (emissions : list (string * list F)) :
  RunEmissions d emissions = Done d' ->
  NoDup (map fst emissions) ->
  d' = withCells d (Cells d') /\
  List.length (Cells d') = List.length (Cells d) /\
  (forall pol arr, In (pol, arr) emissions ->
     In pol EmisNames /\ List.length arr <= List.length (Cells d)) /\
  forall row c,
    nth_error (Cells d) row = Some c ->
    exists c',
      nth_error (Cells d') row = Some c' /\
      c' = withConc c (zeros 9) (zeros 9) (emisFlux c') /\
      List.length (emisFlux c') = 9 /\
      (forall pol arr scale iPol val,
          In (pol, arr) emissions ->
          emissionsCase pol = Some (scale, iPol) ->
          nth_error arr row = Some val ->
          nth_error (emisFlux c') iPol
          = Some (val * scale * (fofZ 1 / Dx c / Dy c / Dz c))%go) /\
      (forall i,
          i < 9 ->
          (forall pol arr scale,
              In (pol, arr) emissions ->
              emissionsCase pol = Some (scale, i) ->
              List.length arr <= row) ->
          nth_error (emisFlux c') i = Some (fofZ 0)).
Proof.
  intros E ND. destruct (RunEmissions_spec _ _ E) as (Eq & L & Acc & P).
  split; [exact Eq|]. split; [exact L|]. split; [exact Acc|].
  intros row c N. destruct (P row c N) as (c' & N' & Ec' & Lc' & G').
  exists c'. split; [exact N'|]. split; [exact Ec'|]. split; [exact Lc'|].
  split.
  - intros pol arr scale iPol val Hin Hc Hn.
    rewrite G'. erewrite In_fluxFor; [reflexivity|eassumption..].
  - intros i Hi None. rewrite G'.
    destruct (fluxFor emissions i row) as [[v s]|] eqn:Ef.
    + destruct (fluxFor_In _ _ _ Ef) as (p & a & Hin & Hc & Hn).
      specialize (None p a s Hin Hc).
      assert (row < List.length a) by (apply nth_error_Some; congruence).
      lia.
    + apply Nat.ltb_lt in Hi. now rewrite Hi.
Qed.

Lemma RunEmissions_result_witness :
  exists d' c',
    RunEmissions twoLayers [("NOx"%string, [3%float])] = Done d' /\
    nth_error (Cells d') 0 = Some c' /\
    nth_error (emisFlux c') igNO
    = Some (3 * NOxToN * (1 / Dx groundCell / Dy groundCell / Dz groundCell))%float.
Proof.
  eexists.
  destruct (@RunEmissions_result _ _ twoLayers _ [("NOx"%string, [3%float])]
              eq_refl)
    as (_ & _ & _ & P).
  - repeat constructor. intros [].
  - destruct (P 0 groundCell eq_refl) as (c' & N & _ & _ & G & _).
    exists c'. split; [reflexivity|]. split; [exact N|].
    apply (G "NOx"%string [3%float] NOxToN igNO 3%float);
      [now left|reflexivity|reflexivity].
Defined.

(** X8.  The outcome of the emissions stage does not depend on the order
    in which the emissions map is iterated: if [Run] reaches its main
    loop with the pollutants taken in one order, it reaches it in the
    same state with them taken in any other. *)
Theorem RunEmissions_any_order (F : Type) (H : Float64 F)
    (d d' : InMAPdata F) (emissions emissions' : list (string * list F)) :
  Permutation emissions emissions' ->
  NoDup (map fst emissions) ->
  RunEmissions d emissions = Done d' ->
  RunEmissions d emissions' = Done d'.
Proof.
  intros P ND E. destruct (RunEmissions_spec _ _ E) as (Eq & L & Acc & Sp).
  assert (E' : exists d2, RunEmissions d emissions' = Done d2).
  { unfold RunEmissions. apply emissionsLoop_Done.
    - unfold resetConc. cbn [Cells withCells]. apply Forall_forall.
      intros c Hc. apply in_map_iff in Hc. destruct Hc as (c0 & <- & _).
      reflexivity.
    - intros pol arr Hin. unfold resetConc. cbn [Cells withCells].
      rewrite length_map. apply Acc.
      eapply Permutation_in; [apply Permutation_sym; exact P|exact Hin]. }
  destruct E' as (d2 & E2). rewrite E2. f_equal.
  destruct (RunEmissions_spec _ _ E2) as (Eq2 & L2 & _ & Sp2).
  rewrite Eq, Eq2. f_equal. apply nth_error_ext. intros row.
  destruct (nth_error (Cells d) row) as [c|] eqn:N.
  - destruct (Sp row c N) as (c1 & N1 & Ec1 & _ & G1).
    destruct (Sp2 row c N) as (c2 & N2 & Ec2 & _ & G2).
    rewrite N1, N2. f_equal. rewrite Ec1, Ec2. f_equal.
    apply nth_error_ext. intros i.
    rewrite G1, G2. now rewrite (fluxFor_Permutation i row P ND).
  - apply nth_error_None in N.
    transitivity (@None (Cell F)); [|symmetry]; apply nth_error_None; lia.
Qed.

Lemma RunEmissions_any_order_witness :
  RunEmissions twoLayers
    [("NOx"%string, [3%float]); ("VOC"%string, [1%float; 2%float])]
  = RunEmissions twoLayers
      [("VOC"%string, [1%float; 2%float]); ("NOx"%string, [3%float])].
Proof.
  symmetry.
  erewrite (@RunEmissions_any_order _ _ twoLayers _
              [("VOC"%string, [1%float; 2%float]); ("NOx"%string, [3%float])]
              [("NOx"%string, [3%float]); ("VOC"%string, [1%float; 2%float])]).
  - reflexivity.
  - apply perm_swap.
  - repeat constructor; cbn; intuition discriminate.
  - reflexivity.
Defined.

(* ================================================================== *)
(** ** [Run]: the convergence check *)

Lemma SFsub_same (x : spec_float) :
  SF64sub x x = S754_nan \/ SF64sub x x = S754_zero false.
Proof.
  destruct x as [s|s| |s m e].
  - right. destruct s; reflexivity.
  - left. destruct s; reflexivity.
  - now left.
  - right. unfold SF64sub, SFsub. cbv zeta. now rewrite Z.sub_diag.
Qed.

(** The relative change from a sum to itself is zero, or 0/0. *)
Lemma bias_same (s : float) :
  is_nan (bias s s) = true \/ is_zero (bias s s) = true.
Proof.
  rewrite is_nan_SF, is_zero_SF, SF_bias.
  destruct (SFsub_same (SF s)) as [-> | ->]; [now left|].
  destruct (SF s) as [sg|sg| |sg m e]; cbn; eauto.
Qed.

Lemma checkConvergence_same (s : float) : checkConvergence s s = true.
Proof.
  apply converged_iff. destruct (bias_same s) as [N|Z]; [now left|right].
  rewrite leb_spec, abs_spec. apply is_zero_SF in Z. destruct Z as [sg Z].
  unfold SF in Z. rewrite Z. destruct sg; reflexivity.
Qed.

Lemma checkSpecies_same (sums : list float) :
  checkSpecies sums sums = (true, sums).
Proof.
  induction sums as [|s sums IH]; [reflexivity|].
  cbn [checkSpecies]. now rewrite IH, checkConvergence_same.
Qed.

(** X9.  A sum that has not changed is always judged converged, whatever
    its value; hence a check that finds every species sum as the check
    before left it ends the run. *)
Theorem unchanged_sums_converge (d : InMAPdata float) (sums : list float) :
  (forall s : float, checkConvergence s s = true)
  /\ (speciesSums (Cells d) 0 (List.length polNames) = Done sums ->
      convergenceCheck d sums = Done (true, sums)).
Proof.
  split; [exact checkConvergence_same|].
  intros E. unfold convergenceCheck. rewrite E. cbn [bind].
  now rewrite checkSpecies_same.
Qed.

Lemma unchanged_sums_converge_witness :
  convergenceCheck (sampleDomain [loadedCell; loadedCell])
    [2; 4; 6; 8; 10; 12; 14; 16; 18]%float
  = Done (true, [2; 4; 6; 8; 10; 12; 14; 16; 18]%float).
Proof.
  apply (proj2 (unchanged_sums_converge (sampleDomain [loadedCell; loadedCell])
                  [2; 4; 6; 8; 10; 12; 14; 16; 18]%float)).
  reflexivity.
Defined.

Lemma speciesSums_length {F : Type} `{Float64 F} (cells : list (Cell F))
    (n : nat) :
  forall ii sums, speciesSums cells ii n = Done sums -> List.length sums = n.
Proof.
  induction n as [|n IH]; intros ii sums E; cbn [speciesSums] in E.
  - now injection E as <-.
  - apply bind_Done in E. destruct E as (s & _ & E).
    apply bind_Done in E. destruct E as (rest & Er & E).
    injection E as <-. cbn [List.length]. f_equal. exact (IH _ _ Er).
Qed.

Lemma bias_nan_zero (newSum oldSum : float) :
  is_nan newSum = true -> is_nan (bias newSum oldSum) = true.
Proof.
  rewrite !is_nan_SF, SF_bias. intros ->.
  destruct (SF oldSum); reflexivity.
Qed.

(** Against a prior sum of zero, a sum is judged converged exactly when
    it is a zero or not a number. *)
Lemma checkConvergence_from_zero (s : float) :
  checkConvergence s 0%float = true <-> is_zero s = true \/ is_nan s = true.
Proof.
  split.
  - intros C. destruct (is_zero s) eqn:Z; [now left|].
    destruct (is_nan s) eqn:N; [now right|]. exfalso.
    rewrite checkConvergence_b64 in C.
    rewrite (@bias_from_zero s 0%float eq_refl N Z), orb_true_r in C.
    discriminate.
  - intros [Z|N]; apply converged_iff; left.
    + now apply bias_zero_zero.
    + now apply bias_nan_zero.
Qed.

Lemma from_zeros (n : nat) (sums : list float) :
  List.length sums = n ->
  Forall2 (fun s o => checkConvergence s o = true) sums (zeros n) <->
  Forall (fun s => is_zero s = true \/ is_nan s = true) sums.
Proof.
  revert sums. induction n as [|n IH]; intros [|s sums] L; try discriminate.
  - split; constructor.
  - injection L as L. specialize (IH sums L). unfold zeros in *.
    cbn [repeat]. split; intros A; inversion A; subst; constructor.
    + now apply checkConvergence_from_zero.
    + now apply IH.
    + now apply checkConvergence_from_zero.
    + now apply IH.
Qed.

(** X10.  The first convergence check of a run, which compares the sums
    with the zeros [oldSum] starts from, finds every species converged
    exactly when every sum is a zero or not a number: a run in which some
    species has a nonzero mass is never ended by its first check. *)
Theorem first_check_needs_no_mass (d : InMAPdata float) (timeToQuit : bool)
    (oldSum : list float) :
  convergenceCheck d (zeros (List.length polNames)) = Done (timeToQuit, oldSum)
  ->
  speciesSums (Cells d) 0 (List.length polNames) = Done oldSum /\
  (timeToQuit = true <->
   Forall (fun s => is_zero s = true \/ is_nan s = true) oldSum).
Proof.
  unfold convergenceCheck. intros E. apply bind_Done in E.
  destruct E as (sums & Es & E).
  pose proof (speciesSums_length _ _ _ Es) as L.
  destruct (@checkSpecies_all _ _ sums (zeros (List.length polNames)))
    as (Q & S).
  { unfold zeros. now rewrite repeat_length. }
  destruct (checkSpecies sums (zeros (List.length polNames))) as [q rest].
  cbn [fst snd] in Q, S. injection E as <- <-. subst rest.
  split; [exact Es|]. rewrite Q. now apply from_zeros.
Qed.

Lemma first_check_needs_no_mass_witness :
  exists sums,
    convergenceCheck (sampleDomain [loadedCell]) (zeros 9) = Done (false, sums)
    /\ ~ Forall (fun s => is_zero s = true \/ is_nan s = true) sums.
Proof.
  eexists. split; [reflexivity|].
  intros A.
  apply (proj2 (@first_check_needs_no_mass (sampleDomain [loadedCell]) false _
                  eq_refl)) in A.
  discriminate A.
Defined.

(* ================================================================== *)
(** ** [Run]: the bookkeeping of the main loop *)

Module MainLoopFacts.
Import MainLoop.

Lemma wrap64_small (z : Z) :
  (0 <= z < 2 ^ 63)%Z -> wrap64 z = z.
Proof.
  intros R. unfold wrap64. rewrite Z.mod_small; lia.
Qed.

Lemma passes_counted (numIterations : Z) (dt : float) (quits : nat -> bool)
    (m : nat) :
  (numIterations < 2 ^ 63)%Z ->
  forall (k n : nat) (v : vars),
    iteration v = Z.of_nat k ->
    Z.of_nat (k + S m) = numIterations ->
    S m <= n ->
    passes numIterations dt quits n k v
    = (Some (k + S m), repeat Again m ++ [BreakOut]).
Proof.
  intros Hmax. induction m as [|m IH]; intros k n v Hv Hn Le;
    (destruct n as [|n]; [lia|]); cbn [passes]; unfold bookkeeping;
    rewrite Hv, wrap64_small by lia;
    (replace (numIterations >? 0)%Z with true by (symmetry; lia)).
  - replace (Z.of_nat k + 1 >=? numIterations)%Z with true
      by (symmetry; lia).
    cbn [repeat app]. do 2 f_equal. lia.
  - replace (Z.of_nat k + 1 >=? numIterations)%Z with false
      by (symmetry; lia).
    rewrite (IH (S k) n); cbn [iteration]; try lia.
    cbn [repeat app]. do 2 f_equal. lia.
Qed.






End MainLoopFacts.

(** X11.  With [NumIterations] set to [n > 0], the main loop makes
    exactly [n] passes and then waits for the workers and leaves,
    whatever the time step and without a convergence check: the first
    [n - 1] passes are followed by the next pass at once. *)
Theorem fixed_iterations_run (numIterations : Z) (dt : float)
    (quits : nat -> bool) (n : nat) :
  (0 < numIterations < 2 ^ 63)%Z ->
  Z.to_nat numIterations <= n ->
  MainLoop.passes numIterations dt quits n 0 MainLoop.start
  = (Some (Z.to_nat numIterations),
     repeat MainLoop.Again (Z.to_nat numIterations - 1)
     ++ [MainLoop.BreakOut]).
Proof.
  intros R Le.
  rewrite (@MainLoopFacts.passes_counted numIterations dt quits
             (Z.to_nat numIterations - 1) ltac:(lia) 0 n MainLoop.start);
    [|reflexivity|lia|lia].
  do 2 f_equal. lia.
Qed.

Lemma fixed_iterations_run_witness :
  MainLoop.passes 3 10%float (fun _ => true) 5 0 MainLoop.start
  = (Some 3, [MainLoop.Again; MainLoop.Again; MainLoop.BreakOut]).
Proof.
  apply (@fixed_iterations_run 3 10%float (fun _ => true) 5); cbn; lia.
Defined.



(* ================================================================== *)
(** ** Output: what the extraction reads and what it leaves locked *)

Section ExtractionFacts.
Context {F : Type} `{Float64 F}.
Variable popNames : list string.
Variable RRpm25Linear : F -> F.
Variable Deaths : F -> F -> F -> F.

Lemma RUnlock_RLock (c : Cell F) : RUnlock (RLock c) = c.
Proof.
  unfold RUnlock, RLock. destruct c.
  match goal with r : RWMutexState |- _ => destruct r end. reflexivity.
Qed.

Lemma sumConc_withLock (c : Cell F) (m : RWMutexState) (conv : list F)
    (idx : list nat) :
  forall i o, sumConc (withLock c m) conv i idx o = sumConc c conv i idx o.
Proof.
  induction idx as [|ii idx IH]; intros i o; [reflexivity|].
  cbn [sumConc]. change (Cf (withLock c m)) with (Cf c).
  destruct (elem (Cf c) ii); [|reflexivity]. cbn [bind].
  destruct (elem conv i); [|reflexivity]. cbn [bind]. apply IH.
Qed.

Lemma cellFields_withLock (c : Cell F) (m : RWMutexState) :
  Forall (fun e : field F * string =>
            match e with
            | (FFloat get, _) => get (withLock c m) = get c
            | _ => True
            end)
    (map snd cellFields).
Proof. repeat constructor. Qed.

Lemma getValueBody_withLock (self : Cell F -> string -> outcome F)
    (c : Cell F) (m : RWMutexState) (varName : string) :
  (forall v, self (withLock c m) v = self c v) ->
  getValueBody popNames RRpm25Linear Deaths self (withLock c m) varName
  = getValueBody popNames RRpm25Linear Deaths self c varName.
Proof.
  intros Hs. unfold getValueBody.
  destruct (lookup emisLabels varName); [reflexivity|].
  destruct (lookup polLabels varName); [apply sumConc_withLock|].
  destruct (hasKey popNames varName); [reflexivity|].
  destruct (hasKey popNames _); [now rewrite Hs|].
  unfold FieldByName.
  destruct (lookup cellFields varName) as [[[get|k] u]|] eqn:E;
    try reflexivity.
  apply lookup_In in E.
  pose proof (cellFields_withLock c m) as A.
  rewrite Forall_forall in A. specialize (A _ E). cbn in A. now rewrite A.
Qed.

(** What [getValue] returns does not depend on the state of the lock. *)
Lemma getValue_withLock (c : Cell F) (m : RWMutexState) (varName : string) :
  getValue popNames RRpm25Linear Deaths (withLock c m) varName
  = getValue popNames RRpm25Linear Deaths c varName.
Proof.
  unfold getValue. apply getValueBody_withLock.
  intros v. now apply getValueBody_withLock.
Qed.

Lemma toArrayLoop_spec (pol : string) (layer : Z) (cells : list (Cell F)) :
  forall o,
    toArrayLoop popNames RRpm25Linear Deaths cells pol layer o
    = (vals <- traverse (fun c => getValue popNames RRpm25Linear Deaths c pol)
                 (inLayer layer (visitedUpTo layer cells));;
       Done (o ++ vals, leaveLocked layer cells)).
Proof.
  induction cells as [|c rest IH]; intros o;
    cbn [toArrayLoop visitedUpTo inLayer leaveLocked filter traverse bind].
  - now rewrite app_nil_r.
  - change (Layer (RLock c)) with (Layer c).
    destruct (Layer c >? layer)%Z.
    + cbn [inLayer filter traverse bind]. now rewrite app_nil_r.
    + rewrite RUnlock_RLock. cbn [filter].
      destruct (Layer c =? layer)%Z.
      * cbn [traverse]. unfold RLock. rewrite getValue_withLock.
        destruct (getValue popNames RRpm25Linear Deaths c pol) as [v|p];
          [|reflexivity].
        cbn [bind]. rewrite IH. fold (inLayer layer (visitedUpTo layer rest)).
        destruct (traverse _ (inLayer layer (visitedUpTo layer rest)));
          cbn [bind fst snd]; [|reflexivity].
        now rewrite <- app_assoc.
      * cbn [bind]. rewrite IH. fold (inLayer layer (visitedUpTo layer rest)).
        destruct (traverse _ (inLayer layer (visitedUpTo layer rest)));
          cbn [bind fst snd]; reflexivity.
Qed.

Lemma toArray_spec (d : InMAPdata F) (pol : string) (layer : Z) :
  toArray popNames RRpm25Linear Deaths d pol layer
  = (vals <- traverse (fun c => getValue popNames RRpm25Linear Deaths c pol)
               (inLayer layer (visitedUpTo layer (Cells d)));;
     Done (vals, withCells d (leaveLocked layer (Cells d)))).
Proof.
  unfold toArray. rewrite toArrayLoop_spec.
  destruct (traverse _ _); reflexivity.
Qed.




End ExtractionFacts.



(* ================================================================== *)
(** ** [Run]: the output stage *)

Lemma prefix_app (p s : string) :
  String.prefix p s = true <-> exists t, s = (p ++ t)%string.
Proof.
  revert s. induction p as [|a p IH]; intros s.
  - split; [intros _; exists s; reflexivity|].
    intros _. destruct s; reflexivity.
  - destruct s as [|b s]; cbn [String.prefix append];
      [split; [discriminate|intros (t & E); discriminate]|].
    destruct (Ascii.ascii_dec a b) as [->|N].
    + rewrite IH. split; intros (t & E); exists t; congruence.
    + split; [discriminate|]. intros (t & E). congruence.
Qed.

Lemma dropPrefix_app (p t : string) :
  dropPrefix (String.length p) (p ++ t) = t.
Proof. induction p as [|a p IH]; cbn; [now destruct t|exact IH]. Qed.

(** A name that begins with " deaths" once " deaths" is appended to it
    is empty or contains " deaths" itself. *)
Lemma deaths_overlap (x t : string) :
  (deathsSuffix ++ t)%string = (x ++ deathsSuffix)%string ->
  x = EmptyString \/ contains deathsSuffix x.
Proof.
  unfold deathsSuffix. intros E.
  destruct x as [|a1 x]; [now left|right].
  cbn in E. injection E as E1 E. subst.
  repeat (destruct x as [|? x]; [discriminate E|];
          cbn in E; injection E as E1 E; subst).
  exists EmptyString, x. reflexivity.
Qed.

(** Deleting " deaths" from a name with " deaths" appended gives the name
    back, when the name does not hold " deaths" itself. *)
Lemma removeFirst_deaths (pop : string) :
  ~ contains deathsSuffix pop ->
  removeFirst deathsSuffix (pop ++ deathsSuffix) = pop.
Proof.
  induction pop as [|a pop IH]; intros N; [reflexivity|].
  cbn [append]. unfold removeFirst; fold removeFirst.
  destruct (String.prefix deathsSuffix (String a (pop ++ deathsSuffix)))
    eqn:P.
  - apply prefix_app in P. destruct P as (t & E).
    change (String a (pop ++ deathsSuffix))
      with ((String a pop) ++ deathsSuffix)%string in E.
    symmetry in E. apply deaths_overlap in E.
    destruct E as [E|E]; [discriminate|contradiction].
  - f_equal. apply IH. intros (u & v & E). apply N.
    exists (String a u), v. cbn [append]. now rewrite E.
Qed.

Lemma hasKey_In (keys : list string) (k : string) :
  hasKey keys k = true <-> In k keys.
Proof.
  unfold hasKey. rewrite existsb_exists. split.
  - intros (x & Hx & E). apply String.eqb_eq in E. now subst.
  - intros Hk. exists k. split; [exact Hk|apply String.eqb_refl].
Qed.

(** No name [Run] asks for reaches the last case of [getValue] as
    anything but the name of a [float64] field. *)
Lemma outputVariables_resolve (popNames : list string) (name : string) :
  (forall pop, In pop popNames -> ~ contains deathsSuffix pop) ->
  In name (outputVariables (F:=float) popNames) ->
  reachesFallback popNames name = false \/
  (isFloatField name = true /\ isField name = true).
Proof.
  intros Clean Hin. unfold outputVariables in Hin.
  apply in_app_or in Hin. destruct Hin as [Hin|Hin].
  { left. unfold reachesFallback. apply hasKey_In in Hin. rewrite Hin.
    cbn [negb andb]. now rewrite andb_false_r. }
  apply in_app_or in Hin. destruct Hin as [Hin|[<-|[]]].
  2:{ right. split; reflexivity. }
  left. apply in_flat_map in Hin. destruct Hin as (pop & Hp & [<-|[<-|[]]]);
    unfold reachesFallback.
  - apply hasKey_In in Hp. rewrite Hp. cbn [negb andb].
    now rewrite andb_false_r.
  - rewrite (removeFirst_deaths (Clean pop Hp)).
    apply hasKey_In in Hp. rewrite Hp. cbn [negb]. now rewrite andb_false_r.
Qed.

Lemma outputVariables_getValue (popNames : list string)
    (RRpm25Linear : float -> float)
    (Deaths : float -> float -> float -> float) (name : string) :
  (forall pop, In pop popNames -> ~ contains deathsSuffix pop) ->
  In name (outputVariables (F:=float) popNames) ->
  forall c : Cell float, prepared c ->
    exists v, getValue popNames RRpm25Linear Deaths c name = Done v.
Proof.
  intros Clean Hin c (Lc & Le).
  pose proof (outputVariables_resolve Clean Hin) as R.
  destruct (getValue popNames RRpm25Linear Deaths c name) as [v|p] eqn:E;
    [eauto|exfalso].
  assert (P : panics (getValue popNames RRpm25Linear Deaths c name))
    by now rewrite E.
  apply getValue_panics_iff in P; [|exact Lc|exact Le].
  destruct P as [P1 P2]. destruct R as [R|[R _]]; congruence.
Qed.

(** X14.  Every variable name that [Run] extracts resolves: when no
    population name holds " deaths" itself, [getValue] returns a value for
    each of them in every cell whose vectors have their nine entries, and
    [getUnits] returns its units in every domain with a cell.  The name of
    a mortality variable, a population name with " deaths" appended,
    leads back to that population name. *)
Theorem output_names_resolve (popNames : list string)
    (RRpm25Linear : float -> float)
    (Deaths : float -> float -> float -> float) :
  (forall pop, In pop popNames -> ~ contains deathsSuffix pop) ->
  (forall pop, In pop popNames ->
     removeFirst deathsSuffix (pop ++ deathsSuffix) = pop)
  /\
  forall name, In name (outputVariables (F:=float) popNames) ->
    (forall c : Cell float, prepared c ->
       exists v, getValue popNames RRpm25Linear Deaths c name = Done v)
    /\
    (forall d : InMAPdata float, Cells d <> [] ->
       exists u, getUnits popNames d name = Done u).
Proof.
  intros Clean. split.
  { intros pop Hp. now apply removeFirst_deaths, Clean. }
  intros name Hin.
  pose proof (outputVariables_resolve Clean Hin) as R.
  split.
  - now apply outputVariables_getValue.
  - intros d Nd.
    destruct (getUnits popNames d name) as [u|p] eqn:E; [eauto|exfalso].
    assert (P : panics (getUnits popNames d name)) by now rewrite E.
    apply getUnits_panics_iff in P.
    destruct P as [P1 [P2|P2]]; [contradiction|].
    destruct R as [R|[_ R]]; congruence.
Qed.

Lemma output_names_resolve_witness :
  exists v,
    getValue ["TotalPop"%string] (fun x => x) (fun x _ _ => x) loadedCell
      "TotalPop deaths" = Done v.
Proof.
  assert (Clean : forall pop, In pop ["TotalPop"%string] ->
                              ~ contains deathsSuffix pop).
  { intros pop [<-|[]] (u & v & E).
    repeat (destruct u as [|? u];
            [discriminate E|cbn in E; injection E as E1 E; subst]).
    destruct u; discriminate E. }
  apply (proj2 (@output_names_resolve ["TotalPop"%string] (fun x => x)
                  (fun x _ _ => x) Clean) "TotalPop deaths"%string).
  - cbn. tauto.
  - split; reflexivity.
Defined.

Section OutputStage.
Variable popNames : list string.
Variable RRpm25Linear : float -> float.
Variable Deaths : float -> float -> float -> float.


Lemma withLock_same (c : Cell float) : withLock c (RWMutex c) = c.
Proof. destruct c. reflexivity. Qed.

Lemma lockEq_refl (cells : list (Cell float)) : lockEq cells cells.
Proof.
  induction cells as [|c cells IH]; constructor; [|exact IH].
  exists (RWMutex c). symmetry. apply withLock_same.
Qed.

Lemma lockEq_trans (l1 l2 l3 : list (Cell float)) :
  lockEq l1 l2 -> lockEq l2 l3 -> lockEq l1 l3.
Proof.
  intros A. revert l3. induction A as [|c1 c2 l1 l2 (m & ->) _ IH];
    intros l3 B; inversion B as [|? c3 ? l3' (m' & ->) B']; subst;
    constructor; [|now apply IH].
  exists m'. reflexivity.
Qed.

Lemma leaveLocked_lockEq (k : Z) (cells : list (Cell float)) :
  lockEq cells (leaveLocked k cells).
Proof.
  induction cells as [|c cells IH]; cbn [leaveLocked]; [constructor|].
  destruct (Layer c >? k)%Z; constructor.
  - eexists. reflexivity.
  - apply lockEq_refl.
  - exists (RWMutex c). symmetry. apply withLock_same.
  - exact IH.
Qed.

Lemma lockedByLayers_lockEq (n : nat) :
  forall (k : nat) (cells : list (Cell float)),
    lockEq cells
      (fold_left (fun cs j => leaveLocked (Z.of_nat j) cs) (seq k n) cells).
Proof.
  induction n as [|n IH]; intros k cells; cbn [seq fold_left].
  - apply lockEq_refl.
  - eapply lockEq_trans; [apply leaveLocked_lockEq|apply IH].
Qed.

Lemma read_lockEq (k : Z) (l l' : list (Cell float)) :
  lockEq l l' ->
  lockEq (inLayer k (visitedUpTo k l)) (inLayer k (visitedUpTo k l')).
Proof.
  induction 1 as [|c c' l l' (m & ->) _ IH]; [constructor|].
  cbn [visitedUpTo]. change (Layer (withLock c m)) with (Layer c).
  destruct (Layer c >? k)%Z; [constructor|].
  cbn [inLayer filter]. change (Layer (withLock c m)) with (Layer c).
  destruct (Layer c =? k)%Z; [|exact IH].
  constructor; [eexists; reflexivity|exact IH].
Qed.

Lemma valuesAt_lockEq (name : string) (k : nat) (l l' : list (Cell float)) :
  lockEq l l' ->
  valuesAt popNames RRpm25Linear Deaths l name k
  = valuesAt popNames RRpm25Linear Deaths l' name k.
Proof.
  intros E. unfold valuesAt. apply (read_lockEq (Z.of_nat k)) in E.
  induction E as [|c c' r r' (m & ->) _ IH]; [reflexivity|].
  cbn [map]. f_equal; [|exact IH].
  unfold valueOf. now rewrite getValue_withLock.
Qed.

Lemma prepared_lockEq (l l' : list (Cell float)) :
  lockEq l l' -> Forall prepared l -> Forall prepared l'.
Proof.
  induction 1 as [|c c' l l' (m & ->) _ IH]; intros P;
    inversion P; subst; constructor; auto.
Qed.

Lemma read_In (k : Z) (cells : list (Cell float)) (c : Cell float) :
  In c (inLayer k (visitedUpTo k cells)) -> In c cells.
Proof.
  unfold inLayer. intros Hin. apply filter_In in Hin. destruct Hin as [Hin _].
  induction cells as [|x cells IH]; [destruct Hin|].
  cbn [visitedUpTo] in Hin. destruct (Layer x >? k)%Z; [destruct Hin|].
  destruct Hin as [<-|Hin]; [now left|right; auto].
Qed.

Lemma traverse_Done (name : string) (l : list (Cell float)) :
  (forall c, In c l -> exists v, getValue popNames RRpm25Linear Deaths c name = Done v) ->
  traverse (fun c => getValue popNames RRpm25Linear Deaths c name) l
  = Done (map (valueOf popNames RRpm25Linear Deaths name) l).
Proof.
  induction l as [|c l IH]; intros A; [reflexivity|].
  cbn [traverse map]. unfold valueOf at 1.
  destruct (A c (or_introl eq_refl)) as (v & ->). cbn [bind].
  rewrite IH; [reflexivity|]. intros x Hx. apply A. now right.
Qed.

Lemma toArray_Done (d : InMAPdata float) (name : string) (k : nat) :
  readable popNames RRpm25Linear Deaths name -> Forall prepared (Cells d) ->
  toArray popNames RRpm25Linear Deaths d name (Z.of_nat k)
  = Done (valuesAt popNames RRpm25Linear Deaths (Cells d) name k,
          withCells d (leaveLocked (Z.of_nat k) (Cells d))).
Proof.
  intros R P. rewrite toArray_spec, traverse_Done; [reflexivity|].
  intros c Hc. apply R. rewrite Forall_forall in P. apply P.
  eapply read_In; exact Hc.
Qed.

Lemma layersLoop_Done (name : string) (n : nat) :
  readable popNames RRpm25Linear Deaths name ->
  forall (k : nat) (d : InMAPdata float) (done todo : list (list float)),
    List.length done = k -> n <= List.length todo ->
    Forall prepared (Cells d) ->
    layersLoop popNames RRpm25Linear Deaths d name (done ++ todo) k n
    = Done (done
            ++ map (valuesAt popNames RRpm25Linear Deaths (Cells d) name)
                 (seq k n)
            ++ skipn n todo,
            withCells d
              (fold_left (fun cs j => leaveLocked (Z.of_nat j) cs) (seq k n)
                 (Cells d))).
Proof.
  intros R. induction n as [|n IH]; intros k d done todo Lk Ln P.
  - cbn [layersLoop seq map fold_left skipn app]. destruct d; reflexivity.
  - destruct todo as [|t todo]; [cbn in Ln; lia|].
    cbn [layersLoop]. rewrite toArray_Done by assumption.
    cbn [bind fst snd]. rewrite <- Lk, setElem_middle. cbn [bind].
    replace (done ++ valuesAt popNames RRpm25Linear Deaths (Cells d) name
                        (List.length done) :: todo)
      with ((done ++ [valuesAt popNames RRpm25Linear Deaths (Cells d) name
                        (List.length done)]) ++ todo)
      by now rewrite <- app_assoc.
    rewrite IH.
    + cbn [Cells withCells seq map fold_left skipn]. f_equal. f_equal.
      * rewrite <- app_assoc. cbn [app]. do 2 f_equal. f_equal.
        apply map_ext. intros j. symmetry. apply valuesAt_lockEq.
        apply leaveLocked_lockEq.
    + rewrite length_app. cbn. lia.
    + cbn in Ln. lia.
    + cbn [Cells withCells]. eapply prepared_lockEq; [|exact P].
      apply leaveLocked_lockEq.
Qed.

Lemma skipn_repeat {A} (x : A) (n N : nat) :
  skipn n (repeat x N) = repeat x (N - n).
Proof.
  revert N. induction n as [|n IH]; intros [|N]; cbn; try reflexivity.
  apply IH.
Qed.

Lemma rowsOf_lockEq (nlayers outputLay : nat) (name : string)
    (l l' : list (Cell float)) :
  lockEq l l' ->
  rowsOf popNames RRpm25Linear Deaths l nlayers outputLay name
  = rowsOf popNames RRpm25Linear Deaths l' nlayers outputLay name.
Proof.
  intros E. unfold rowsOf. f_equal. apply map_ext. intros k.
  now apply valuesAt_lockEq.
Qed.

Lemma outputLoop_Done (outputLay : nat) (names : list string) :
  Forall (readable popNames RRpm25Linear Deaths) names ->
  forall d : InMAPdata float,
    outputLay <= Nlayers d -> Forall prepared (Cells d) ->
    outputLoop popNames RRpm25Linear Deaths d names outputLay
    = Done (map (fun name =>
                   (name, rowsOf popNames RRpm25Linear Deaths (Cells d)
                            (Nlayers d) outputLay name)) names,
            withCells d
              (lockedByOutput (List.length names) outputLay (Cells d))).
Proof.
  induction 1 as [|name names R _ IH]; intros d Le P.
  - cbn [outputLoop map lockedByOutput List.length]. destruct d; reflexivity.
  - cbn [outputLoop].
    pose proof (@layersLoop_Done name outputLay R 0 d []
                  (repeat [] (Nlayers d)) eq_refl) as L.
    cbn [app] in L. rewrite L; [|now rewrite repeat_length|exact P].
    cbn [bind fst snd]. rewrite IH.
    + cbn [bind fst snd Cells withCells Nlayers map List.length
             lockedByOutput].
      rewrite skipn_repeat. fold (lockedByLayers outputLay (Cells d)).
      f_equal. f_equal. f_equal.
      apply map_ext_in. intros nm _. f_equal. symmetry.
      apply rowsOf_lockEq. apply lockedByLayers_lockEq.
    + exact Le.
    + cbn [Cells withCells]. eapply prepared_lockEq; [|exact P].
      apply lockedByLayers_lockEq.
Qed.

End OutputStage.

(** X15.  The output stage of [Run], for cells whose vectors have their
    nine entries and population names that do not hold " deaths".  With
    at least as many layers in the domain as are extracted, it returns
    one entry for each output variable, in their order, each with one row
    for every layer of the domain: the rows of the layers extracted hold
    the values of the cells of the layer that stand before the first cell
    of a higher layer, the other rows are empty.  Nothing in the domain
    changes but the read locks that each extraction leaves behind.  With
    no layer in the domain and ground-level output asked for, it
    panics. *)
Theorem RunOutput_result (popNames : list string)
    (RRpm25Linear : float -> float)
    (Deaths : float -> float -> float -> float)
    (d : InMAPdata float) (outputAllLayers : bool) :
  (forall pop, In pop popNames -> ~ contains deathsSuffix pop) ->
  Forall prepared (Cells d) ->
  let outputLay := if outputAllLayers then Nlayers d else 1 in
  (outputLay <= Nlayers d ->
   RunOutput popNames RRpm25Linear Deaths d outputAllLayers
   = Done (map (fun name =>
                  (name, rowsOf popNames RRpm25Linear Deaths (Cells d)
                           (Nlayers d) outputLay name))
             (outputVariables popNames),
           withCells d
             (lockedByOutput (List.length (outputVariables (F:=float) popNames))
                outputLay (Cells d))))
  /\
  (Nlayers d < outputLay ->
   panics (RunOutput popNames RRpm25Linear Deaths d outputAllLayers)).
Proof.
  intros Clean P outputLay. split.
  - intros Le. unfold RunOutput. fold outputLay.
    apply outputLoop_Done; try assumption.
    apply Forall_forall. intros name Hin c Pc.
    now apply (outputVariables_getValue RRpm25Linear Deaths Clean Hin).
  - intros Lt. unfold RunOutput. fold outputLay.
    destruct outputAllLayers; subst outputLay; [lia|].
    assert (N0 : Nlayers d = 0) by lia.
    unfold outputVariables. cbn [polLabels map fst app outputLoop layersLoop].
    rewrite N0. cbn [repeat].
    destruct (toArray _ _ _ d _ _) as [r|p]; exact I.
Qed.


Lemma RunOutput_result_witness :
  RunOutput [] (fun x => x) (fun x _ _ => x) twoLayers false
  = Done (map (fun name =>
                 (name, rowsOf [] (fun x => x) (fun x _ _ => x)
                          (Cells twoLayers) 1 1 name))
            (outputVariables []),
          withCells twoLayers
            (lockedByOutput (List.length (outputVariables (F:=float) [])) 1
               (Cells twoLayers))).
Proof.
  apply (proj1 (@RunOutput_result [] (fun x => x) (fun x _ _ => x) twoLayers
                  false (fun _ (H : In _ []) => match H with end)
                  ltac:(repeat constructor))).
  cbn. lia.
Defined.

(* ================================================================== *)
(** ** [doScience]: one worker, one science function *)

Lemma replaceAt_length {A} (l : list A) (i : nat) (a : A) :
  List.length (replaceAt l i a) = List.length l.
Proof.
  revert i. induction l as [|x l IH]; intros [|i]; cbn; auto.
Qed.

Lemma replaceAt_same {A} (l : list A) (i : nat) (a x : A) :
  nth_error l i = Some x -> nth_error (replaceAt l i a) i = Some a.
Proof.
  revert i. induction l as [|y l IH]; intros [|i] E; try discriminate;
    cbn [replaceAt nth_error]; [reflexivity|now apply IH].
Qed.

Lemma replaceAt_other {A} (l : list A) (i j : nat) (a : A) :
  j <> i -> nth_error (replaceAt l i a) j = nth_error l j.
Proof.
  revert i j. induction l as [|y l IH]; intros [|i] [|j] N;
    cbn [replaceAt nth_error]; try reflexivity; try congruence.
  apply IH. congruence.
Qed.

Lemma replaceAt_twice {A} (l : list A) (i : nat) (a b : A) :
  replaceAt (replaceAt l i a) i b = replaceAt l i b.
Proof.
  revert i. induction l as [|y l IH]; intros [|i]; cbn [replaceAt];
    try reflexivity. now rewrite IH.
Qed.

Lemma visits_self (nprocs ii : nat) : visits nprocs ii ii = true.
Proof.
  unfold visits. now rewrite Nat.leb_refl, Nat.sub_diag, Nat.Div0.mod_0_l.
Qed.

Lemma visits_before (nprocs ii j : nat) : j < ii -> visits nprocs ii j = false.
Proof.
  intros L. unfold visits. destruct (Nat.leb_spec ii j); [lia|reflexivity].
Qed.

Lemma visits_next (nprocs ii j : nat) :
  0 < nprocs -> j <> ii ->
  visits nprocs (ii + nprocs) j = visits nprocs ii j.
Proof.
  intros Hn Nj. unfold visits.
  destruct (Nat.leb_spec (ii + nprocs) j) as [L|L].
  - replace (ii <=? j) with true by (symmetry; apply Nat.leb_le; lia).
    cbn [andb]. replace (j - ii) with ((j - (ii + nprocs)) + 1 * nprocs) by lia.
    now rewrite Nat.Div0.mod_add.
  - cbn [andb]. destruct (Nat.leb_spec ii j) as [L'|L']; [|reflexivity].
    cbn [andb]. symmetry. apply Nat.eqb_neq.
    rewrite Nat.mod_small by lia. lia.
Qed.

Lemma visits_mod (nprocs p j : nat) :
  p < nprocs -> visits nprocs p j = (j mod nprocs =? p).
Proof.
  intros Hp. unfold visits.
  destruct (Nat.eqb_spec (j mod nprocs) p) as [E|N].
  - pose proof (Nat.div_mod_eq j nprocs) as D.
    replace (p <=? j) with true by (symmetry; apply Nat.leb_le; lia).
    cbn [andb]. apply Nat.eqb_eq.
    replace (j - p) with (0 + (j / nprocs) * nprocs) by lia.
    rewrite Nat.Div0.mod_add. apply Nat.Div0.mod_0_l.
  - destruct (Nat.leb_spec p j) as [L|L]; [|reflexivity].
    cbn [andb]. apply Nat.eqb_neq. intros E. apply N.
    apply Nat.Div0.div_exact in E.
    replace j with (p + (j - p) / nprocs * nprocs) by lia.
    rewrite Nat.Div0.mod_add. now apply Nat.mod_small.
Qed.

Section WorkerFacts.
Context {F : Type} `{Float64 F}.

Lemma Lock_Some (c c1 : Cell F) :
  Lock c = Some c1 <-> free c /\ c1 = withLock c (mkRW 0 true).
Proof.
  unfold Lock, free. destruct (RWMutex c) as [[|r] [|]]; split;
    try discriminate; try (intros [E _]; discriminate).
  - intros [= <-]. now split.
  - intros [_ ->]. reflexivity.
Qed.

Lemma Lock_None (c : Cell F) : Lock c = None <-> ~ free c.
Proof.
  unfold Lock, free. destruct (RWMutex c) as [[|r] [|]]; split;
    try discriminate; try congruence; intros N; exfalso; now apply N.
Qed.

Lemma withLock_free (c : Cell F) : free c -> withLock c (mkRW 0 false) = c.
Proof. unfold free. intros E. rewrite <- E. destruct c. reflexivity. Qed.

Lemma Unlock_Lock (c c1 : Cell F) : Lock c = Some c1 -> Unlock c1 = c.
Proof.
  intros E. apply Lock_Some in E. destruct E as [Fr ->].
  transitivity (withLock c (mkRW 0 false)); [reflexivity|].
  now apply withLock_free.
Qed.

Variable f : scienceFunc (F:=F).

Lemma doScienceLoop_finishes (nprocs : nat) :
  0 < nprocs ->
  forall (fuel ii : nat) (d : InMAPdata F),
    List.length (Cells d) - ii < fuel ->
    doScienceLoop fuel nprocs ii f d <> Unfinished.
Proof.
  intros Hn. induction fuel as [|fuel IH]; intros ii d L; [lia|].
  cbn [doScienceLoop].
  destruct (nth_error (Cells d) ii) as [c|] eqn:N; [|discriminate].
  assert (ii < List.length (Cells d)) by (apply nth_error_Some; congruence).
  destruct (Lock c) as [c1|]; [|discriminate].
  destruct (if (Layer c1 <=? topLayerToCalc)%Z then _ else _) as [c2|p];
    [|discriminate].
  apply IH. cbn [Cells withCells]. rewrite !replaceAt_length. lia.
Qed.

Lemma doScienceLoop_Returns (nprocs : nat) :
  0 < nprocs ->
  forall (fuel ii : nat) (d d' : InMAPdata F),
    doScienceLoop fuel nprocs ii f d = Returns d' ->
    d' = withCells d (Cells d') /\
    List.length (Cells d') = List.length (Cells d) /\
    forall j c,
      nth_error (Cells d) j = Some c ->
      if visits nprocs ii j then
        exists c1, Lock c = Some c1 /\
          if (Layer c <=? topLayerToCalc)%Z then
            exists dj c2, Dt dj = Dt d /\ f c1 dj = Done c2 /\
                          nth_error (Cells d') j = Some (Unlock c2)
          else nth_error (Cells d') j = Some c
      else nth_error (Cells d') j = Some c.
Proof.
  intros Hn. induction fuel as [|fuel IH]; intros ii d d' E; [discriminate|].
  cbn [doScienceLoop] in E.
  destruct (nth_error (Cells d) ii) as [c0|] eqn:N0.
  2:{ injection E as <-. split; [destruct d; reflexivity|].
      split; [reflexivity|]. intros j c Nj.
      rewrite visits_before; [exact Nj|].
      apply nth_error_None in N0.
      assert (j < List.length (Cells d)) by (apply nth_error_Some; congruence).
      lia. }
  destruct (Lock c0) as [c1|] eqn:L0; [|discriminate].
  assert (Ly : Layer c1 = Layer c0).
  { apply Lock_Some in L0. destruct L0 as [_ ->]. reflexivity. }
  destruct (if (Layer c1 <=? topLayerToCalc)%Z then _ else _) as [c2|p] eqn:Ef;
    [|discriminate].
  apply IH in E. cbn [Cells withCells Dt] in E.
  rewrite replaceAt_twice in E. destruct E as (Eq & Len & P).
  rewrite replaceAt_length in Len.
  split; [rewrite Eq; reflexivity|]. split; [exact Len|].
  intros j c Nj. destruct (Nat.eq_dec j ii) as [->|Nji].
  - rewrite visits_self. rewrite N0 in Nj. injection Nj as <-.
    exists c1. split; [exact L0|].
    specialize (P ii (Unlock c2) (replaceAt_same _ _ _ N0)).
    rewrite visits_before in P by lia.
    rewrite Ly in Ef. destruct (Layer c0 <=? topLayerToCalc)%Z.
    + eexists. exists c2. split; [|split; [exact Ef|exact P]]. reflexivity.
    + injection Ef as <-. now rewrite (@Unlock_Lock c0 c1 L0) in P.
  - specialize (P j c). rewrite replaceAt_other in P by exact Nji.
    specialize (P Nj). rewrite visits_next in P by assumption.
    destruct (visits nprocs ii j); [|exact P].
    destruct P as (c1' & L' & P). exists c1'. split; [exact L'|].
    destruct (Layer c <=? topLayerToCalc)%Z; [|exact P].
    destruct P as (dj & c2' & Edt & Ef' & Nn). now exists dj, c2'.
Qed.

End WorkerFacts.

(** X16.  A worker treating a science function, with at least one
    processor.  The inner loop ends within as many passes as there are
    cells from the worker's first one.  When it is left, the domain has
    changed in its cells only, and only in the cells the worker visits
    ([procNum], [procNum + nprocs], ...) that lie at or below layer
    [topLayerToCalc]: each of them was free, was given to the function
    under its write lock, and holds what the function left, unlocked;
    every other cell is as it was.  A visited cell whose lock is held
    keeps the worker from leaving the loop. *)
Theorem doScience_visits (F : Type) (H : Float64 F) (nprocs procNum fuel : nat)
    (f : scienceFunc) (d : InMAPdata F) :
  0 < nprocs ->
  (List.length (Cells d) - procNum < fuel ->
   doScience fuel nprocs procNum f d <> Unfinished)
  /\
  (forall d',
      doScience fuel nprocs procNum f d = Returns d' ->
      d' = withCells d (Cells d') /\
      List.length (Cells d') = List.length (Cells d) /\
      forall j c,
        nth_error (Cells d) j = Some c ->
        if visits nprocs procNum j then
          exists c1, Lock c = Some c1 /\
            if (Layer c <=? topLayerToCalc)%Z then
              exists dj c2, Dt dj = Dt d /\ f c1 dj = Done c2 /\
                            nth_error (Cells d') j = Some (Unlock c2)
            else nth_error (Cells d') j = Some c
        else nth_error (Cells d') j = Some c)
  /\
  (forall j c,
      visits nprocs procNum j = true -> nth_error (Cells d) j = Some c ->
      ~ free c ->
      forall d', doScience fuel nprocs procNum f d <> Returns d').
Proof.
  intros Hn. unfold doScience. split; [now apply doScienceLoop_finishes|].
  split; [intros d'; now apply doScienceLoop_Returns|].
  intros j c V N NF d' E.
  destruct (doScienceLoop_Returns f Hn _ _ _ E) as (_ & _ & P).
  specialize (P j c N). rewrite V in P. destruct P as (c1 & L & _).
  apply Lock_Some in L. now destruct L.
Qed.

Lemma doScience_visits_witness :
  doScience 3 2 1 emissionsFunc twoLayers <> Unfinished.
Proof.
  apply (proj1 (@doScience_visits _ _ 2 1 3 emissionsFunc twoLayers
                  ltac:(lia))).
  cbn. lia.
Defined.

Section SecondRun.
Context {F : Type} `{Float64 F}.
Variable popNames : list string.
Variable RRpm25Linear : F -> F.
Variable Deaths : F -> F -> F -> F.

Lemma layersLoop_locks (name : string) (n : nat) :
  forall (k : nat) (d d' : InMAPdata F) (rows rows' : list (list F)),
    layersLoop popNames RRpm25Linear Deaths d name rows k n = Done (rows', d') ->
    d' = withCells d
           (fold_left (fun cs j => leaveLocked (Z.of_nat j) cs) (seq k n)
              (Cells d)).
Proof.
  induction n as [|n IH]; intros k d d' rows rows' E; cbn [layersLoop] in E.
  - injection E as _ <-. destruct d; reflexivity.
  - apply bind_Done in E. destruct E as ([vals d1] & E1 & E).
    apply bind_Done in E. destruct E as (rows1 & _ & E).
    cbn [fst snd] in E. apply IH in E.
    rewrite toArray_spec in E1. apply bind_Done in E1.
    destruct E1 as (v & _ & E1). injection E1 as _ <-.
    rewrite E. reflexivity.
Qed.

Lemma outputLoop_locks (outputLay : nat) (names : list string) :
  forall (d d' : InMAPdata F) out,
    outputLoop popNames RRpm25Linear Deaths d names outputLay = Done (out, d')
    -> d' = withCells d
              (lockedByOutput (List.length names) outputLay (Cells d)).
Proof.
  induction names as [|name names IH]; intros d d' out E;
    cbn [outputLoop] in E.
  - injection E as _ <-. destruct d; reflexivity.
  - apply bind_Done in E. destruct E as ([rows d1] & E1 & E).
    apply bind_Done in E. destruct E as ([outs d2] & E2 & E).
    cbn [fst snd] in E, E2. injection E as _ <-.
    apply layersLoop_locks in E1. apply IH in E2.
    rewrite E2, E1. reflexivity.
Qed.

Lemma leaveLocked_first (layer : Z) (before : list (Cell F)) (c : Cell F)
    (after : list (Cell F)) :
  Forall (fun b => (Layer b <= layer)%Z) before -> (Layer c > layer)%Z ->
  leaveLocked layer (before ++ c :: after) = before ++ RLock c :: after.
Proof.
  intros B C. induction B as [|b before Hb _ IH]; cbn [app leaveLocked].
  - replace (Layer c >? layer)%Z with true by (symmetry; lia). reflexivity.
  - replace (Layer b >? layer)%Z with false by (symmetry; lia).
    now rewrite IH.
Qed.

Lemma Layer_RLocks (n : nat) (c : Cell F) : Layer (RLocks n c) = Layer c.
Proof. revert c. induction n as [|n IH]; intros c; [reflexivity|]. cbn [RLocks]. now rewrite IH. Qed.

Lemma readers_RLocks (n : nat) (c : Cell F) :
  readers (RWMutex (RLocks n c)) = n + readers (RWMutex c).
Proof.
  revert c. induction n as [|n IH]; intros c; [reflexivity|].
  cbn [RLocks]. rewrite IH. cbn. lia.
Qed.

Lemma lockedByOutput_ground (n : nat) (before : list (Cell F)) (c : Cell F)
    (after : list (Cell F)) :
  Forall (fun b => (Layer b <= 0)%Z) before -> (Layer c > 0)%Z ->
  lockedByOutput n 1 (before ++ c :: after) = before ++ RLocks n c :: after.
Proof.
  intros B. revert c. induction n as [|n IH]; intros c C; [reflexivity|].
  cbn [lockedByOutput RLocks]. unfold lockedByLayers.
  cbn [seq fold_left Z.of_nat]. rewrite leaveLocked_first by assumption.
  apply IH. change (Layer (RLock c)) with (Layer c). exact C.
Qed.

End SecondRun.

(** X17.  After the output stage of [Run] with ground-level output, on a
    domain whose cells at ground level come first, the first cell above
    the ground holds one read lock for each output variable, which no one
    releases.  From then on a worker that visits this cell cannot take
    its write lock: in a second [Run] of the domain, whatever the
    emissions, the treatment of a science function by that worker is
    never completed. *)
Theorem second_run_blocks (F : Type) (H : Float64 F) (popNames : list string)
    (RRpm25Linear : F -> F) (Deaths : F -> F -> F -> F)
    (d d' : InMAPdata F) (out : list (string * list (list F)))
    (before : list (Cell F)) (c : Cell F) (after : list (Cell F)) :
  RunOutput popNames RRpm25Linear Deaths d false = Done (out, d') ->
  Cells d = before ++ c :: after ->
  Forall (fun b => (Layer b <= 0)%Z) before -> (Layer c > 0)%Z ->
  Cells d'
  = before ++ RLocks (List.length (outputVariables (F:=F) popNames)) c :: after
  /\
  forall emissions d2 nprocs fuel f d3,
    RunEmissions d' emissions = Done d2 ->
    0 < nprocs ->
    doScience fuel nprocs (List.length before mod nprocs) f d2 <> Returns d3.
Proof.
  intros E EC B C. unfold RunOutput in E. apply outputLoop_locks in E.
  rewrite EC, lockedByOutput_ground in E by assumption.
  assert (EC' : Cells d'
                = before
                  ++ RLocks (List.length (outputVariables (F:=F) popNames)) c
                  :: after) by (rewrite E; reflexivity).
  split; [exact EC'|].
  intros emissions d2 nprocs fuel f d3 E2 Hn R.
  destruct (RunEmissions_spec _ _ E2) as (_ & _ & _ & P).
  destruct (P (List.length before)
              (RLocks (List.length (outputVariables (F:=F) popNames)) c))
    as (c2 & N2 & Ec2 & _).
  { rewrite EC'. apply nth_error_middle. }
  destruct (doScienceLoop_Returns f Hn _ _ _ R) as (_ & _ & V).
  specialize (V _ _ N2).
  rewrite visits_mod in V by (apply Nat.mod_upper_bound; lia).
  rewrite Nat.eqb_refl in V. destruct V as (c1 & L & _).
  apply Lock_Some in L. destruct L as [Fr _]. unfold free in Fr.
  rewrite Ec2 in Fr. cbn [withConc RWMutex] in Fr.
  pose proof (readers_RLocks
                (List.length (outputVariables (F:=F) popNames)) c) as Rd.
  rewrite Fr in Rd. cbn [readers] in Rd.
  unfold outputVariables in Rd. rewrite length_app in Rd. cbn in Rd. lia.
Qed.

Lemma second_run_blocks_witness :
  Cells (withCells twoLayers [groundCell; RLocks 11 upperCell])
  = [groundCell]
    ++ RLocks (List.length (outputVariables (F:=float) [])) upperCell :: []
  /\
  doScience 5 2 1 emissionsFunc
    (withCells twoLayers [groundCell; RLocks 11 upperCell])
  <> Returns twoLayers.
Proof.
  destruct (@second_run_blocks _ _ [] (fun x => x) (fun x _ _ => x)
              twoLayers
              (withCells twoLayers [groundCell; RLocks 11 upperCell])
              (map (fun name => (name, [[valueOf [] (fun x => x)
                                           (fun x _ _ => x) name groundCell]]))
                 (outputVariables (F:=float) []))
              [groundCell] upperCell [])
    as (A & B).
  - vm_compute. reflexivity.
  - reflexivity.
  - repeat constructor. cbn. lia.
  - cbn. lia.
  - split; [exact A|].
    apply (B [] _ 2 5 emissionsFunc twoLayers); [vm_compute; reflexivity|lia].
Defined.

(* ================================================================== *)
(** ** The emissions operator through the pool of workers *)

Section PoolEmissions.
Context {F : Type} `{Float64 F}.

Lemma addEmissionsFluxLoop_withLock (m : RWMutexState) (dt : F) (n : nat) :
  forall (i : nat) (c : Cell F),
    addEmissionsFluxLoop (withLock c m) dt i n
    = match addEmissionsFluxLoop c dt i n with
      | Done c' => Done (withLock c' m)
      | Panic p => Panic p
      end.
Proof.
  induction n as [|n IH]; intros i c; [reflexivity|].
  cbn [addEmissionsFluxLoop].
  change (Cf (withLock c m)) with (Cf c).
  change (Ci (withLock c m)) with (Ci c).
  change (emisFlux (withLock c m)) with (emisFlux c).
  destruct (elem (Cf c) i); [|reflexivity]. cbn [bind].
  destruct (elem (emisFlux c) i); [|reflexivity]. cbn [bind].
  destruct (setElem (Cf c) i _); [|reflexivity]. cbn [bind].
  destruct (setElem (Ci c) i _); [|reflexivity]. cbn [bind].
  rewrite <- IH. reflexivity.
Qed.

Lemma emitted_Done (dt : F) (c : Cell F) :
  holdsSpecies c ->
  addEmissionsFluxLoop c dt 0 (List.length polNames) = Done (emitted dt c)
  /\ holdsSpecies (emitted dt c)
  /\ RWMutex (emitted dt c) = RWMutex c
  /\ Layer (emitted dt c) = Layer c.
Proof.
  intros Hc.
  destruct (@addEmissionsFlux_Done _ _ c (withDt (sampleDomain []) dt) Hc)
    as (c' & E & Eq & Li & Lf & _).
  unfold addEmissionsFlux in E. cbn [Dt withDt] in E.
  unfold emitted. rewrite E. split; [reflexivity|].
  destruct Hc as (H1 & H2 & H3).
  split; [|split; rewrite Eq; reflexivity].
  unfold holdsSpecies. rewrite Li, Lf.
  replace (emisFlux c') with (emisFlux c) by (rewrite Eq; reflexivity).
  auto.
Qed.

Lemma doScienceLoop_emissions (nprocs : nat) :
  0 < nprocs ->
  forall (fuel ii : nat) (d : InMAPdata F),
    List.length (Cells d) - ii < fuel ->
    Forall free (Cells d) -> Forall holdsSpecies (Cells d) ->
    exists d',
      doScienceLoop fuel nprocs ii emissionsFunc d = Returns d' /\
      d' = withCells d (Cells d') /\
      List.length (Cells d') = List.length (Cells d) /\
      forall j c,
        nth_error (Cells d) j = Some c ->
        nth_error (Cells d') j
        = Some (if visits nprocs ii j && (Layer c <=? topLayerToCalc)%Z
                then emitted (Dt d) c else c).
Proof.
  intros Hn. induction fuel as [|fuel IH]; intros ii d L Fr Hs; [lia|].
  cbn [doScienceLoop].
  destruct (nth_error (Cells d) ii) as [c0|] eqn:N0.
  2:{ exists d. split; [reflexivity|]. split; [destruct d; reflexivity|].
      split; [reflexivity|]. intros j c Nj.
      rewrite visits_before; [exact Nj|].
      apply nth_error_None in N0.
      assert (j < List.length (Cells d)) by (apply nth_error_Some; congruence).
      lia. }
  assert (Lt : ii < List.length (Cells d))
    by (apply nth_error_Some; congruence).
  assert (F0 : free c0).
  { rewrite Forall_forall in Fr. apply Fr. eapply nth_error_In; eassumption. }
  assert (H0 : holdsSpecies c0).
  { rewrite Forall_forall in Hs. apply Hs. eapply nth_error_In; eassumption. }
  rewrite (proj2 (Lock_Some c0 _) (conj F0 eq_refl)).
  change (Layer (withLock c0 (mkRW 0 true))) with (Layer c0).
  destruct (emitted_Done (Dt d) H0) as (Ee & He & Le & Lye).
  set (c2 := if (Layer c0 <=? topLayerToCalc)%Z
             then emitted (Dt d) c0 else c0).
  assert (Step :
    (if (Layer c0 <=? topLayerToCalc)%Z
     then emissionsFunc (withLock c0 (mkRW 0 true))
            (withCells d (replaceAt (Cells d) ii (withLock c0 (mkRW 0 true))))
     else Done (withLock c0 (mkRW 0 true)))
    = Done (withLock c2 (mkRW 0 true))).
  { subst c2. destruct (Layer c0 <=? topLayerToCalc)%Z; [|reflexivity].
    unfold emissionsFunc, addEmissionsFlux. cbn [Dt withCells].
    now rewrite addEmissionsFluxLoop_withLock, Ee. }
  rewrite Step. cbn [Cells withCells]. rewrite replaceAt_twice.
  assert (U : Unlock (withLock c2 (mkRW 0 true)) = c2).
  { transitivity (withLock c2 (mkRW 0 false)); [reflexivity|].
    apply withLock_free. unfold free. subst c2.
    destruct (Layer c0 <=? topLayerToCalc)%Z; [now rewrite Le|exact F0]. }
  rewrite U.
  assert (P2 : free c2 /\ holdsSpecies c2).
  { subst c2. destruct (Layer c0 <=? topLayerToCalc)%Z;
      [split; [unfold free; now rewrite Le|exact He]|now split]. }
  destruct (IH (ii + nprocs) (withCells d (replaceAt (Cells d) ii c2)))
    as (d' & E & Eq & Len & P).
  { cbn [Cells withCells]. rewrite replaceAt_length. lia. }
  { cbn [Cells withCells]. apply Forall_forall. intros x Hx.
    apply In_nth_error in Hx. destruct Hx as (j & Hj).
    destruct (Nat.eq_dec j ii) as [->|Nj].
    - rewrite (replaceAt_same _ _ _ N0) in Hj. injection Hj as <-.
      apply P2.
    - rewrite replaceAt_other in Hj by exact Nj.
      rewrite Forall_forall in Fr. apply Fr. eapply nth_error_In; eassumption. }
  { cbn [Cells withCells]. apply Forall_forall. intros x Hx.
    apply In_nth_error in Hx. destruct Hx as (j & Hj).
    destruct (Nat.eq_dec j ii) as [->|Nj].
    - rewrite (replaceAt_same _ _ _ N0) in Hj. injection Hj as <-.
      apply P2.
    - rewrite replaceAt_other in Hj by exact Nj.
      rewrite Forall_forall in Hs. apply Hs. eapply nth_error_In; eassumption. }
  cbn [Cells withCells Dt] in *. rewrite replaceAt_length in Len.
  exists d'. split; [exact E|]. split; [rewrite Eq; reflexivity|].
  split; [exact Len|].
  intros j c Nj. destruct (Nat.eq_dec j ii) as [->|Nji].
  - rewrite N0 in Nj. injection Nj as <-.
    rewrite (P ii c2 (replaceAt_same _ _ _ N0)).
    rewrite visits_before by lia. rewrite visits_self. reflexivity.
  - rewrite (P j c) by (rewrite replaceAt_other by exact Nji; exact Nj).
    now rewrite visits_next by assumption.
Qed.

Lemma Forall_nth_error {A} (P : A -> Prop) (l : list A) :
  (forall j x, nth_error l j = Some x -> P x) -> Forall P l.
Proof.
  intros A'. apply Forall_forall. intros x Hx.
  apply In_nth_error in Hx. destruct Hx as (j & Hj). eauto.
Qed.

Lemma poolFrom_emissions (fuel nprocs : nat) :
  0 < nprocs ->
  forall (n p0 : nat) (d : InMAPdata F),
    p0 + n <= nprocs -> List.length (Cells d) < fuel ->
    Forall free (Cells d) -> Forall holdsSpecies (Cells d) ->
    exists d',
      poolFrom fuel nprocs p0 n emissionsFunc d = Returns d' /\
      d' = withCells d (Cells d') /\
      List.length (Cells d') = List.length (Cells d) /\
      forall j c,
        nth_error (Cells d) j = Some c ->
        nth_error (Cells d') j = Some (treatedBy nprocs p0 n (Dt d) j c).
Proof.
  intros Hn. induction n as [|n IH]; intros p0 d Le Lf Fr Hs.
  - exists d. split; [reflexivity|]. split; [destruct d; reflexivity|].
    split; [reflexivity|]. intros j c Nj. unfold treatedBy.
    destruct (Nat.leb_spec p0 (j mod nprocs)),
      (Nat.ltb_spec (j mod nprocs) (p0 + 0)); cbn [andb];
      try (rewrite Nj; reflexivity); lia.
  - cbn [poolFrom]. unfold doScience.
    destruct (@doScienceLoop_emissions nprocs Hn fuel p0 d)
      as (d1 & E1 & Eq1 & Len1 & P1); [lia|assumption|assumption|].
    rewrite E1.
    assert (Fr1 : Forall free (Cells d1) /\ Forall holdsSpecies (Cells d1)).
    { split; apply Forall_nth_error; intros j x Hj.
      - assert (Lj : j < List.length (Cells d))
          by (rewrite <- Len1; apply nth_error_Some; congruence).
        destruct (nth_error (Cells d) j) as [c|] eqn:Nj;
          [|apply nth_error_None in Nj; lia].
        rewrite (P1 j c Nj) in Hj. injection Hj as <-.
        assert (Fc : free c).
        { rewrite Forall_forall in Fr. apply Fr.
          eapply nth_error_In; eassumption. }
        assert (Hc : holdsSpecies c).
        { rewrite Forall_forall in Hs. apply Hs.
          eapply nth_error_In; eassumption. }
        destruct (emitted_Done (Dt d) Hc) as (_ & _ & Lk & _).
        destruct (_ && _); [unfold free; now rewrite Lk|exact Fc].
      - assert (Lj : j < List.length (Cells d))
          by (rewrite <- Len1; apply nth_error_Some; congruence).
        destruct (nth_error (Cells d) j) as [c|] eqn:Nj;
          [|apply nth_error_None in Nj; lia].
        rewrite (P1 j c Nj) in Hj. injection Hj as <-.
        assert (Hc : holdsSpecies c).
        { rewrite Forall_forall in Hs. apply Hs.
          eapply nth_error_In; eassumption. }
        destruct (emitted_Done (Dt d) Hc) as (_ & He & _ & _).
        destruct (_ && _); assumption. }
    destruct Fr1 as [Fr1 Hs1].
    destruct (IH (S p0) d1) as (d' & E & Eq & Len & P);
      [lia|lia|assumption|assumption|].
    exists d'. split; [exact E|].
    split; [rewrite Eq, Eq1; reflexivity|]. split; [lia|].
    intros j c Nj. rewrite (P j _ (P1 j c Nj)).
    replace (Dt d1) with (Dt d) by (rewrite Eq1; reflexivity).
    f_equal. rewrite visits_mod by lia. unfold treatedBy.
    assert (Hc : holdsSpecies c).
    { rewrite Forall_forall in Hs. apply Hs.
      eapply nth_error_In; eassumption. }
    destruct (emitted_Done (Dt d) Hc) as (_ & _ & _ & Ly).
    destruct (Nat.eqb_spec (j mod nprocs) p0) as [Em|Nm].
    + replace (S p0 <=? j mod nprocs) with false
        by (symmetry; apply Nat.leb_gt; lia).
      replace (p0 <=? j mod nprocs) with true
        by (symmetry; apply Nat.leb_le; lia).
      replace (j mod nprocs <? p0 + S n) with true
        by (symmetry; apply Nat.ltb_lt; lia).
      cbn [andb]. destruct (Layer c <=? topLayerToCalc)%Z; reflexivity.
    + cbn [andb].
      replace (S p0 <=? j mod nprocs) with (p0 <=? j mod nprocs).
      2:{ destruct (Nat.leb_spec p0 (j mod nprocs)),
            (Nat.leb_spec (S p0) (j mod nprocs)); trivial; lia. }
      replace (j mod nprocs <? S p0 + n) with (j mod nprocs <? p0 + S n)
        by (f_equal; lia).
      reflexivity.
Qed.

End PoolEmissions.

(** X18.  The emissions operator through the pool.  When every cell is
    free and has its nine species, the workers of a pool of at least one
    processor, each treating the first science function of [Run] on its
    own cells, leave the loop one after the other, and together they
    have applied [addEmissionsFlux] once to every cell at or below layer
    [topLayerToCalc] and left every other cell, and every lock, as it
    was: no cell is missed and none is treated twice, however many
    processors there are. *)
Theorem pool_emissions (F : Type) (H : Float64 F) (fuel nprocs : nat)
    (d : InMAPdata F) :
  0 < nprocs -> List.length (Cells d) < fuel ->
  Forall free (Cells d) -> Forall holdsSpecies (Cells d) ->
  pool fuel nprocs emissionsFunc d
  = Returns
      (withCells d
         (map (fun c => if (Layer c <=? topLayerToCalc)%Z
                        then emitted (Dt d) c else c) (Cells d))).
Proof.
  intros Hn Lf Fr Hs. unfold pool.
  destruct (@poolFrom_emissions _ _ fuel nprocs Hn nprocs 0 d)
    as (d' & E & Eq & Len & P); try assumption; [lia|].
  rewrite E, Eq. do 2 f_equal. apply nth_error_ext. intros j.
  rewrite nth_error_map.
  destruct (nth_error (Cells d) j) as [c|] eqn:Nj.
  - rewrite (P j c Nj). cbn [option_map]. f_equal. unfold treatedBy.
    pose proof (Nat.mod_upper_bound j nprocs ltac:(lia)) as U.
    replace (j mod nprocs <? 0 + nprocs) with true
      by (symmetry; apply Nat.ltb_lt; lia).
    reflexivity.
  - cbn [option_map]. apply nth_error_None. apply nth_error_None in Nj. lia.
Qed.

Lemma pool_emissions_witness :
  pool 3 2 emissionsFunc twoLayers
  = Returns
      (withCells twoLayers
         (map (fun c => if (Layer c <=? topLayerToCalc)%Z
                        then emitted (Dt twoLayers) c else c)
            (Cells twoLayers))).
Proof.
  apply (@pool_emissions _ _ 3 2 twoLayers); [lia|cbn; lia| |];
    repeat constructor.
Defined.

(* ================================================================== *)
(** ** The wait group of the scheduler *)

Module BarrierFacts.
Import Scheduler SchedulerFacts Barrier.

Lemma heldBelow_ext (s s' : state) (n : nat) :
  (forall p, p < n -> pending s' p = pending s p) ->
  heldBelow s' n = heldBelow s n.
Proof.
  induction n as [|n IH]; intros E; [reflexivity|].
  cbn [heldBelow]. rewrite IH, E; auto.
Qed.

Lemma heldBelow_upd (s s' : state) (p n : nat) :
  p < n -> (forall q, q <> p -> pending s' q = pending s q) ->
  heldBelow s' n + List.length (pending s p)
  = heldBelow s n + List.length (pending s' p).
Proof.
  intros Hp E. induction n as [|n IH]; [lia|]. cbn [heldBelow].
  destruct (Nat.eq_dec p n) as [->|N].
  - rewrite (@heldBelow_ext s s' n); [lia|]. intros q Hq. apply E. lia.
  - rewrite (E n) by congruence. assert (p < n) by lia. lia.
Qed.

Lemma heldBelow_ge (s : state) (p n : nat) :
  p < n -> List.length (pending s p) <= heldBelow s n.
Proof.
  intros Hp. induction n as [|n IH]; [lia|]. cbn [heldBelow].
  destruct (Nat.eq_dec p n) as [->|N]; [lia|]. assert (p < n) by lia. lia.
Qed.

Lemma heldBelow_pos (s : state) (n : nat) :
  0 < heldBelow s n -> exists p, p < n /\ pending s p <> [].
Proof.
  induction n as [|n IH]; cbn [heldBelow]; [lia|]. intros P.
  destruct (pending s n) as [|t ts] eqn:E.
  - cbn [List.length] in P. destruct IH as (p & Hp & Np); [lia|].
    exists p. split; [lia|exact Np].
  - exists n. split; [lia|]. rewrite E. discriminate.
Qed.

Lemma heldBelow_zero (s : state) (p n : nat) :
  heldBelow s n = 0 -> p < n -> pending s p = [].
Proof.
  intros Z Hp. pose proof (heldBelow_ge s Hp) as G.
  destruct (pending s p); [reflexivity|cbn in G; lia].
Qed.

Lemma taskLt_irrefl (t : task) : ~ taskLt t t.
Proof. unfold taskLt. lia. Qed.

Lemma taskLt_trans (t1 t2 t3 : task) :
  taskLt t1 t2 -> taskLt t2 t3 -> taskLt t1 t3.
Proof. unfold taskLt. lia. Qed.

Lemma taskLt_next_self (cfg : config) (t : task) :
  op t < nfuncs cfg -> taskLt t (next cfg t).
Proof.
  intros V. unfold taskLt, next.
  destruct (Nat.ltb_spec (S (op t)) (nfuncs cfg)); cbn [pass op]; lia.
Qed.

(** A cell has one worker. *)
Lemma assigned_owner (cfg : config) (p q c : nat) :
  p < nprocs cfg -> q < nprocs cfg ->
  (exists j, c = p + j * nprocs cfg) -> (exists j, c = q + j * nprocs cfg) ->
  p = q.
Proof.
  intros Hp Hq (j & Ej) (j' & Ej').
  assert (Mp : c mod nprocs cfg = p)
    by (rewrite Ej, Nat.Div0.mod_add; now apply Nat.mod_small).
  assert (Mq : c mod nprocs cfg = q)
    by (rewrite Ej', Nat.Div0.mod_add; now apply Nat.mod_small).
  congruence.
Qed.

Lemma accounted_init (cfg : config) : accounted cfg init.
Proof.
  constructor; cbn.
  - unfold held, remaining. cbn [pc init].
    replace (heldBelow init (nprocs cfg)) with 0; [reflexivity|].
    induction (nprocs cfg) as [|n IH]; [reflexivity|].
    cbn [heldBelow]. rewrite <- IH. reflexivity.
  - discriminate.
  - intros e [].
  - constructor.
Qed.

(** A step that keeps what every worker holds and the next task of every
    worker keeps the accounts, when the counter follows the sends still
    to make. *)
Lemma accounted_same_view (cfg : config) (s s' : state) :
  (forall p, p < nprocs cfg -> bound cfg s' p = bound cfg s p) ->
  workers s' = workers s -> funcChan s' = funcChan s -> log s' = log s ->
  wg s' = Z.of_nat (held cfg s + remaining cfg s') ->
  (pc s' = Finished -> wg s' = 0%Z) ->
  accounted cfg s -> accounted cfg s'.
Proof.
  intros B W C L G Fi [Awg Afin Asnd Aonce].
  assert (Pe : forall p, pending s' p = pending s p)
    by (intros p; unfold pending; now rewrite W, C).
  constructor.
  - rewrite G. unfold held. now rewrite (@heldBelow_ext s s').
  - exact Fi.
  - intros e He. rewrite L in He. destruct (Asnd e He) as (Hp & V & A & D).
    split; [exact Hp|]. split; [exact V|]. split; [exact A|].
    unfold frontier. rewrite Pe, B, W by exact Hp. exact D.
  - now rewrite L.
Qed.

Lemma accounted_main (cfg : config) (due timeToQuit : bool) (s s' : state) :
  wellFormed cfg -> inv cfg s -> accounted cfg s ->
  execMain cfg due timeToQuit s = Some s' -> accounted cfg s'.
Proof.
  intros [WP WF] Inv Acc E. unfold execMain in E.
  destruct (pc s) as [|k pp| | | |] eqn:Pc.
  - (* wg.Add *)
    injection E as <-.
    assert (FS : firstSend cfg = Sending 0 0).
    { unfold firstSend.
      replace (0 <? nfuncs cfg) with true by (symmetry; apply Nat.ltb_lt; lia).
      replace (0 <? nprocs cfg) with true by (symmetry; apply Nat.ltb_lt; lia).
      reflexivity. }
    apply accounted_same_view with (s := s); cbn; trivial.
    + intros p _. unfold bound. rewrite Pc. cbn [pc iteration]. now rewrite FS.
    + rewrite (acc_wg Acc). unfold remaining. rewrite Pc. cbn [pc].
      rewrite FS. lia.
    + rewrite FS. discriminate.
  - (* a send *)
    destruct (funcChan s pp) as [|? ?] eqn:Ch; [|discriminate].
    injection E as <-.
    destruct (inv_pc Inv Pc) as [Hk Hpp].
    set (tk := mkTask (iteration s) k).
    set (s' := mkState (afterSend cfg k pp) (iteration s)
                 (upd (funcChan s) pp [tk]) (workers s) (wg s) (log s)).
    assert (B : forall p, p < nprocs cfg ->
                bound cfg s' p
                = if Nat.eqb p pp then next cfg tk else bound cfg s p).
    { intros p Hp. now apply bound_afterSend with (k := k). }
    assert (Bpp : bound cfg s pp = tk).
    { unfold bound. rewrite Pc. now rewrite Nat.ltb_irrefl. }
    assert (Ppp : pending s' pp = pending s pp ++ [tk]).
    { unfold pending, s'. cbn [workers funcChan].
      now rewrite upd_same, Ch, app_nil_r. }
    assert (Po : forall p, p <> pp -> pending s' p = pending s p).
    { intros p Np. unfold pending, s'. cbn [workers funcChan].
      now rewrite upd_other. }
    assert (Fr : forall p, p < nprocs cfg ->
                 frontier cfg s' p = frontier cfg s p).
    { intros p Hp. unfold frontier. rewrite (B p Hp).
      destruct (Nat.eqb_spec p pp) as [->|Np].
      - rewrite Ppp, hd_snoc. now rewrite Bpp.
      - now rewrite Po. }
    destruct Acc as [Awg Afin Asnd Aonce].
    constructor.
    + cbn [wg s']. rewrite Awg. unfold held.
      pose proof (@heldBelow_upd s s' pp (nprocs cfg) Hpp Po) as U.
      rewrite Ppp, length_app in U. cbn [List.length] in U.
      assert (R : remaining cfg s = S (remaining cfg s')).
      { unfold remaining. rewrite Pc. cbn [pc s']. unfold afterSend.
        destruct (Nat.ltb_spec (S pp) (nprocs cfg)).
        - assert (nprocs cfg <= (nfuncs cfg - k) * nprocs cfg) by nia. lia.
        - destruct (Nat.ltb_spec (S k) (nfuncs cfg)).
          + replace (nfuncs cfg - k) with (S (nfuncs cfg - S k)) by lia.
            cbn [Nat.mul]. lia.
          + replace (nfuncs cfg - k) with 1 by lia. lia. }
      lia.
    + cbn [pc s']. intros Fi. exfalso. unfold afterSend in Fi.
      destruct (S pp <? nprocs cfg); [discriminate|].
      destruct (S k <? nfuncs cfg); discriminate.
    + intros e He. destruct (Asnd e He) as (Hp & V & A & D).
      split; [exact Hp|]. split; [exact V|]. split; [exact A|].
      rewrite (Fr _ Hp). exact D.
    + exact Aonce.
  - (* iteration++ and the test of the mode *)
    injection E as <-. apply accounted_same_view with (s := s); cbn; trivial.
    + intros p _. unfold bound. rewrite Pc. cbn [pc iteration].
      destruct (numIterations cfg >? 0)%Z;
        [destruct (_ >=? _)%Z|destruct due]; reflexivity.
    + rewrite (acc_wg Acc). unfold remaining. rewrite Pc. cbn [pc].
      destruct (numIterations cfg >? 0)%Z;
        [destruct (_ >=? _)%Z|destruct due]; reflexivity.
    + destruct (numIterations cfg >? 0)%Z;
        [destruct (_ >=? _)%Z|destruct due]; discriminate.
  - (* wg.Wait() before break *)
    destruct (wg s =? 0)%Z eqn:Z0; [|discriminate]. injection E as <-.
    apply accounted_same_view with (s := s); cbn; trivial.
    + intros p _. unfold bound. now rewrite Pc.
    + rewrite (acc_wg Acc). unfold remaining. now rewrite Pc.
    + intros _. lia.
  - (* wg.Wait() before the check *)
    destruct (wg s =? 0)%Z eqn:Z0; [|discriminate]. injection E as <-.
    apply accounted_same_view with (s := s); cbn; trivial.
    + intros p _. unfold bound. rewrite Pc. cbn [pc iteration].
      destruct timeToQuit; reflexivity.
    + rewrite (acc_wg Acc). unfold remaining. rewrite Pc. cbn [pc].
      destruct timeToQuit; reflexivity.
    + intros _. lia.
  - discriminate.
Qed.

Lemma accounted_recv (cfg : config) (s s' : state) (p : nat) :
  accounted cfg s -> exec cfg s (Recv p) = Some s' -> accounted cfg s'.
Proof.
  intros [Awg Afin Asnd Aonce] E. cbn [exec] in E.
  destruct (Nat.ltb_spec p (nprocs cfg)) as [Hp|]; [|discriminate].
  destruct (workers s p) eqn:W; [|discriminate].
  destruct (funcChan s p) as [|t rest] eqn:C; [discriminate|].
  injection E as <-.
  set (s' := mkState (pc s) (iteration s) (upd (funcChan s) p rest)
               (upd (workers s) p (Running t p)) (wg s) (log s)).
  assert (Pe : forall q, pending s' q = pending s q).
  { intros q. unfold pending, s'. cbn [workers funcChan].
    destruct (Nat.eq_dec q p) as [->|Nq].
    - now rewrite !upd_same, W, C.
    - now rewrite !upd_other. }
  assert (Be : forall q, bound cfg s' q = bound cfg s q)
    by (intros q; now apply bound_worker_step).
  constructor.
  - cbn [wg s']. rewrite Awg. unfold held, remaining. cbn [pc s'].
    now rewrite (@heldBelow_ext s s').
  - exact Afin.
  - intros e He. destruct (Asnd e He) as (Hq & V & A & D).
    split; [exact Hq|]. split; [exact V|]. split; [exact A|].
    unfold frontier. rewrite Pe, Be. destruct D as [D|(ii & R & Lt)].
    + now left.
    + right. exists ii. split; [|exact Lt]. cbn [workers s'].
      destruct (Nat.eq_dec (proc e) p) as [Eq|Nq].
      * rewrite Eq, W in R. discriminate.
      * now rewrite upd_other.
  - exact Aonce.
Qed.

Lemma accounted_visit (cfg : config) (s s' : state) (p : nat) :
  wellFormed cfg -> inv cfg s -> accounted cfg s ->
  exec cfg s (Visit p) = Some s' -> accounted cfg s'.
Proof.
  intros [WP _] [Ipc Ich Idn Irn Ior] [Awg Afin Asnd Aonce] E.
  cbn [exec] in E.
  destruct (Nat.ltb_spec p (nprocs cfg)) as [Hp|]; [|discriminate].
  destruct (workers s p) as [|t ii] eqn:W; [discriminate|].
  destruct (Nat.ltb_spec ii (ncells cfg)) as [Hii|]; [|discriminate].
  injection E as <-.
  set (l' := if inColumn cfg ii then mkEvent p t ii :: log s else log s).
  set (s' := mkState (pc s) (iteration s) (funcChan s)
               (upd (workers s) p (Running t (ii + nprocs cfg))) (wg s) l').
  assert (Pe : forall q, pending s' q = pending s q).
  { intros q. unfold pending, s'. cbn [workers funcChan].
    destruct (Nat.eq_dec q p) as [->|Nq].
    - now rewrite upd_same, W.
    - now rewrite upd_other. }
  assert (Be : forall q, bound cfg s' q = bound cfg s q)
    by (intros q; now apply bound_worker_step).
  assert (Fp : frontier cfg s p = t).
  { unfold frontier, pending. now rewrite W. }
  assert (Vt : op t < nfuncs cfg).
  { specialize (Ich p Hp). unfold pending in Ich. rewrite W in Ich.
    now destruct Ich. }
  destruct (Irn p t ii Hp W) as [J _].
  assert (Old : forall e, In e (log s) ->
            proc e < nprocs cfg /\ op (what e) < nfuncs cfg /\
            assigned cfg (proc e) (cell e) /\
            (taskLt (what e) (frontier cfg s' (proc e)) \/
             exists ii0, workers s' (proc e) = Running (what e) ii0 /\
                         cell e < ii0)).
  { intros e He. destruct (Asnd e He) as (Hq & V & A & D).
    split; [exact Hq|]. split; [exact V|]. split; [exact A|].
    unfold frontier. rewrite Pe, Be. destruct D as [D|(ii0 & R & Lt)].
    - now left.
    - right. cbn [workers s'].
      destruct (Nat.eq_dec (proc e) p) as [Eq|Nq].
      + rewrite Eq, W in R. injection R as Et <-.
        exists (ii + nprocs cfg). rewrite Eq, upd_same, Et.
        split; [reflexivity|lia].
      + exists ii0. now rewrite upd_other. }
  constructor.
  - cbn [wg s']. rewrite Awg. unfold held, remaining. cbn [pc s'].
    now rewrite (@heldBelow_ext s s').
  - exact Afin.
  - cbn [log s']. unfold l'. destruct (inColumn cfg ii) eqn:Col;
      [|exact Old].
    intros e [<-|He]; [|now apply Old]. cbn [proc what cell].
    split; [exact Hp|]. split; [exact Vt|].
    split; [split; [exact Hii|split; [exact Col|exact J]]|].
    right. exists (ii + nprocs cfg). cbn [workers s']. rewrite upd_same.
    split; [reflexivity|lia].
  - cbn [log s']. unfold l'. destruct (inColumn cfg ii) eqn:Col;
      [|exact Aonce].
    cbn [map]. constructor; [|exact Aonce].
    intros Hin. apply in_map_iff in Hin. destruct Hin as (e & Ek & He).
    unfold key in Ek. cbn [what cell] in Ek. injection Ek as Et Ec.
    destruct (Asnd e He) as (Hq & _ & (_ & _ & Jq) & D).
    rewrite Ec in Jq.
    assert (Eq : proc e = p) by (eapply assigned_owner; eassumption).
    rewrite Eq, Et in D. destruct D as [D|(ii0 & R & Lt)].
    + rewrite Fp in D. now apply taskLt_irrefl in D.
    + rewrite W in R. injection R as <-. lia.
Qed.

Lemma accounted_finish (cfg : config) (s s' : state) (p : nat) :
  inv cfg s -> accounted cfg s ->
  exec cfg s (Finish p) = Some s' -> accounted cfg s'.
Proof.
  intros [Ipc Ich Idn Irn Ior] [Awg Afin Asnd Aonce] E. cbn [exec] in E.
  destruct (Nat.ltb_spec p (nprocs cfg)) as [Hp|]; [|discriminate].
  destruct (workers s p) as [|t ii] eqn:W; [discriminate|].
  destruct (Nat.ltb_spec ii (ncells cfg)) as [|Hii]; [discriminate|].
  injection E as <-.
  set (s' := mkState (pc s) (iteration s) (funcChan s)
               (upd (workers s) p Idle) (wg s - 1) (log s)).
  assert (Pp : pending s p = t :: pending s' p).
  { unfold pending, s'. cbn [workers funcChan]. now rewrite upd_same, W. }
  assert (Po : forall q, q <> p -> pending s' q = pending s q).
  { intros q Nq. unfold pending, s'. cbn [workers funcChan].
    now rewrite upd_other. }
  assert (Be : forall q, bound cfg s' q = bound cfg s q)
    by (intros q; now apply bound_worker_step).
  pose proof (Ich p Hp) as Cp. rewrite Pp in Cp. cbn [consecutive] in Cp.
  destruct Cp as (Vt & Nt & Cp).
  assert (Fp' : frontier cfg s' p = next cfg t).
  { unfold frontier. now rewrite Be, Nt. }
  assert (Fp : frontier cfg s p = t).
  { unfold frontier. now rewrite Pp. }
  pose proof (@heldBelow_upd s s' p (nprocs cfg) Hp Po) as U.
  rewrite Pp in U. cbn [List.length] in U.
  constructor.
  - cbn [wg s']. rewrite Awg. unfold held, remaining. cbn [pc s']. lia.
  - cbn [pc wg s']. intros Fi. specialize (Afin Fi).
    rewrite Awg in Afin. unfold held in Afin. lia.
  - intros e He. destruct (Asnd e He) as (Hq & V & A & D).
    split; [exact Hq|]. split; [exact V|]. split; [exact A|].
    destruct (Nat.eq_dec (proc e) p) as [Eq|Nq].
    + left. rewrite Eq, Fp'. rewrite Eq, Fp in D.
      destruct D as [D|(ii0 & R & _)].
      * eapply taskLt_trans; [exact D|now apply taskLt_next_self].
      * rewrite W in R. injection R as <- _. now apply taskLt_next_self.
    + unfold frontier. rewrite Be, Po by exact Nq.
      destruct D as [D|(ii0 & R & Lt)]; [now left|right].
      exists ii0. cbn [workers s']. now rewrite upd_other.
  - exact Aonce.
Qed.

Lemma accounted_run (cfg : config) (acts : list action) :
  wellFormed cfg ->
  forall s s',
    inv cfg s -> accounted cfg s -> run cfg s acts = Some s' ->
    inv cfg s' /\ accounted cfg s'.
Proof.
  intros WF. induction acts as [|a acts IH]; intros s s' Inv Acc E;
    cbn [run] in E.
  - injection E as <-. now split.
  - destruct (exec cfg s a) as [s1|] eqn:E1; [|discriminate].
    apply (IH s1 s'); [now apply inv_step with (s := s) (a := a)| |exact E].
    destruct a as [due q|p|p|p].
    + now apply accounted_main with (due := due) (timeToQuit := q) (s := s).
    + now apply accounted_recv with (s := s) (p := p).
    + now apply accounted_visit with (s := s) (p := p).
    + now apply accounted_finish with (s := s) (p := p).
Qed.

Lemma reachable_accounted (cfg : config) (s : state) :
  wellFormed cfg -> reachable cfg s -> inv cfg s /\ accounted cfg s.
Proof.
  intros WF [acts R].
  apply accounted_run with (acts := acts) (s := init); trivial.
  - apply inv_init.
  - apply accounted_init.
Qed.

Lemma waited_quiet (cfg : config) (s : state) :
  inv cfg s -> accounted cfg s -> waited s ->
  forall p, p < nprocs cfg -> pending s p = [].
Proof.
  intros Inv Acc Wt p Hp.
  assert (Z0 : wg s = 0%Z).
  { destruct Wt as [Fi|[_ Z0]]; [now apply (acc_finished Acc)|exact Z0]. }
  pose proof (acc_wg Acc) as G. rewrite Z0 in G. unfold held in G.
  apply heldBelow_zero with (n := nprocs cfg); [lia|exact Hp].
Qed.

Lemma waited_bound (cfg : config) (s : state) (p : nat) :
  waited s -> bound cfg s p = mkTask (iteration s) 0.
Proof.
  unfold bound. intros [->|[[->| ->] _]]; reflexivity.
Qed.

End BarrierFacts.

(** X19.  The wait group is a barrier for the passes.  Whenever the
    controlling goroutine has come back from [wg.Wait()], or stands in one
    that is about to return, every worker is idle with an empty channel,
    and every operator of every pass sent so far has been applied to
    every cell of the column range by the worker of that cell: the
    convergence check and the output stage read a domain that no worker
    is writing to. *)
Theorem wait_group_barrier (cfg : Scheduler.config) (s : Scheduler.state) :
  Scheduler.wellFormed cfg -> Scheduler.reachable cfg s ->
  Barrier.waited s ->
  (forall p, p < Scheduler.nprocs cfg ->
     Scheduler.workers s p = Scheduler.Idle /\ Scheduler.funcChan s p = [])
  /\
  (forall p t c,
     p < Scheduler.nprocs cfg ->
     Scheduler.pass t < Scheduler.iteration s ->
     Scheduler.op t < Scheduler.nfuncs cfg ->
     Scheduler.assigned cfg p c ->
     In (Scheduler.mkEvent p t c) (Scheduler.log s)).
Proof.
  intros WF R Wt.
  destruct (BarrierFacts.reachable_accounted WF R) as [Inv Acc].
  pose proof (BarrierFacts.waited_quiet Inv Acc Wt) as Q.
  split.
  - intros p Hp. specialize (Q p Hp). unfold Scheduler.pending in Q.
    destruct (Scheduler.workers s p); [|discriminate]. now split.
  - intros p t c Hp Lt V A. apply (Scheduler.inv_done Inv); trivial.
    unfold Scheduler.frontier. rewrite (Q p Hp). cbn [hd].
    rewrite (BarrierFacts.waited_bound cfg p Wt). left. exact Lt.
Qed.

Lemma wait_group_barrier_witness :
  In (Scheduler.mkEvent 1 (Scheduler.mkTask 0 1) 1)
    (Scheduler.log Scheduler.eagerFinal).
Proof.
  apply (proj2 (@wait_group_barrier Scheduler.twoByTwo Scheduler.eagerFinal
                  ltac:(split; vm_compute; lia)
                  (ex_intro _ Scheduler.eagerWorker0 SchedulerFacts.eager_run)
                  ltac:(left; vm_compute; reflexivity))).
  - vm_compute. lia.
  - vm_compute. lia.
  - vm_compute. lia.
  - split; [vm_compute; lia|]. split; [reflexivity|]. exists 0. reflexivity.
Defined.

(** X20.  In every reachable state, no operator of a pass has been
    applied twice to a cell, by the same worker or by two; and every
    application made was made by the worker the cell is assigned to, to a
    cell of the column range, with an operator of [scienceFuncs]. *)
Theorem each_application_once (cfg : Scheduler.config) (s : Scheduler.state) :
  Scheduler.wellFormed cfg -> Scheduler.reachable cfg s ->
  NoDup (map Barrier.key (Scheduler.log s))
  /\
  forall e, In e (Scheduler.log s) ->
    Scheduler.proc e < Scheduler.nprocs cfg /\
    Scheduler.op (Scheduler.what e) < Scheduler.nfuncs cfg /\
    Scheduler.assigned cfg (Scheduler.proc e) (Scheduler.cell e).
Proof.
  intros WF R.
  destruct (BarrierFacts.reachable_accounted WF R) as [Inv Acc].
  split; [exact (Barrier.acc_once Acc)|].
  intros e He. destruct (Barrier.acc_sound Acc e He) as (Hp & V & A & _).
  split; [exact Hp|]. split; [exact V|exact A].
Qed.

Lemma each_application_once_witness :
  NoDup (map Barrier.key (Scheduler.log Scheduler.eagerFinal)).
Proof.
  apply (@each_application_once Scheduler.twoByTwo Scheduler.eagerFinal
           ltac:(split; vm_compute; lia)
           (ex_intro _ Scheduler.eagerWorker0 SchedulerFacts.eager_run)).
Defined.

(** X21.  The channels and the wait group of [Run] never deadlock.  As
    long as each visit of a cell completes (its write lock is obtained
    and the science function returns, which is what a [Visit] step
    stands for), in every reachable state in which the controlling
    goroutine has not left the loop some goroutine can take a step.  Once
    it has left the loop, no goroutine can: the workers stay parked at
    their channels, which are never closed. *)
Theorem pool_never_deadlocks (cfg : Scheduler.config) (s : Scheduler.state) :
  Scheduler.wellFormed cfg -> Scheduler.reachable cfg s ->
  (Scheduler.pc s <> Scheduler.Finished ->
   exists a s', Scheduler.exec cfg s a = Some s')
  /\
  (Scheduler.pc s = Scheduler.Finished ->
   forall a, Scheduler.exec cfg s a = None).
Proof.
  intros WF R.
  destruct (BarrierFacts.reachable_accounted WF R) as [Inv Acc].
  assert (Step : forall p, p < Scheduler.nprocs cfg ->
            Scheduler.pending s p <> [] ->
            exists a s', Scheduler.exec cfg s a = Some s').
  { intros p Hp Ne. unfold Scheduler.pending in Ne.
    apply Nat.ltb_lt in Hp.
    destruct (Scheduler.workers s p) as [|t ii] eqn:W.
    - destruct (Scheduler.funcChan s p) as [|t rest] eqn:C;
        [now contradiction Ne|].
      exists (Scheduler.Recv p). cbn [Scheduler.exec]. rewrite Hp, W, C.
      eauto.
    - destruct (ii <? Scheduler.ncells cfg) eqn:L.
      + exists (Scheduler.Visit p). cbn [Scheduler.exec]. rewrite Hp, W, L.
        eauto.
      + exists (Scheduler.Finish p). cbn [Scheduler.exec]. rewrite Hp, W, L.
        eauto. }
  split.
  - intros NF. destruct (Scheduler.pc s) as [|k pp| | | |] eqn:Pc.
    + exists (Scheduler.Main false false). cbn [Scheduler.exec].
      unfold Scheduler.execMain. rewrite Pc. eauto.
    + destruct (Scheduler.funcChan s pp) as [|t rest] eqn:C.
      * exists (Scheduler.Main false false). cbn [Scheduler.exec].
        unfold Scheduler.execMain. rewrite Pc, C. eauto.
      * destruct (Scheduler.inv_pc Inv Pc) as [_ Hpp].
        apply (Step pp Hpp). unfold Scheduler.pending. rewrite C.
        destruct (Scheduler.workers s pp); discriminate.
    + exists (Scheduler.Main false false). cbn [Scheduler.exec].
      unfold Scheduler.execMain. rewrite Pc. eauto.
    + destruct (Scheduler.wg s =? 0)%Z eqn:Z0.
      * exists (Scheduler.Main false false). cbn [Scheduler.exec].
        unfold Scheduler.execMain. rewrite Pc, Z0. eauto.
      * pose proof (Barrier.acc_wg Acc) as G. unfold Barrier.remaining in G.
        rewrite Pc in G. apply Z.eqb_neq in Z0.
        destruct (@BarrierFacts.heldBelow_pos s (Scheduler.nprocs cfg))
          as (p & Hp & Ne); [unfold Barrier.held in G; lia|].
        now apply (Step p Hp).
    + destruct (Scheduler.wg s =? 0)%Z eqn:Z0.
      * exists (Scheduler.Main false false). cbn [Scheduler.exec].
        unfold Scheduler.execMain. rewrite Pc, Z0. eauto.
      * pose proof (Barrier.acc_wg Acc) as G. unfold Barrier.remaining in G.
        rewrite Pc in G. apply Z.eqb_neq in Z0.
        destruct (@BarrierFacts.heldBelow_pos s (Scheduler.nprocs cfg))
          as (p & Hp & Ne); [unfold Barrier.held in G; lia|].
        now apply (Step p Hp).
    + now contradiction NF.
  - intros Fi.
    pose proof (BarrierFacts.waited_quiet Inv Acc (or_introl Fi)) as Q.
    assert (Idle : forall p, p < Scheduler.nprocs cfg ->
              Scheduler.workers s p = Scheduler.Idle /\
              Scheduler.funcChan s p = []).
    { intros p Hp. specialize (Q p Hp). unfold Scheduler.pending in Q.
      destruct (Scheduler.workers s p); [|discriminate]. now split. }
    intros [due q|p|p|p]; cbn [Scheduler.exec].
    + unfold Scheduler.execMain. now rewrite Fi.
    + destruct (Nat.ltb_spec p (Scheduler.nprocs cfg)) as [Hp|];
        [|reflexivity].
      destruct (Idle p Hp) as [-> ->]. reflexivity.
    + destruct (Nat.ltb_spec p (Scheduler.nprocs cfg)) as [Hp|];
        [|reflexivity].
      destruct (Idle p Hp) as [-> _]. reflexivity.
    + destruct (Nat.ltb_spec p (Scheduler.nprocs cfg)) as [Hp|];
        [|reflexivity].
      destruct (Idle p Hp) as [-> _]. reflexivity.
Qed.

Lemma pool_never_deadlocks_witness :
  Scheduler.exec Scheduler.twoByTwo Scheduler.eagerFinal (Scheduler.Recv 0)
  = None.
Proof.
  apply (proj2 (@pool_never_deadlocks Scheduler.twoByTwo Scheduler.eagerFinal
                  ltac:(split; vm_compute; lia)
                  (ex_intro _ Scheduler.eagerWorker0 SchedulerFacts.eager_run))).
  vm_compute. reflexivity.
Defined.

(* ================================================================== *)
(** ** Timestep controller: what the loop keeps *)

Section TimestepFacts.
Context {F : Type} `{Float64 F}.

Lemma amin_In (v0 : F) (l : list F) : amin v0 l = v0 \/ In (amin v0 l) l.
Proof.
  revert v0. induction l as [|v l IH]; intros v0; [now left|].
  unfold amin in *. cbn [fold_left].
  destruct (IH (if fltb v v0 then v else v0)) as [E|I].
  - rewrite E. destruct (fltb v v0); [right; now left|now left].
  - right. now right.
Qed.

Lemma withDt_same (d : InMAPdata F) : withDt d (Dt d) = d.
Proof. destruct d. reflexivity. Qed.

End TimestepFacts.

Lemma amin_le (v0 : R) (l : list R) :
  (amin v0 l <= v0)%R /\ forall b, In b l -> (amin v0 l <= b)%R.
Proof.
  revert v0. induction l as [|v l IH]; intros v0.
  - split; [unfold amin; cbn [fold_left]; apply Rle_refl|intros b []].
  - unfold amin in *. cbn [fold_left].
    change (fltb v v0) with (Rltb v v0). unfold Rltb.
    destruct (Rlt_dec v v0) as [L|L].
    + destruct (IH v) as [I1 I2]. split; [lra|].
      intros b [<-|Hb]; [exact I1|now apply I2].
    + destruct (IH v0) as [I1 I2]. split; [exact I1|].
      intros b [<-|Hb]; [lra|now apply I2].
Qed.

(** X22.  [setTstepCFL] changes the time step only, and the time step it
    sets does not depend on the one the domain had, when the domain has a
    cell: computing it again, or after any other value was stored,
    gives the same.  A domain with no cell keeps its time step. *)
Theorem setTstepCFL_fresh (F : Type) (H : Float64 F) (d : InMAPdata F) :
  setTstepCFL d = withDt d (Dt (setTstepCFL d))
  /\ (Cells d = [] -> setTstepCFL d = d)
  /\ (Cells d <> [] -> forall dt, setTstepCFL (withDt d dt) = setTstepCFL d)
  /\ setTstepCFL (setTstepCFL d) = setTstepCFL d.
Proof.
  split; [reflexivity|]. split; [|split].
  - intros E. unfold setTstepCFL. rewrite E. cbn [tstepLoop].
    apply withDt_same.
  - intros N dt. unfold setTstepCFL. cbn [Cells Dt withDt].
    destruct (Cells d) as [|c rest]; [contradiction|reflexivity].
  - unfold setTstepCFL. cbn [Cells Dt withDt].
    destruct (Cells d) as [|c rest]; reflexivity.
Qed.

Lemma setTstepCFL_fresh_witness :
  setTstepCFL (withDt (sampleDomain [breezyCell64]) 7%float)
  = setTstepCFL (sampleDomain [breezyCell64]).
Proof.
  apply (proj1 (proj2 (proj2 (@setTstepCFL_fresh _ _
                                (sampleDomain [breezyCell64]))))).
  discriminate.
Defined.

(** X23.  The time step that [setTstepCFL] sets for a domain with a cell
    is one of the stability bounds of its cells; in exact arithmetic it
    is the smallest: no bound of any cell lies below it. *)
Theorem time_step_is_smallest_bound :
  (forall (F : Type) (H : Float64 F) (d : InMAPdata F),
      Cells d <> [] -> In (Dt (setTstepCFL d)) (allBounds (Cells d)))
  /\
  (forall (d : InMAPdata R) (b : R),
      In b (allBounds (Cells d)) -> (Dt (setTstepCFL d) <= b)%R).
Proof.
  split.
  - intros F H d N. rewrite setTstepCFL_min.
    destruct (Cells d) as [|c rest]; [contradiction|].
    unfold allBounds. cbn [flat_map bounds app aminOf].
    destruct (amin_In (dt1 c) (dt2 c :: dt3 c :: dt4 c :: flat_map bounds rest))
      as [-> |I]; [now left|now right].
  - intros d b Hb. rewrite setTstepCFL_min.
    destruct (allBounds (Cells d)) as [|b0 bs]; [destruct Hb|].
    cbn [aminOf]. destruct (amin_le b0 bs) as [I1 I2].
    destruct Hb as [<-|Hb]; [exact I1|now apply I2].
Qed.

Lemma time_step_is_smallest_bound_witness :
  (Dt (setTstepCFL (sampleDomain [breezyCell])) <= dt2 breezyCell)%R.
Proof.
  apply (proj2 time_step_is_smallest_bound (sampleDomain [breezyCell])).
  cbn. tauto.
Defined.

(* ================================================================== *)
(** ** Output accessor: populations and mortalities *)

Ltac strip_suffix E pop :=
  repeat (destruct pop as [|? pop];
          [discriminate E|cbn [append] in E; injection E as _ E]);
  destruct pop; discriminate E.

(** No emissions label and no pollutant label ends in [" deaths"]. *)
Lemma labels_not_deaths (F : Type) (H : Float64 F) (pop : string) :
  lookup emisLabels (pop ++ deathsSuffix) = None /\
  lookup (polLabels (F:=F)) (pop ++ deathsSuffix) = None.
Proof.
  unfold deathsSuffix. split.
  - unfold emisLabels. cbn [lookup].
    repeat match goal with
           | |- context [String.eqb ?a ?b] =>
               destruct (String.eqb_spec a b) as [E|_];
               [exfalso; strip_suffix E pop|]
           end.
    reflexivity.
  - unfold polLabels. cbn [lookup].
    repeat match goal with
           | |- context [String.eqb ?a ?b] =>
               destruct (String.eqb_spec a b) as [E|_];
               [exfalso; strip_suffix E pop|]
           end.
    reflexivity.
Qed.

Lemma lookup_absent {A} (m : list (string * A)) (k : string) :
  ~ In k (map fst m) -> lookup m k = None.
Proof.
  intros N. pose proof (lookup_hasKey m k) as E.
  destruct (lookup m k); [|reflexivity].
  exfalso. apply N. now apply hasKey_In.
Qed.

Lemma hasKey_absent (keys : list string) (k : string) :
  ~ In k keys -> hasKey keys k = false.
Proof.
  intros N. destruct (hasKey keys k) eqn:E; [|reflexivity].
  exfalso. apply N. now apply hasKey_In.
Qed.

(** X24.  For a population group whose name is no label of the emissions
    or pollutant tables and does not contain [" deaths"], [getValue]
    returns under the group's name its count divided by the cell's
    footprint, and under the name followed by [" deaths"] the deaths that
    the health functions give for the relative risk of the cell's total
    PM2.5, the group's count and the cell's mortality rate (unless the
    longer name is a population group itself). *)
Theorem population_and_mortality (F : Type) (H : Float64 F)
    (popNames : list string) (RRpm25Linear : F -> F)
    (Deaths : F -> F -> F -> F) (c : Cell F) (pop : string) :
  In pop popNames ->
  ~ In pop (map fst emisLabels) ->
  ~ In pop (map fst (polLabels (F:=F))) ->
  ~ contains deathsSuffix pop ->
  ~ In (pop ++ deathsSuffix)%string popNames ->
  getValue popNames RRpm25Linear Deaths c pop
  = Done (mapGet (PopData c) pop / Dx c / Dy c)%go
  /\
  getValue popNames RRpm25Linear Deaths c (pop ++ deathsSuffix)
  = (pm <- getValue popNames RRpm25Linear Deaths c "TotalPM2_5";;
     Done (Deaths (RRpm25Linear pm) (mapGet (PopData c) pop)
                  (MortalityRate c))).
Proof.
  intros Hp Ne Np Clean Nd. split.
  - rewrite getValue_eqn. unfold getValueBody.
    rewrite (@lookup_absent _ _ _ Ne), (@lookup_absent _ _ _ Np).
    apply hasKey_In in Hp. now rewrite Hp.
  - rewrite getValue_eqn. unfold getValueBody at 1.
    destruct (labels_not_deaths H pop) as [-> ->].
    rewrite (@hasKey_absent _ _ Nd), (removeFirst_deaths Clean).
    apply hasKey_In in Hp. now rewrite Hp.
Qed.

Lemma population_and_mortality_witness :
  getValue ["TotalPop"%string] (fun x => x) (fun x _ _ => x) loadedCell
    "TotalPop deaths"
  = (pm <- getValue ["TotalPop"%string] (fun x => x) (fun x _ _ => x)
             loadedCell "TotalPM2_5";;
     Done pm).
Proof.
  refine (proj2 (@population_and_mortality _ _ ["TotalPop"%string]
                   (fun x => x) (fun x _ _ => x) loadedCell
                   "TotalPop"%string _ _ _ _ _)).
  - now left.
  - cbn. intuition discriminate.
  - cbn. intuition discriminate.
  - intros (u & v & E).
    repeat (destruct u as [|? u];
            [discriminate E|cbn in E; injection E as E1 E; subst]).
    destruct u; discriminate E.
  - cbn. intuition discriminate.
Defined.

(* ================================================================== *)
(** ** From an emission to the concentration it is reported as *)

Lemma nth_error_at (F : Type) (H : Float64 F) (l : list F) (j : nat) :
  j < List.length l -> nth_error l j = Some (at_ l j).
Proof. intros L. unfold at_. now apply nth_error_nth'. Qed.

(** X25.  In exact arithmetic, an emission of [val] ug/s of an accepted
    pollutant into a cell of non-zero extents shows, after [Run]'s
    emissions stage and one application of [addEmissionsFlux], as
    [val * Dt / (Dx * Dy * Dz)] under the output variable of the
    pollutant's gas species (primary PM2.5 for ["PM2_5"]): the
    molecular-mass scale applied on the way in is undone by the conversion
    applied on the way out. *)
Theorem emission_to_concentration (popNames : list string)
    (RRpm25Linear : R -> R) (Deaths : R -> R -> R -> R)
    (d d1 : InMAPdata R) (emissions : list (string * list R))
    (pol : string) (arr : list R) (row : nat) (val : R) (c : Cell R) :
  RunEmissions d emissions = Done d1 ->
  NoDup (map fst emissions) ->
  In (pol, arr) emissions ->
  nth_error arr row = Some val ->
  nth_error (Cells d) row = Some c ->
  Dx c <> 0%R -> Dy c <> 0%R -> Dz c <> 0%R ->
  exists c1 c2,
    nth_error (Cells d1) row = Some c1 /\
    addEmissionsFlux c1 d1 = Done c2 /\
    getValue popNames RRpm25Linear Deaths c2 (gasLabel pol)
    = Done (val * Dt d / (Dx c * Dy c * Dz c))%R.
Proof.
  intros E ND Hin Hv Hc X Y Z.
  destruct (RunEmissions_spec _ _ E) as (Eq & _ & Acc & P).
  destruct (P row c Hc) as (c1 & N1 & Ec1 & Le1 & G).
  destruct (Acc pol arr Hin) as [Hpol _].
  assert (Lf1 : List.length (Cf c1) = 9)
    by (rewrite Ec1; reflexivity).
  assert (Li1 : List.length (Ci c1) = 9)
    by (rewrite Ec1; reflexivity).
  assert (Z1 : forall i, at_ (Cf c1) i = 0%R).
  { intros i. rewrite Ec1. cbn [Cf withConc]. unfold at_, zeros.
    cbn [repeat fofZ exact].
    do 9 (destruct i as [|i]; [reflexivity|]). destruct i; reflexivity. }
  destruct (@addEmissionsFlux_Done _ _ c1 d1) as (c2 & A & _ & _ & Lf2 & S & _).
  { unfold holdsSpecies. rewrite Li1, Lf1, Le1. cbn. lia. }
  assert (Dt1 : Dt d1 = Dt d) by (rewrite Eq; reflexivity).
  exists c1, c2. split; [exact N1|]. split; [exact A|].
  assert (K : forall scale i conv,
             emissionsCase pol = Some (scale, i) ->
             (scale * conv = 1)%R ->
             sumConc c2 [conv] 0 [i] (fofZ 0)
             = Done (val * Dt d / (Dx c * Dy c * Dz c))%R).
  { intros scale i conv Ec Inv.
    pose proof Ec as Li. apply emissionsCase_index in Li.
    pose proof (G i) as Gi.
    erewrite In_fluxFor in Gi; [|eassumption..].
    apply at_nth_error in Gi.
    destruct (S i Li) as [Sf _].
    rewrite Z1, Gi, Dt1 in Sf.
    cbn [sumConc]. unfold elem at 1.
    rewrite (@nth_error_at _ _ (Cf c2) i)
      by (rewrite Lf2, Lf1; exact Li).
    cbn [bind elem nth_error]. f_equal. rewrite Sf. unfold fluxInto.
    cbn [fadd fmul fdiv fofZ exact].
    transitivity (val * Dt d / (Dx c * Dy c * Dz c) * (scale * conv))%R;
      [field; auto|rewrite Inv; ring]. }
  unfold EmisNames in Hpol. cbn [In] in Hpol.
  unfold getValue, getValueBody.
  destruct Hpol as [<-|[<-|[<-|[<-|[<-|[]]]]]];
    cbn [gasLabel String.eqb Ascii.eqb Bool.eqb lookup emisLabels];
    cbn [lookup polLabels String.eqb Ascii.eqb Bool.eqb conversion index];
    eapply K; try reflexivity;
    unfold NOxToN, invNOxToN, NH3ToN, invNH3ToN, SOxToS, invSOxToS, ratio;
    cbn [fdiv fofZ exact]; field; lra.
Qed.

Lemma emission_to_concentration_witness :
  exists d1 c1 c2,
    RunEmissions fourTwo [("NOx"%string, [3%R])] = Done d1 /\
    nth_error (Cells d1) 0 = Some c1 /\
    addEmissionsFlux c1 d1 = Done c2 /\
    getValue [] (fun x => x) (fun x _ _ => x) c2 "NOx"
    = Done (3 * Dt fourTwo / (Dx fourCell * Dy fourCell * Dz fourCell))%R.
Proof.
  eexists.
  destruct (@emission_to_concentration [] (fun x => x) (fun x _ _ => x)
              fourTwo _ [("NOx"%string, [3%R])] "NOx"%string [3%R] 0 3%R
              fourCell eq_refl)
    as (c1 & c2 & N & A & V).
  - repeat constructor. intros [].
  - now left.
  - reflexivity.
  - reflexivity.
  - cbn. lra.
  - cbn. lra.
  - cbn. lra.
  - exists c1, c2. split; [reflexivity|]. split; [exact N|].
    split; [exact A|exact V].
Defined.
